(** * machetli.tools: a shallow embedding and its verified properties

    The development follows [machetli/tools.py]: the batching generator
    [batched], the logging set-up [configure_logging], the resource-limit
    helper [_set_limit], the output parser [parse], the state codec
    [write_state]/[read_state] and the process runner [Run].

    Python values are modelled by inductive types, Python [int] by [Z],
    [float] by the 64 bits of the double, text by [string] (characters
    with code points 0 to 255), byte strings by [list byte].  Code that can raise
    returns a [result]; code that touches the interpreter state (loggers,
    resource limits, files, processes) is written in a state-and-exception
    monad over an explicit [world]. *)

From Stdlib Require Import ZArith List Lia Ascii String.
From Stdlib.Strings Require Import Byte.
From stdpp Require Import base option list gmap strings pretty functions relations.
From Equations Require Import Equations.

Set Warnings "-register-all".

Open Scope string_scope.
Open Scope list_scope.
Open Scope Z_scope.

(** ** Python exceptions and results *)

Module Py.

(** The exception classes this module can meet. *)
Inductive exn_class :=
| BaseException | Exception_
| ValueError | UnicodeDecodeError
| LookupError | IndexError
| TypeError | ArithmeticError | OverflowError
| OSError | FileNotFoundError | PermissionError
| SubprocessError | StopIteration | SystemExit
| ReError | UnpicklingError | PicklingError.

#[global] Instance exn_class_eq_dec : EqDecision exn_class.
Proof. solve_decision. Defined.

(** The direct base class, as in the built-in exception hierarchy. *)
Definition base (c : exn_class) : option exn_class :=
  match c with
  | BaseException => None
  | Exception_ | SystemExit => Some BaseException
  | UnicodeDecodeError => Some ValueError
  | IndexError => Some LookupError
  | OverflowError => Some ArithmeticError
  | FileNotFoundError | PermissionError => Some OSError
  | ValueError | LookupError | TypeError | ArithmeticError | OSError
  | SubprocessError | StopIteration | ReError
  | UnpicklingError | PicklingError => Some Exception_
  end.

(** [issubclass c d]; the hierarchy has depth at most 3. *)
Fixpoint issubclass_fuel (fuel : nat) (c d : exn_class) : bool :=
  if decide (c = d) then true
  else match fuel, base c with
       | S fuel', Some b => issubclass_fuel fuel' b d
       | _, _ => false
       end.

Definition issubclass : exn_class → exn_class → bool := issubclass_fuel 4.

Record exn := Exn { exn_cls : exn_class; exn_msg : string }.

#[global] Instance exn_eq_dec : EqDecision exn.
Proof. solve_decision. Defined.

(** [except (c1, c2, ...)] catches [e] when [e] is an instance of one of
    the listed classes. *)
Definition caught_by (e : exn) (classes : list exn_class) : bool :=
  existsb (issubclass (exn_cls e)) classes.

Inductive result (A : Type) :=
| Ok (a : A)
| Raise (e : exn).
Arguments Ok {A} a.
Arguments Raise {A} e.

End Py.
Import Py.

(** ** Built-in functions on text

    A text is a [string] of characters with code points 0 to 255; the
    character classes below are those of Python on these code points. *)

(** A string without its first [n] characters. *)
Fixpoint string_drop (n : nat) (s : string) : string :=
  match n, s with
  | S n', String _ s' => string_drop n' s'
  | _, _ => s
  end.

(** First [n] characters of a string. *)
Fixpoint string_take (n : nat) (s : string) : string :=
  match n, s with
  | S n', String c s' => String c (string_take n' s')
  | _, _ => EmptyString
  end.

(** [repr] of a string: single quotes, or double quotes when the text
    holds a single quote and no double quote; the delimiter and the
    backslash are escaped, characters that do not print are written as
    [\n], [\r], [\t] or with two hexadecimal digits. *)
Definition squote : ascii := "'"%char.
Definition dquote : ascii := "034"%char.
Definition backslash : ascii := "092"%char.

Definition is_printable (c : ascii) : bool :=
  let n := nat_of_ascii c in
  ((32 <=? n) && (n <=? 126) || (161 <=? n) && negb (n =? 173))%nat.

Definition hex_digit (n : nat) : ascii :=
  ascii_of_nat (if (n <? 10)%nat then 48 + n else 87 + n).

Definition hex_escape (c : ascii) : string :=
  let n := nat_of_ascii c in
  String backslash
    (String "x" (String (hex_digit (n / 16)) (String (hex_digit (n mod 16)) EmptyString))).

Fixpoint repr_chars (delim : ascii) (s : string) : string :=
  match s with
  | EmptyString => EmptyString
  | String c s' =>
      (if decide (c = delim) then String backslash (String c EmptyString)
       else if decide (c = backslash) then String backslash (String backslash EmptyString)
       else if decide (c = "010"%char) then String backslash "n"
       else if decide (c = "013"%char) then String backslash "r"
       else if decide (c = "009"%char) then String backslash "t"
       else if is_printable c then String c EmptyString
       else hex_escape c) +:+ repr_chars delim s'
  end.

Fixpoint has_char (c : ascii) (s : string) : bool :=
  match s with
  | EmptyString => false
  | String c' s' => bool_decide (c = c') || has_char c s'
  end.

Definition repr_str (s : string) : string :=
  let delim := if has_char squote s && negb (has_char dquote s)
               then dquote else squote in
  String delim (repr_chars delim s) +:+ String delim EmptyString.

Definition repr_list (l : list string) : string :=
  "[" +:+ String.concat ", " (map repr_str l) +:+ "]".

(** [str.isspace] of a character, the class [\s] of a pattern. *)
Definition is_space (c : ascii) : bool :=
  let n := nat_of_ascii c in
  ((9 <=? n) && (n <=? 13) || (28 <=? n) && (n <=? 32)
   || (n =? 133) || (n =? 160))%nat.

(** The blanks that [int] skips around a number: a file or group
    separator is none of them. *)
Definition is_int_space (c : ascii) : bool :=
  let n := nat_of_ascii c in
  ((9 <=? n) && (n <=? 13) || (n =? 32) || (n =? 133) || (n =? 160))%nat.

Definition is_digit (c : ascii) : bool :=
  let n := nat_of_ascii c in ((48 <=? n) && (n <=? 57))%nat.

Definition digit_value (c : ascii) : Z := Z.of_nat (nat_of_ascii c) - 48.

Fixpoint skip_int_space (s : string) : string :=
  match s with
  | String c s' => if is_int_space c then skip_int_space s' else s
  | EmptyString => EmptyString
  end.

(** The run of digits and underscores at the head of [s]: its value, the
    number of digits, whether it ends in an underscore, and what follows;
    [None] for two underscores in a row. *)
Fixpoint scan_digits (acc : Z) (digits : nat) (after_underscore : bool) (s : string)
    : option (Z * nat * bool * string) :=
  match s with
  | String c s' =>
      if is_digit c then scan_digits (10 * acc + digit_value c) (S digits) false s'
      else if decide (c = "_"%char)
      then (if after_underscore then None else scan_digits acc digits true s')
      else Some (acc, digits, after_underscore, s)
  | EmptyString => Some (acc, digits, after_underscore, s)
  end.

(** [sys.get_int_max_str_digits()], as the interpreter starts. *)
Definition int_max_str_digits : nat := 4300.

Definition int_too_long_message (digits : nat) : string :=
  "Exceeds the limit (4300 digits) for integer string conversion: value has "
  +:+ pretty (Z.of_nat digits)
  +:+ " digits; use sys.set_int_max_str_digits() to increase the limit".

(** [int(s)] for a string: optional blanks, an optional sign, digits with
    single underscores between them, optional blanks.  The number of
    digits is checked as soon as the digits have been scanned. *)
Definition int_of_str (s : string) : result Z :=
  let invalid :=
    Raise (Exn ValueError
      ("invalid literal for int() with base 10: " +:+ string_take 200 (repr_str s))) in
  let '(negative, body) :=
    match skip_int_space s with
    | String "-" d => (true, d)
    | String "+" d => (false, d)
    | d => (false, d)
    end in
  match body with
  | String "_" _ => invalid
  | _ =>
      match scan_digits 0 0 false body with
      | None => invalid
      | Some (value, digits, after_underscore, rest) =>
          if after_underscore then invalid
          else if (int_max_str_digits <? digits)%nat
          then Raise (Exn ValueError (int_too_long_message digits))
          else if (digits =? 0)%nat then invalid
          else match skip_int_space rest with
               | EmptyString => Ok (if negative then - value else value)
               | String _ _ => invalid
               end
      end
  end.

(** [inspect] keeps the equation of a scrutinee for a well-founded
    definition. *)
Definition inspect {A} (a : A) : {b : A | a = b} := exist _ a eq_refl.

(** ** [batched]: the batching generator *)

Module Batched.

Section Generator.
Context {A : Type}.

(** [iter(iterable)] over a finite sequence: the elements not yet
    consumed. *)
Definition iterator := list A.

Definition iter (iterable : list A) : iterator := iterable.

(** [sys.maxsize], the largest [Py_ssize_t] of a 64-bit build. *)
Definition sys_maxsize : Z := 2 ^ 63 - 1.

(** An [islice] object run to its end: the first [n] elements of the
    iterator, or all of them when there are fewer, and the iterator that
    is left. *)
Fixpoint islice (it : iterator) (n : Z) : list A * iterator :=
  match it with
  | [] => ([], [])
  | x :: it' =>
      if n <=? 0 then ([], it)
      else let '(batch, rest) := islice it' (n - 1) in (x :: batch, rest)
  end.

(** [tuple(itertools.islice(it, n))]: consumes up to [n] elements of
    the iterator.  [islice] rejects a stop that is negative or above
    [sys.maxsize]. *)
Definition tuple_islice (it : iterator) (n : Z) : result (list A) * iterator :=
  if (n <? 0) || (sys_maxsize <? n)
  then (Raise (Exn ValueError
          "Stop argument for islice() must be None or an integer: 0 <= x <= sys.maxsize."),
        it)
  else let '(batch, rest) := islice it n in (Ok batch, rest).

(** The frame of a [batched] generator object.  Calling the generator
    function only creates the frame; the body runs when the generator
    is advanced. *)
Inductive generator :=
| GenCreated (iterable : list A) (n : Z)
| GenSuspended (it : iterator) (n : Z)
| GenClosed.

(** The call [batched(iterable, n)]: the function holds a [yield], so the
    call returns the generator object and runs nothing of the body. *)
Definition batched (iterable : list A) (n : Z) : result generator :=
  Ok (GenCreated iterable n).

(** One turn of [while batch := tuple(islice(it, n)): yield batch]. *)
Definition loop (it : iterator) (n : Z) : result (list A) * generator :=
  match tuple_islice it n with
  | (Ok batch, it') =>
      match batch with
      | [] => (Raise (Exn StopIteration EmptyString), GenClosed)
      | _ :: _ => (Ok batch, GenSuspended it' n)
      end
  | (Raise e, _) => (Raise e, GenClosed)
  end.

(** [next(gen)]: run the body up to the next [yield]. *)
Definition next (g : generator) : result (list A) * generator :=
  match g with
  | GenCreated iterable n =>
      if n <? 1
      then (Raise (Exn ValueError "n must be at least one"), GenClosed)
      else loop (iter iterable) n
  | GenSuspended it n => loop it n
  | GenClosed => (Raise (Exn StopIteration EmptyString), GenClosed)
  end.

Definition gen_size (g : generator) : nat :=
  match g with
  | GenCreated iterable _ => S (S (length iterable))
  | GenSuspended it _ => S (length it)
  | GenClosed => 0
  end.

(** [list(gen)]: advance the generator until [StopIteration]; any other
    exception propagates. *)
Equations? list_of (g : generator) : result (list (list A))
  by wf (gen_size g) lt :=
  list_of g with inspect (next g) => {
    | exist _ (Ok b, g') Heq =>
        match list_of g' with
        | Ok bs => Ok (b :: bs)
        | Raise e => Raise e
        end
    | exist _ (Raise e, _) Heq =>
        if issubclass (exn_cls e) StopIteration then Ok [] else Raise e }.
Proof.
  (* a yielded batch is non-empty, so fewer elements remain *)
  assert (∀ it n batch rest,
            islice it n = (batch, rest) → length it = (length batch + length rest)%nat)
    as Hislice.
  { induction it as [|x it IH]; intros n batch rest; cbn [islice].
    - by intros [= <- <-].
    - destruct (n <=? 0); [by intros [= <- <-]|].
      destruct (islice it (n - 1)) as [batch' rest'] eqn:Hrec.
      intros [= <- <-]. simpl. by rewrite (IH _ _ _ Hrec). }
  assert (∀ it n, loop it n = (Ok b, g') → (gen_size g' < S (length it))%nat) as Hloop.
  { intros it n. unfold loop, tuple_islice.
    destruct ((n <? 0) || (sys_maxsize <? n)); [discriminate|].
    destruct (islice it n) as [[|x xs] rest] eqn:Ht; [discriminate|].
    intros [= <- <-]. simpl. apply Hislice in Ht. simpl in Ht. lia. }
  destruct g as [s n|it n|]; simpl in *.
  - destruct (n <? 1); [discriminate|].
    apply Hloop in Heq. unfold iter in Heq. lia.
  - apply Hloop in Heq. lia.
  - discriminate.
Qed.

(** [list(batched(iterable, n))] *)
Definition list_batched (iterable : list A) (n : Z) : result (list (list A)) :=
  match batched iterable n with
  | Ok g => list_of g
  | Raise e => Raise e
  end.

End Generator.

Arguments generator : clear implicits.
Arguments iterator : clear implicits.

End Batched.

(** ** The [logging] module as [configure_logging] sets it up *)

Module Logging.

Definition DEBUG : Z := 10.
Definition INFO : Z := 20.
Definition WARNING : Z := 30.
Definition ERROR : Z := 40.
Definition CRITICAL : Z := 50.

Record log_record := LogRecord { levelno : Z; message : string }.

Inductive stream := Stdout | Stderr.

(** The handlers the root logger can hold: the handler [logging]
    installs by itself when a message is logged before any set-up, and
    the two handlers of [configure_logging]. *)
Inductive handler :=
| DefaultHandler
| StdoutHandler
| ErrorAbortHandler.

#[global] Instance handler_eq_dec : EqDecision handler.
Proof. solve_decision. Defined.

Record state := State {
  root_level : Z;
  handlers : list handler;
  written : list (stream * log_record)
}.

(** A fresh interpreter: root level [WARNING], no handler. *)
Definition initial : state := State WARNING [] [].

(** [StdoutFilter] and [StderrFilter]. *)
Definition handler_filter (h : handler) (r : log_record) : bool :=
  match h with
  | DefaultHandler => true
  | StdoutHandler => levelno r <=? WARNING
  | ErrorAbortHandler => WARNING <? levelno r
  end.

Definition handler_stream (h : handler) : stream :=
  match h with
  | StdoutHandler => Stdout
  | DefaultHandler | ErrorAbortHandler => Stderr
  end.

(** [handler.handle(record)] for each handler in turn.
    [ErrorAbortHandler.emit] writes the record and then calls
    [sys.exit("aborting")] for a critical record, which leaves the
    remaining handlers uncalled. *)
Fixpoint call_handlers (hs : list handler) (r : log_record)
    (out : list (stream * log_record)) : result unit * list (stream * log_record) :=
  match hs with
  | [] => (Ok tt, out)
  | h :: hs' =>
      if handler_filter h r then
        let out' := out ++ [(handler_stream h, r)] in
        match h with
        | ErrorAbortHandler =>
            if CRITICAL <=? levelno r
            then (Raise (Exn SystemExit "aborting"), out')
            else call_handlers hs' r out'
        | _ => call_handlers hs' r out'
        end
      else call_handlers hs' r out
  end.

(** The module-level [logging.log(level, msg)]: installs the default
    handler when the root logger has none, then hands the record to the
    handlers if the root level admits it. *)
Definition log (level : Z) (msg : string) (st : state) : result unit * state :=
  let hs := match handlers st with [] => [DefaultHandler] | hs => hs end in
  if root_level st <=? level then
    let '(r, out) := call_handlers hs (LogRecord level msg) (written st) in
    (r, State (root_level st) hs out)
  else (Ok tt, State (root_level st) hs (written st)).

(** [for handler in root_logger.handlers: root_logger.removeHandler(handler)]:
    the list is indexed while it shrinks, so the loop drops the handler
    under the index and moves on to the next position.  A logger holds a
    handler object once, so the handler removed is the one at the index. *)
Fixpoint remove_while_iterating (fuel : nat) (i : nat) (hs : list handler)
    : list handler :=
  match fuel with
  | O => hs
  | S fuel' =>
      match hs !! i with
      | None => hs
      | Some _ => remove_while_iterating fuel' (S i) (delete i hs)
      end
  end.

Definition configure_logging (level : Z) (st : state) : state :=
  let hs := remove_while_iterating (length (handlers st)) 0 (handlers st) in
  State level (hs ++ [StdoutHandler; ErrorAbortHandler]) (written st).

End Logging.

(** ** Resource limits *)

Module Resource.

Inductive rkind := RLIMIT_CPU | RLIMIT_AS | RLIMIT_CORE.

#[global] Instance rkind_eq_dec : EqDecision rkind.
Proof. solve_decision. Defined.

(** The integer behind each constant (Linux), as it prints in messages. *)
Definition rkind_code (k : rkind) : Z :=
  match k with RLIMIT_CPU => 0 | RLIMIT_CORE => 4 | RLIMIT_AS => 9 end.

(** The (soft, hard) pair of every resource of the current process. *)
Abbreviation rlimits := (rkind → Z * Z)%type.

End Resource.
Import Resource.

(** ** The operating system the module runs on

    The kernel's verdict on a [setrlimit] request, process creation, the
    behaviour of the launched program and text decoding are not part of
    the module; they are the operations of a class, and every property is
    proved for all of its instances. *)

Record child_env := ChildEnv {
  child_rlimits : rlimits;
  child_log : list (Logging.stream * Logging.log_record)
}.

Record process := Process { pid : nat; returncode : option Z }.

Class OS := {
  os_state : Type;
  (** [None] when the kernel accepts the request, else the exception
      [resource.setrlimit] raises. *)
  os_setrlimit_check : rkind → Z * Z → rlimits → option exn;
  (** [execve] in the forked child, after [preexec_fn] has run. *)
  os_execve : list string → bool → child_env → os_state → result nat * os_state;
  (** Feed the input, drain both pipes and wait for the child. *)
  os_communicate : nat → option string → os_state
                   → result (string * string * Z) * os_state;
  (** Decoding of a text file with the locale's encoding. *)
  os_decode : list byte → result string;
  (** [None] when the path can be opened for writing, else the [OSError]
      that [open] raises. *)
  os_open_write_check : string → gmap string (list byte) → option exn
}.

Section World.
Context `{OS}.

Record world := World {
  w_logging : Logging.state;
  w_rlimits : rlimits;
  w_fs : gmap string (list byte);
  w_os : os_state
}.

Definition set_logging (l : Logging.state) (w : world) : world :=
  World l (w_rlimits w) (w_fs w) (w_os w).
Definition set_rlimits (r : rlimits) (w : world) : world :=
  World (w_logging w) r (w_fs w) (w_os w).
Definition set_fs (fs : gmap string (list byte)) (w : world) : world :=
  World (w_logging w) (w_rlimits w) fs (w_os w).
Definition set_os (o : os_state) (w : world) : world :=
  World (w_logging w) (w_rlimits w) (w_fs w) o.

(** Computations that read and change the world and may raise. *)
Definition M (A : Type) : Type := world → result A * world.

Definition ret {A} (a : A) : M A := λ w, (Ok a, w).

Definition bind {A B} (c : M A) (k : A → M B) : M B :=
  λ w, match c w with
       | (Ok a, w') => k a w'
       | (Raise e, w') => (Raise e, w')
       end.

Definition raise {A} (e : exn) : M A := λ w, (Raise e, w).

(** A computation that does not touch the world. *)
Definition lift_result {A} (r : result A) : M A := λ w, (r, w).

(** [try: c  except classes as err: handler(err)] *)
Definition try_except {A} (c : M A) (classes : list exn_class)
    (handler : exn → M A) : M A :=
  λ w, match c w with
       | (Ok a, w') => (Ok a, w')
       | (Raise e, w') =>
           if caught_by e classes then handler e w' else (Raise e, w')
       end.

End World.

Notation "'let*' x ':=' c 'in' k" := (bind c (λ x, k))
  (at level 10, x binder, c at level 100, k at level 200, only parsing).
Notation "c1 ;; c2" := (bind c1 (λ _, c2))
  (at level 100, c2 at level 200, right associativity, only parsing).

Section Limits.
Context `{OS}.

Definition logging_log (level : Z) (msg : string) : M unit :=
  λ w, let '(r, l) := Logging.log level msg (w_logging w) in (r, set_logging l w).

Definition logging_debug := logging_log Logging.DEBUG.
Definition logging_warning := logging_log Logging.WARNING.
Definition logging_critical := logging_log Logging.CRITICAL.

(** [resource.getrlimit(kind)] *)
Definition getrlimit (kind : rkind) : M (Z * Z) :=
  λ w, (Ok (w_rlimits w kind), w).

(** [resource.setrlimit(kind, (soft, hard))] *)
Definition setrlimit (kind : rkind) (limits : Z * Z) : M unit :=
  λ w, match os_setrlimit_check kind limits (w_rlimits w) with
       | Some e => (Raise e, w)
       | None => (Ok tt, set_rlimits (<[kind := limits]> (w_rlimits w)) w)
       end.

Definition set_limit_message (kind : rkind) (soft_limit hard_limit : Z)
    (err : exn) : string :=
  "Resource limit for " +:+ pretty (rkind_code kind) +:+
  " could not be set to [" +:+ pretty soft_limit +:+ ", " +:+
  pretty hard_limit +:+ "] (" +:+ exn_msg err +:+ ")".

Definition _set_limit (kind : rkind) (soft_limit hard_limit : Z) : M unit :=
  try_except (setrlimit kind (soft_limit, hard_limit)) [OSError; ValueError]
    (λ err, logging_critical (set_limit_message kind soft_limit hard_limit err)).

(** [if time_limit is not None: _set_limit(RLIMIT_CPU, ...)] *)
Definition limit_cpu_time (time_limit : option Z) : M unit :=
  match time_limit with
  | Some t => _set_limit RLIMIT_CPU t (t + 5)
  | None => ret tt
  end.

(** [if memory_limit is not None: ...]: the hard limit is the one
    [getrlimit] reports, the soft limit is the MiB count in bytes. *)
Definition limit_memory (memory_limit : option Z) : M unit :=
  match memory_limit with
  | Some m =>
      let* lim := getrlimit RLIMIT_AS in
      let hard_mem_limit := snd lim in
      _set_limit RLIMIT_AS (m * 1024 * 1024) hard_mem_limit
  | None => ret tt
  end.

(** The closure [_prepare_call] of [Run.start], over the two limits it
    captures: its two conditionals, then the core-file limit. *)
Definition _prepare_call (time_limit memory_limit : option Z) : M unit :=
  limit_cpu_time time_limit ;;
  limit_memory memory_limit ;;
  _set_limit RLIMIT_CORE 0 0.

End Limits.

(** ** The process runner [Run] *)

Section Runner.
Context `{OS}.

Record Run := {
  command : list string;
  time_limit : option Z;
  memory_limit : option Z;
  log_on_fail : bool;
  log_always : bool;
  input_file : option string
}.

(** A keyword argument is either left out or passed; what is passed may
    be [None]. *)
Definition kwarg (A : Type) := option (option A).

Definition kwarg_default {A} (default : option A) (a : kwarg A) : option A :=
  match a with
  | None => default
  | Some v => v
  end.

(** [Run.__init__(self, command, time_limit=1800, memory_limit=None,
    log_output=None, input_file=None)] *)
Definition Run__init__ (command : list string) (time_limit memory_limit : kwarg Z)
    (log_output input_file : kwarg string) : Run :=
  let log_output := kwarg_default None log_output in
  {| command := command;
     time_limit := kwarg_default (Some 1800) time_limit;
     memory_limit := kwarg_default None memory_limit;
     log_on_fail := bool_decide (log_output = Some "on_fail");
     log_always := bool_decide (log_output = Some "always");
     input_file := kwarg_default None input_file |}.

(** Methods run over the object and the world; an attribute assignment
    would replace the object. *)
Definition Method (A : Type) : Type := Run → world → result A * Run * world.

Definition lift {A} (c : M A) : Method A :=
  λ self w, let '(r, w') := c w in (r, self, w').

Definition getattr {A} (field : Run → A) : Method A :=
  λ self w, (Ok (field self), self, w).

Definition mbind {A B} (c : Method A) (k : A → Method B) : Method B :=
  λ self w, match c self w with
            | (Ok a, self', w') => k a self' w'
            | (Raise e, self', w') => (Raise e, self', w')
            end.

(** Truth value of [self.input_file]: [None] and the empty string are
    false. *)
Definition truthy (s : option string) : bool :=
  match s with
  | None | Some EmptyString => false
  | Some _ => true
  end.

(** What [Popen] does with the command in the parent, before it forks:
    [args[0]] is the executable, and every argument is converted to a C
    string, which cannot hold a NUL byte. *)
Definition popen_check (command : list string) : option exn :=
  match command with
  | [] => Some (Exn IndexError "list index out of range")
  | _ :: _ =>
      if existsb (has_char "000"%char) command
      then Some (Exn ValueError "embedded null byte")
      else None
  end.

(** The launch of a command as the parent sees it: the checks of [Popen],
    then [execve] in the child. *)
Definition os_exec (command : list string) (stdin_pipe : bool) (env : child_env)
    (o : os_state) : result nat * os_state :=
  match popen_check command with
  | Some e => (Raise e, o)
  | None => os_execve command stdin_pipe env o
  end.

(** [subprocess.Popen(command, preexec_fn=..., stdout=PIPE, stderr=PIPE,
    stdin=..., text=True)]: the command is checked in the parent; the
    child is a copy of the caller, it runs [preexec_fn] and then the
    command.  An exception of [preexec_fn] reaches the caller as
    [SubprocessError]. *)
Definition Popen (command : list string) (preexec_fn : M unit)
    (stdin_pipe : bool) : M process :=
  λ w, match popen_check command with
       | Some e => (Raise e, w)
       | None =>
           match preexec_fn w with
           | (Raise _, _) =>
               (Raise (Exn SubprocessError "Exception occurred in preexec_fn."), w)
           | (Ok _, child) =>
               let env := ChildEnv (w_rlimits child)
                                   (Logging.written (w_logging child)) in
               match os_execve command stdin_pipe env (w_os w) with
               | (Ok p, o) => (Ok (Process p None), set_os o w)
               | (Raise e, o) => (Raise e, set_os o w)
               end
           end
       end.

(** [with open(path, "r") as file: file.read()] *)
Definition read_text (path : string) : M string :=
  λ w, match w_fs w !! path with
       | None => (Raise (Exn FileNotFoundError
                    ("[Errno 2] No such file or directory: " +:+ repr_str path)), w)
       | Some content =>
           match os_decode content with
           | Ok text => (Ok text, w)
           | Raise e => (Raise e, w)
           end
       end.

(** [process.communicate(input=...)]; the process object then holds the
    return code. *)
Definition communicate (p : process) (input : option string)
    : M (string * string * process) :=
  λ w, match os_communicate (pid p) input (w_os w) with
       | (Ok (out, err, rc), o) =>
           (Ok (out, err, Process (pid p) (Some rc)), set_os o w)
       | (Raise e, o) => (Raise e, set_os o w)
       end.

(** [Run.start] *)
Definition start : Method (string * string * option Z) :=
  mbind (getattr time_limit) (λ time_limit,
  mbind (getattr memory_limit) (λ memory_limit,
  mbind (getattr command) (λ cmd,
  mbind (lift (logging_debug ("Command:" +:+ String "010" (repr_list cmd)))) (λ _,
  mbind (getattr input_file) (λ input,
  let stdin := truthy input in
  mbind (getattr command) (λ cmd,
  mbind (lift (Popen cmd (_prepare_call time_limit memory_limit) stdin)) (λ process,
  mbind (getattr input_file) (λ input,
  mbind (if truthy input
         then mbind (getattr input_file) (λ path,
              mbind (lift (read_text (default EmptyString path))) (λ text,
              lift (ret (Some text))))
         else lift (ret None)) (λ input_text,
  mbind (lift (communicate process input_text)) (λ '(out_str, err_str, process),
  lift (ret (out_str, err_str, returncode process)))))))))))).

End Runner.

(** ** An unprivileged Linux process with three small programs

    An instance of [OS] to run the definitions on: the kernel's rule for
    [setrlimit] without [CAP_SYS_RESOURCE], and a machine that knows
    [/bin/echo], [/bin/cat] and [/bin/false]. *)

Module Linux.

(** [rlim_t] is an unsigned 64-bit integer; Python passes a C long long
    and reads one back, so [-1] is [RLIM_INFINITY]. *)
Definition to_rlim (z : Z) : Z := z mod 2 ^ 64.

Definition fits_long_long (z : Z) : bool :=
  (- 2 ^ 63 <=? z) && (z <? 2 ^ 63).

Definition setrlimit_check (kind : rkind) (limits : Z * Z) (cur : rlimits)
    : option exn :=
  let '(soft, hard) := limits in
  if negb (fits_long_long soft && fits_long_long hard)
  then Some (Exn OverflowError "Python int too large to convert to C long")
  else if to_rlim hard <? to_rlim soft
  then Some (Exn ValueError "current limit exceeds maximum limit")
  else if to_rlim (snd (cur kind)) <? to_rlim hard
  then Some (Exn ValueError "not allowed to raise maximum limit")
  else None.

Inductive program := Echo | Cat | False_.

Record running := Running {
  run_program : program;
  run_args : list string;
  run_stdin_pipe : bool
}.

Record machine := Machine {
  next_pid : nat;
  procs : gmap nat running
}.

Definition lookup_program (path : string) : option program :=
  if decide (path = "/bin/echo") then Some Echo
  else if decide (path = "/bin/cat") then Some Cat
  else if decide (path = "/bin/false") then Some False_
  else None.

Definition exec (command : list string) (stdin_pipe : bool) (env : child_env)
    (m : machine) : result nat * machine :=
  match command with
  | [] => (Raise (Exn IndexError "list index out of range"), m)
  | path :: args =>
      match lookup_program path with
      | None => (Raise (Exn FileNotFoundError
                   ("[Errno 2] No such file or directory: " +:+ repr_str path)), m)
      | Some prog =>
          (Ok (next_pid m),
           Machine (S (next_pid m))
                   (<[next_pid m := Running prog args stdin_pipe]> (procs m)))
      end
  end.

Definition newline : string := String "010" EmptyString.

Definition wait (pid : nat) (input : option string) (m : machine)
    : result (string * string * Z) * machine :=
  match procs m !! pid with
  | None => (Raise (Exn ValueError "no such process"), m)
  | Some r =>
      let m' := Machine (next_pid m) (delete pid (procs m)) in
      match run_program r with
      | Echo => (Ok (String.concat " " (run_args r) +:+ newline, EmptyString, 0), m')
      | Cat => (Ok (default EmptyString input, EmptyString, 0), m')
      | False_ => (Ok (EmptyString, EmptyString, 1), m')
      end
  end.

(** Files live in one directory; a name with a slash has no directory to
    go to. *)
Definition open_write_check (path : string) (fs : gmap string (list byte))
    : option exn :=
  if has_char "/"%char path || bool_decide (path = EmptyString)
  then Some (Exn FileNotFoundError
               ("[Errno 2] No such file or directory: " +:+ repr_str path))
  else None.

#[global] Instance linux_os : OS := {|
  os_state := machine;
  os_setrlimit_check := setrlimit_check;
  os_execve := exec;
  os_communicate := wait;
  os_decode := λ bytes, Ok (string_of_list_byte bytes);
  os_open_write_check := open_write_check
|}.

(** A process started from a shell without limits. *)
Definition unlimited : rlimits := λ _, (-1, -1).

Definition boot : world :=
  World Logging.initial unlimited ∅ (Machine 100 ∅).

End Linux.

(** ** Regular expressions

    The module [re] is used through [re.compile], [regex.search] and
    [match.group].  Pattern objects are the objects of a class; a match
    object holds the span of the match and the text of each capture
    group, [None] for a group that took no part in the match. *)

Record match_obj := Match {
  m_start : nat;
  m_end : nat;
  m_groups : list (option string)
}.

(** [match.group(i)] for [i >= 1] *)
Definition group (m : match_obj) (i : nat) : result (option string) :=
  match m_groups m !! pred i with
  | Some g => Ok g
  | None => Raise (Exn IndexError "no such group")
  end.

Class Regex := {
  pattern_obj : Type;
  (** [re.compile(pattern)]; raises [re.error] for a malformed pattern *)
  re_compile : string → result pattern_obj;
  (** [regex.groups], the number of capture groups *)
  re_groups : pattern_obj → nat;
  (** [regex.search(content)] *)
  re_search : pattern_obj → string → option match_obj
}.

(** A match object has one slot for each capture group of its pattern. *)
Class RegexLaws `{Regex} := {
  re_search_groups p content m :
    re_search p content = Some m → length (m_groups m) = re_groups p
}.

(** A backtracking matcher for a fragment of the pattern language:
    literals, [.], the classes [\d \w \s] and their complements, the
    escapes of control and of special characters, groups, alternation and
    the greedy [* + ?].  A pattern outside the fragment is not compiled. *)

Module Backtrack.

Inductive charset :=
| CsChar (c : ascii)
| CsAny
| CsDigit (positive : bool)
| CsWord (positive : bool)
| CsSpace (positive : bool).

Inductive regex :=
| Eps
| Chr (cs : charset)
| Seq (r1 r2 : regex)
| Alt (r1 r2 : regex)
| Star (r : regex)
| Group (i : nat) (r : regex).

Definition is_ascii_alnum (c : ascii) : bool :=
  let n := nat_of_ascii c in
  (is_digit c || (65 <=? n) && (n <=? 90) || (97 <=? n) && (n <=? 122))%nat.

(** [\w]: the alphanumeric characters and the underscore. *)
Definition is_word (c : ascii) : bool :=
  let n := nat_of_ascii c in
  (is_ascii_alnum c || (n =? 95)
   || (n =? 170) || (n =? 178) || (n =? 179) || (n =? 181) || (n =? 185)
   || (n =? 186) || (188 <=? n) && (n <=? 190)
   || (192 <=? n) && (n <=? 214) || (216 <=? n) && (n <=? 246)
   || (248 <=? n))%nat.

Definition charset_mem (cs : charset) (c : ascii) : bool :=
  match cs with
  | CsChar c' => bool_decide (c = c')
  | CsAny => negb (bool_decide (c = "010"%char))
  | CsDigit b => bool_decide (is_digit c = b)
  | CsWord b => bool_decide (is_word c = b)
  | CsSpace b => bool_decide (is_space c = b)
  end.

Abbreviation captures := (list (option string)).

(** All the ways to go on after repeating [step], longest first.  An
    iteration that consumes nothing is the last one: the loop is left
    with its captures. *)
Fixpoint star_iter (step : string → captures → list (string * captures))
    (n : nat) (s : string) (c : captures) : list (string * captures) :=
  match n with
  | O => [(s, c)]
  | S n' =>
      flat_map (λ '(s', c'),
                  if (String.length s' <? String.length s)%nat
                  then star_iter step n' s' c' else [(s', c')])
               (step s c)
      ++ [(s, c)]
  end.

(** [ms r s c]: the ways [r] matches a prefix of [s], in the order the
    backtracking engine tries them; each gives the rest of the text and
    the captures. *)
Fixpoint ms (r : regex) (s : string) (c : captures) : list (string * captures) :=
  match r with
  | Eps => [(s, c)]
  | Chr cs =>
      match s with
      | String a s' => if charset_mem cs a then [(s', c)] else []
      | EmptyString => []
      end
  | Seq r1 r2 => flat_map (λ '(s', c'), ms r2 s' c') (ms r1 s c)
  | Alt r1 r2 => ms r1 s c ++ ms r2 s c
  | Star r1 => star_iter (ms r1) (S (String.length s)) s c
  | Group i r1 =>
      map (λ '(s', c'),
             (s', <[i := Some (string_take (String.length s - String.length s') s)]> c'))
          (ms r1 s c)
  end.

(** Leftmost match: try every start position in turn. *)
Fixpoint search_from (r : regex) (ngroups : nat) (start : nat) (s : string)
    : option match_obj :=
  match ms r s (replicate ngroups None) with
  | (s', caps) :: _ =>
      Some (Match start (start + (String.length s - String.length s')) caps)
  | [] =>
      match s with
      | EmptyString => None
      | String _ s' => search_from r ngroups (S start) s'
      end
  end.

(** *** Reading a pattern *)

(** The character after a backslash: a class, a control character, or
    the character itself when it is no letter and no digit.  The other
    escapes with a letter or a digit are left out. *)
Definition read_escape (c : ascii) : option charset :=
  if decide (c = "d"%char) then Some (CsDigit true)
  else if decide (c = "D"%char) then Some (CsDigit false)
  else if decide (c = "w"%char) then Some (CsWord true)
  else if decide (c = "W"%char) then Some (CsWord false)
  else if decide (c = "s"%char) then Some (CsSpace true)
  else if decide (c = "S"%char) then Some (CsSpace false)
  else if decide (c = "a"%char) then Some (CsChar "007"%char)
  else if decide (c = "t"%char) then Some (CsChar "009"%char)
  else if decide (c = "n"%char) then Some (CsChar "010"%char)
  else if decide (c = "v"%char) then Some (CsChar "011"%char)
  else if decide (c = "f"%char) then Some (CsChar "012"%char)
  else if decide (c = "r"%char) then Some (CsChar "013"%char)
  else if is_ascii_alnum c then None
  else Some (CsChar c).

Definition is_repeat (c : ascii) : bool :=
  bool_decide (c = "*"%char) || bool_decide (c = "+"%char) || bool_decide (c = "?"%char).

(** Characters of the full language that the fragment leaves out. *)
Definition is_unsupported (c : ascii) : bool :=
  bool_decide (c = "["%char) || bool_decide (c = "{"%char) ||
  bool_decide (c = "^"%char) || bool_decide (c = "$"%char).

(** One greedy repetition operator after an atom, at most. *)
Definition read_repeat (r : regex) (s : string) : option (regex * string) :=
  match s with
  | String c s' =>
      if is_repeat c then
        match s' with
        | String c' _ => if is_repeat c' then None else
            Some (if decide (c = "*"%char) then Star r
                  else if decide (c = "+"%char) then Seq r (Star r)
                  else Alt r Eps, s')
        | EmptyString =>
            Some (if decide (c = "*"%char) then Star r
                  else if decide (c = "+"%char) then Seq r (Star r)
                  else Alt r Eps, s')
        end
      else Some (r, s)
  | EmptyString => Some (r, s)
  end.

(** The readers return the expression, the rest of the pattern and the
    number of groups opened so far. *)
Fixpoint read_alt (fuel : nat) (s : string) (g : nat) : option (regex * string * nat) :=
  match fuel with
  | O => None
  | S fuel' =>
      match read_seq fuel' s g with
      | Some (r1, String "|" s1, g1) =>
          match read_alt fuel' s1 g1 with
          | Some (r2, s2, g2) => Some (Alt r1 r2, s2, g2)
          | None => None
          end
      | other => other
      end
  end
with read_seq (fuel : nat) (s : string) (g : nat) : option (regex * string * nat) :=
  match fuel with
  | O => None
  | S fuel' =>
      match s with
      | EmptyString | String "|" _ | String ")" _ => Some (Eps, s, g)
      | _ =>
          match read_atom fuel' s g with
          | Some (r0, s0, g0) =>
              match read_repeat r0 s0 with
              | Some (r1, s1) =>
                  match read_seq fuel' s1 g0 with
                  | Some (r2, s2, g2) => Some (Seq r1 r2, s2, g2)
                  | None => None
                  end
              | None => None
              end
          | None => None
          end
      end
  end
with read_atom (fuel : nat) (s : string) (g : nat) : option (regex * string * nat) :=
  match fuel with
  | O => None
  | S fuel' =>
      match s with
      | EmptyString => None
      | String "(" s1 =>
          match read_alt fuel' s1 (S g) with
          | Some (r, String ")" s2, g') => Some (Group g r, s2, g')
          | _ => None
          end
      | String "." s1 => Some (Chr CsAny, s1, g)
      | String c s1 =>
          if decide (c = backslash) then
            match s1 with
            | String c' s2 =>
                match read_escape c' with
                | Some cs => Some (Chr cs, s2, g)
                | None => None
                end
            | EmptyString => None
            end
          else if is_repeat c || is_unsupported c then None
          else Some (Chr (CsChar c), s1, g)
      end
  end.

Record compiled := Compiled {
  c_pattern : string;
  c_regex : regex;
  c_groups : nat
}.

Definition compile (pattern : string) : result compiled :=
  match read_alt (3 * String.length pattern + 3) pattern 0 with
  | Some (r, EmptyString, g) => Ok (Compiled pattern r g)
  | _ => Raise (Exn ReError ("cannot compile " +:+ repr_str pattern))
  end.

Definition search (p : compiled) (content : string) : option match_obj :=
  search_from (c_regex p) (c_groups p) 0 content.

(** *** What an expression matches

    The texts an expression matches, whatever the order in which the
    matcher tries them. *)
Inductive lang : regex → string → Prop :=
| lang_eps : lang Eps EmptyString
| lang_chr cs a : charset_mem cs a = true → lang (Chr cs) (String a EmptyString)
| lang_seq r1 r2 s1 s2 : lang r1 s1 → lang r2 s2 → lang (Seq r1 r2) (s1 +:+ s2)
| lang_alt_l r1 r2 s : lang r1 s → lang (Alt r1 r2) s
| lang_alt_r r1 r2 s : lang r2 s → lang (Alt r1 r2) s
| lang_star_nil r : lang (Star r) EmptyString
| lang_star_cons r s1 s2 : lang r s1 → lang (Star r) s2 → lang (Star r) (s1 +:+ s2)
| lang_group i r s : lang r s → lang (Group i r) s.

(** The pattern occurs in the text: some part of the text is matched. *)
Definition occurs (r : regex) (content : string) : Prop :=
  ∃ pre mid post, content = pre +:+ mid +:+ post ∧ lang r mid.

(** The expressions inside the parentheses of group number [i]. *)
Fixpoint group_bodies (i : nat) (r : regex) : list regex :=
  match r with
  | Eps | Chr _ => []
  | Seq r1 r2 | Alt r1 r2 => group_bodies i r1 ++ group_bodies i r2
  | Star r1 => group_bodies i r1
  | Group j r1 => (if decide (i = j) then [r1] else []) ++ group_bodies i r1
  end.

(** The captures hold only texts that the body of their group matches. *)
Definition caps_sound (r0 : regex) (c : captures) : Prop :=
  ∀ i t, c !! i = Some (Some t) → ∃ body, In body (group_bodies i r0) ∧ lang body t.

#[global] Instance backtrack_regex : Regex := {|
  pattern_obj := compiled;
  re_compile := compile;
  re_groups := c_groups;
  re_search := search
|}.

End Backtrack.

(** ** The output parser [parse] *)

(** A [float] is a double of IEEE 754, kept as the number below [2^64]
    that its 64 bits spell: the sign, 11 bits of exponent, 52 bits of
    fraction. *)
Definition float_exponent (bits : Z) : Z := (bits / 2 ^ 52) mod 2 ^ 11.
Definition float_fraction (bits : Z) : Z := bits mod 2 ^ 52.
Definition float_negative (bits : Z) : bool := 2 ^ 63 <=? bits.

Definition is_nan (bits : Z) : bool :=
  (float_exponent bits =? 2047) && negb (float_fraction bits =? 0).

Definition is_zero (bits : Z) : bool := bits mod 2 ^ 63 =? 0.

(** [a == b] on floats: a NaN is equal to nothing, the two zeros are
    equal, any other two floats are equal when their bits are. *)
Definition float_eqb (a b : Z) : bool :=
  negb (is_nan a) && negb (is_nan b) && ((a =? b) || is_zero a && is_zero b).

(** The integer that a float is equal to, if there is one. *)
Definition float_to_int (bits : Z) : option Z :=
  let e := float_exponent bits in
  let f := float_fraction bits in
  if e =? 2047 then None
  else
    let m := if e =? 0 then f else 2 ^ 52 + f in
    let shift := (if e =? 0 then 1 else e) - 1075 in
    let magnitude :=
      if 0 <=? shift then Some (m * 2 ^ shift)
      else if m mod 2 ^ (- shift) =? 0 then Some (m / 2 ^ (- shift))
      else None in
    option_map (λ v, if float_negative bits then - v else v) magnitude.

Definition int_float_eqb (z bits : Z) : bool :=
  match float_to_int bits with
  | Some v => z =? v
  | None => false
  end.

Inductive pyval :=
| VNone
| VBool (b : bool)
| VInt (z : Z)
| VFloat (bits : Z)
| VStr (s : string)
| VList (items : list pyval)
| VTuple (items : list pyval)
| VDict (items : list (pyval * pyval)).

Definition int_of_bool (b : bool) : Z := if b then 1 else 0.

(** [a == b] on two values that share no object: numbers and booleans
    compare by value, lists and tuples element by element, dictionaries
    as sets of items. *)
Fixpoint py_eq (a b : pyval) : bool :=
  match a, b with
  | VNone, VNone => true
  | VStr x, VStr y => bool_decide (x = y)
  | VInt x, VInt y => x =? y
  | VBool x, VBool y => bool_decide (x = y)
  | VInt x, VBool y | VBool y, VInt x => x =? int_of_bool y
  | VFloat x, VFloat y => float_eqb x y
  | VInt x, VFloat y | VFloat y, VInt x => int_float_eqb x y
  | VBool x, VFloat y | VFloat y, VBool x => int_float_eqb (int_of_bool x) y
  | VList l1, VList l2 | VTuple l1, VTuple l2 =>
      (fix all2 (l1 l2 : list pyval) : bool :=
         match l1, l2 with
         | [], [] => true
         | x :: l1', y :: l2' => py_eq x y && all2 l1' l2'
         | _, _ => false
         end) l1 l2
  | VDict d1, VDict d2 =>
      (length d1 =? length d2)%nat &&
      (fix all_in (d : list (pyval * pyval)) : bool :=
         match d with
         | [] => true
         | (k, x) :: d' =>
             existsb (λ ky, py_eq k (fst ky) && py_eq x (snd ky)) d2 && all_in d'
         end) d1
  | _, _ => false
  end.

(** A NaN somewhere in a value. *)
Fixpoint has_nan (v : pyval) : bool :=
  match v with
  | VFloat bits => is_nan bits
  | VList items | VTuple items => existsb has_nan items
  | VDict items => existsb (λ kv, has_nan (fst kv) || has_nan (snd kv)) items
  | _ => false
  end.

(** What can be a key of a dictionary. *)
Fixpoint hashable (v : pyval) : bool :=
  match v with
  | VList _ | VDict _ => false
  | VTuple items => forallb hashable items
  | _ => true
  end.

(** The [type] argument of [parse]: one of the built-in types or any
    other callable, such as [float]. *)
Inductive pytype :=
| py_int
| py_str
| py_bool
| py_callable (f : option string → result pyval).

(** [type == bool] *)
Definition is_bool (type : pytype) : bool :=
  match type with py_bool => true | _ => false end.

(** [type(value)] on what [match.group] returns. *)
Definition call_type (type : pytype) (value : option string) : result pyval :=
  match type, value with
  | py_int, Some s =>
      match int_of_str s with Ok z => Ok (VInt z) | Raise e => Raise e end
  | py_int, None =>
      Raise (Exn TypeError
        "int() argument must be a string, a bytes-like object or a real number, not 'NoneType'")
  | py_str, Some s => Ok (VStr s)
  | py_str, None => Ok (VStr "None")
  | py_bool, Some s => Ok (VBool (negb (bool_decide (s = EmptyString))))
  | py_bool, None => Ok (VBool false)
  | py_callable f, v => f v
  end.

Section Parser.
Context `{OS} `{Regex}.

(** [str(regex)] of a compiled pattern shows at most 200 characters of
    the pattern's [repr]. *)
Definition regex_str (pattern : string) : string :=
  "re.compile(" +:+ string_take 200 (repr_str pattern) +:+ ")".

Definition bool_warning : string :=
  "Casting any non-empty string to boolean will always evaluate to true. Are you sure you want to use type=bool?".

Definition no_groups_message (pattern : string) : string :=
  "Regular expression '" +:+ regex_str pattern +:+ "' has no groups.".

Definition not_found_message (pattern : string) : string :=
  "Failed to find pattern '" +:+ regex_str pattern +:+ "'.".

(** [parse(content, pattern, type=int)]; a call that falls off the end of
    the body returns [None]. *)
Definition parse (content pattern : string) (type : option pytype) : M pyval :=
  let type := default py_int type in
  (if is_bool type then logging_warning bool_warning else ret tt) ;;
  let* regex := lift_result (re_compile pattern) in
  match re_search regex content with
  | Some match_ =>
      match group match_ 1 with
      | Raise e =>
          if caught_by e [IndexError]
          then logging_critical (no_groups_message pattern) ;; ret VNone
          else raise e
      | Ok value => lift_result (call_type type value)
      end
  | None =>
      logging_debug (not_found_message pattern) ;; ret VNone
  end.

End Parser.

(** ** The state codec *)

(** The keys of a dictionary are pairwise unequal. *)
Fixpoint distinct_keys (ks : list pyval) : Prop :=
  match ks with
  | [] => True
  | k :: ks' => Forall (λ k', py_eq k k' = false) ks' ∧ distinct_keys ks'
  end.

(** The value graphs of the codec: [None], booleans, integers, floats,
    text, and lists, tuples and dictionaries of such values.  A float has
    64 bits; the keys of a dictionary are hashable and pairwise unequal.
    Values are trees: an object is not shared and is not part of itself. *)
Fixpoint value_graph (v : pyval) : Prop :=
  match v with
  | VNone | VBool _ | VInt _ | VStr _ => True
  | VFloat bits => 0 ≤ bits < 2 ^ 64
  | VList items | VTuple items => foldr (λ x P, value_graph x ∧ P) True items
  | VDict items =>
      foldr (λ kv P, (hashable (fst kv) = true ∧ value_graph (fst kv)
                      ∧ value_graph (snd kv)) ∧ P) True items
      ∧ distinct_keys (map fst items)
  end.

(** The module [pickle]: [pickle.dumps] and [pickle.loads] on byte
    strings, which [pickle.dump] and [pickle.load] apply to the content of
    a file.  What is required of them is that a successful dump of a value
    graph loads back as the same value. *)
Class Pickle := {
  pickle_dumps : pyval → result (list byte);
  pickle_loads : list byte → result pyval
}.

Class PickleLaws `{Pickle} := {
  pickle_loads_dumps v data :
    value_graph v → pickle_dumps v = Ok data → pickle_loads data = Ok v
}.

Section StateCodec.
Context `{OS} `{Pickle}.

(** [open(file_path, "wb")]: the file is created or truncated. *)
Definition open_wb (file_path : string) : M unit :=
  λ w, match os_open_write_check file_path (w_fs w) with
       | Some e => (Raise e, w)
       | None => (Ok tt, set_fs (<[file_path := []]> (w_fs w)) w)
       end.

(** [state_file.write(data)] on a file opened by [open_wb]. *)
Definition file_write (file_path : string) (data : list byte) : M unit :=
  λ w, (Ok tt, set_fs (<[file_path := default [] (w_fs w !! file_path) ++ data]> (w_fs w)) w).

(** [with open(file_path, "rb") as f: f.read()] *)
Definition read_bytes (file_path : string) : M (list byte) :=
  λ w, match w_fs w !! file_path with
       | None => (Raise (Exn FileNotFoundError
                    ("[Errno 2] No such file or directory: " +:+ repr_str file_path)), w)
       | Some content => (Ok content, w)
       end.

(** [pickle.dump(state, state_file)] *)
Definition pickle_dump (state : pyval) (file_path : string) : M unit :=
  let* data := lift_result (pickle_dumps state) in
  file_write file_path data.

Definition write_state (state : pyval) (file_path : string) : M unit :=
  open_wb file_path ;;
  pickle_dump state file_path.

Definition read_state (file_path : string) : M pyval :=
  let* data := read_bytes file_path in
  lift_result (pickle_loads data).

End StateCodec.

(** ** A model of [pickle], protocol 4

    The pickler writes the opcodes that [pickle.dumps] writes for
    [None], booleans, integers, floats, text, lists, tuples and
    dictionaries, the unpickler is the stack machine of [pickle.loads] on
    those opcodes.  Values are trees, so every node is an object of its
    own and the pickler never refers back to the memo; text is written in
    UTF-8; the payload goes into a single frame, as it does in [pickle]
    below 64 KiB. *)

Module Pickle4.

Definition PROTO := x80.
Definition FRAME := x95.
Definition STOP := x2e.
Definition NONE := x4e.
Definition NEWTRUE := x88.
Definition NEWFALSE := x89.
Definition BININT := x4a.
Definition BININT1 := x4b.
Definition BININT2 := x4d.
Definition LONG1 := x8a.
Definition LONG4 := x8b.
Definition BINFLOAT := x47.
Definition SHORT_BINUNICODE := x8c.
Definition BINUNICODE := x58.
Definition BINUNICODE8 := x8d.
Definition EMPTY_LIST := x5d.
Definition APPEND := x61.
Definition APPENDS := x65.
Definition EMPTY_DICT := x7d.
Definition SETITEM := x73.
Definition SETITEMS := x75.
Definition MARK := x28.
Definition MEMOIZE := x94.
Definition BINGET := x68.
Definition LONG_BINGET := x6a.
Definition EMPTY_TUPLE := x29.
Definition TUPLE := x74.
Definition TUPLE1 := x85.
Definition TUPLE2 := x86.
Definition TUPLE3 := x87.

Definition BATCHSIZE : nat := 1000.

(** *** Integers as bytes *)

Definition byte_of_Z (z : Z) : byte :=
  default x00 (Byte.of_N (Z.to_N (z mod 256))).

Definition Z_of_byte (b : byte) : Z := Z.of_N (Byte.to_N b).

(** [k] bytes, least significant first; a negative number comes out in
    two's complement. *)
Fixpoint le_bytes (k : nat) (n : Z) : list byte :=
  match k with
  | O => []
  | S k' => byte_of_Z n :: le_bytes k' (n / 256)
  end.

Fixpoint le_value (bs : list byte) : Z :=
  match bs with
  | [] => 0
  | b :: bs' => Z_of_byte b + 256 * le_value bs'
  end.

(** [int.from_bytes(bs, "little", signed=True)] *)
Definition signed_value (bs : list byte) : Z :=
  let u := le_value bs in
  let m := 256 ^ Z.of_nat (length bs) in
  if 2 * u <? m then u else u - m.

(** [int.bit_length] *)
Definition bit_length (z : Z) : Z :=
  if z =? 0 then 0 else Z.log2 (Z.abs z) + 1.

(** [pickle.encode_long]: the shortest two's complement form. *)
Definition encode_long (z : Z) : list byte :=
  if z =? 0 then []
  else
    let nbytes := Z.to_nat (bit_length z / 8 + 1) in
    let result := le_bytes nbytes z in
    if (z <? 0) && (1 <? nbytes)%nat then
      match rev result with
      | last :: before :: _ =>
          if (Z_of_byte last =? 255) && (128 <=? Z_of_byte before)
          then removelast result
          else result
      | _ => result
      end
    else result.

(** *** The pickler *)

Definition save_long (z : Z) : list byte :=
  if (0 <=? z) && (z <=? 255) then BININT1 :: le_bytes 1 z
  else if (0 <=? z) && (z <=? 65535) then BININT2 :: le_bytes 2 z
  else if (- 2147483648 <=? z) && (z <=? 2147483647) then BININT :: le_bytes 4 z
  else
    let encoded := encode_long z in
    let n := Z.of_nat (length encoded) in
    if n <? 256 then LONG1 :: le_bytes 1 n ++ encoded
    else LONG4 :: le_bytes 4 n ++ encoded.

(** [float]: the 8 bytes of the double, most significant first. *)
Definition save_float (bits : Z) : list byte := BINFLOAT :: rev (le_bytes 8 bits).

(** [str.encode("utf-8")] for characters below 256: one byte below 128,
    else two. *)
Definition utf8_char (c : ascii) : list byte :=
  let n := Z.of_nat (nat_of_ascii c) in
  if n <? 128 then [byte_of_Z n]
  else [byte_of_Z (192 + n / 64); byte_of_Z (128 + n mod 64)].

Fixpoint utf8_encode (s : string) : list byte :=
  match s with
  | EmptyString => []
  | String c s' => utf8_char c ++ utf8_encode s'
  end.

Definition ascii_of_Z (n : Z) : ascii := ascii_of_nat (Z.to_nat n).

(** [bytes.decode("utf-8")]; a text with a character from 256 on is
    outside the model and gives [None], as malformed bytes do. *)
Fixpoint utf8_decode (bs : list byte) : option string :=
  match bs with
  | [] => Some EmptyString
  | b :: bs' =>
      let n := Z_of_byte b in
      if n <? 128 then option_map (String (ascii_of_Z n)) (utf8_decode bs')
      else
        match bs' with
        | b2 :: bs'' =>
            let n2 := Z_of_byte b2 in
            if ((n =? 194) || (n =? 195)) && (128 <=? n2) && (n2 <? 192)
            then option_map (String (ascii_of_Z ((n - 192) * 64 + (n2 - 128))))
                            (utf8_decode bs'')
            else None
        | [] => None
        end
  end.

Definition save_str (s : string) : list byte :=
  let encoded := utf8_encode s in
  let n := Z.of_nat (length encoded) in
  (if n <=? 255 then SHORT_BINUNICODE :: le_bytes 1 n ++ encoded
   else if 4294967295 <? n then BINUNICODE8 :: le_bytes 8 n ++ encoded
   else BINUNICODE :: le_bytes 4 n ++ encoded)
  ++ [MEMOIZE].

(** [islice] batches of at most [n] elements, as in [batched]. *)
Fixpoint chunks_fuel {A} (fuel n : nat) (l : list A) : list (list A) :=
  match fuel, l with
  | S fuel', _ :: _ => take n l :: chunks_fuel fuel' n (drop n l)
  | _, _ => []
  end.

Definition chunks {A} (n : nat) (l : list A) : list (list A) :=
  chunks_fuel (length l) n l.

(** [_batch_appends] and [_batch_setitems] on the saved elements: a batch
    of one is followed by [one], a longer batch is put between [MARK] and
    [many]. *)
Definition write_batch (one many : byte) (batch : list (list byte)) : list byte :=
  match batch with
  | [] => []
  | [x] => x ++ [one]
  | _ => MARK :: concat batch ++ [many]
  end.

Definition write_batches (one many : byte) (saved : list (list byte)) : list byte :=
  concat (map (write_batch one many) (chunks BATCHSIZE saved)).

Definition tuple_code (n : nat) : byte :=
  match n with
  | 1%nat => TUPLE1
  | 2%nat => TUPLE2
  | _ => TUPLE3
  end.

Fixpoint save (v : pyval) : list byte :=
  match v with
  | VNone => [NONE]
  | VBool true => [NEWTRUE]
  | VBool false => [NEWFALSE]
  | VInt z => save_long z
  | VFloat bits => save_float bits
  | VStr s => save_str s
  | VList items =>
      EMPTY_LIST :: MEMOIZE :: write_batches APPEND APPENDS (map save items)
  | VTuple items =>
      match items with
      | [] => [EMPTY_TUPLE]
      | _ :: _ =>
          (if (length items <=? 3)%nat
           then concat (map save items) ++ [tuple_code (length items)]
           else MARK :: concat (map save items) ++ [TUPLE])
          ++ [MEMOIZE]
      end
  | VDict items =>
      EMPTY_DICT :: MEMOIZE ::
      write_batches SETITEM SETITEMS
        (map (λ kv, match kv with (k, x) => save k ++ save x end) items)
  end.

(** What the length fields can hold. *)
Fixpoint fits (v : pyval) : bool :=
  match v with
  | VNone | VBool _ | VFloat _ => true
  | VInt z => Z.of_nat (length (encode_long z)) <=? 2147483647
  | VStr s => Z.of_nat (length (utf8_encode s)) <? 2 ^ 64
  | VList items | VTuple items => forallb fits items
  | VDict items => forallb (λ kv, match kv with (k, x) => fits k && fits x end) items
  end.

Definition framed (payload : list byte) : list byte :=
  [PROTO; x04] ++
  (if (4 <=? length payload)%nat
   then FRAME :: le_bytes 8 (Z.of_nat (length payload))
   else []) ++
  payload.

Definition dumps (v : pyval) : result (list byte) :=
  let payload := save v ++ [STOP] in
  if fits v && (Z.of_nat (length payload) <? 2 ^ 64)
  then Ok (framed payload)
  else Raise (Exn OverflowError "serializing an object that is too large").

(** *** The unpickler *)

Inductive item :=
| IVal (v : pyval)
| IMark.

Record vm := VM {
  stack : list item;
  memo : list pyval
}.

Inductive outcome :=
| Next (data : list byte) (s : vm)
| Done (v : pyval)
| Failed (e : exn).

Definition bad (msg : string) : outcome := Failed (Exn UnpicklingError msg).

Definition read (n : nat) (data : list byte) : option (list byte * list byte) :=
  if (length data <? n)%nat then None else Some (take n data, drop n data).

(** The values above the topmost mark, oldest first, and the stack below
    the mark. *)
Fixpoint pop_mark (st : list item) (acc : list pyval)
    : option (list pyval * list item) :=
  match st with
  | [] => None
  | IMark :: st' => Some (acc, st')
  | IVal v :: st' => pop_mark st' (v :: acc)
  end.

(** [d[k] = x]: a present key keeps its place. *)
Fixpoint dict_set (items : list (pyval * pyval)) (k x : pyval)
    : list (pyval * pyval) :=
  match items with
  | [] => [(k, x)]
  | (k', x') :: rest =>
      if py_eq k' k then (k', x) :: rest else (k', x') :: dict_set rest k x
  end.

Fixpoint dict_update (items : list (pyval * pyval)) (kvs : list pyval)
    : option (list (pyval * pyval)) :=
  match kvs with
  | [] => Some items
  | k :: x :: kvs' =>
      if hashable k then dict_update (dict_set items k x) kvs' else None
  | [_] => None
  end.

Definition push (v : pyval) (data : list byte) (s : vm) : outcome :=
  Next data (VM (IVal v :: stack s) (memo s)).

(** An opcode with a length field of [k] bytes and that many bytes
    after it. *)
Definition with_counted (k : nat) (data : list byte)
    (f : list byte → list byte → outcome) : outcome :=
  match read k data with
  | None => bad "pickle data was truncated"
  | Some (len, data1) =>
      match read (Z.to_nat (le_value len)) data1 with
      | None => bad "pickle data was truncated"
      | Some (body, data2) => f body data2
      end
  end.

Definition with_fixed (k : nat) (data : list byte)
    (f : list byte → list byte → outcome) : outcome :=
  match read k data with
  | None => bad "pickle data was truncated"
  | Some (body, data1) => f body data1
  end.

Definition push_text (b : list byte) (data : list byte) (s : vm) : outcome :=
  match utf8_decode b with
  | Some text => push (VStr text) data s
  | None => Failed (Exn UnicodeDecodeError "'utf-8' codec can't decode bytes")
  end.

Definition step (data : list byte) (s : vm) : outcome :=
  match data with
  | [] => Failed (Exn UnpicklingError "Ran out of input")
  | op :: data =>
      match op with
      | x80 => with_fixed 1 data (λ v data,
                 if le_value v <=? 5 then Next data s
                 else bad "unsupported pickle protocol")
      | x95 => with_fixed 8 data (λ n data,
                 if (length data <? Z.to_nat (le_value n))%nat
                 then bad "pickle exhausted before end of frame"
                 else Next data s)
      | x2e => match stack s with
               | IVal v :: _ => Done v
               | _ => bad "unpickling stack underflow"
               end
      | x4e => push VNone data s
      | x88 => push (VBool true) data s
      | x89 => push (VBool false) data s
      | x4b => with_fixed 1 data (λ b data, push (VInt (le_value b)) data s)
      | x4d => with_fixed 2 data (λ b data, push (VInt (le_value b)) data s)
      | x4a => with_fixed 4 data (λ b data, push (VInt (signed_value b)) data s)
      | x8a => with_counted 1 data (λ b data, push (VInt (signed_value b)) data s)
      | x8b => with_counted 4 data (λ b data, push (VInt (signed_value b)) data s)
      | x47 => with_fixed 8 data (λ b data, push (VFloat (le_value (rev b))) data s)
      | x8c => with_counted 1 data (λ b data, push_text b data s)
      | x58 => with_counted 4 data (λ b data, push_text b data s)
      | x8d => with_counted 8 data (λ b data, push_text b data s)
      | x5d => push (VList []) data s
      | x29 => push (VTuple []) data s
      | x85 => match stack s with
               | IVal a :: st =>
                   Next data (VM (IVal (VTuple [a]) :: st) (memo s))
               | _ => bad "unpickling stack underflow"
               end
      | x86 => match stack s with
               | IVal b :: IVal a :: st =>
                   Next data (VM (IVal (VTuple [a; b]) :: st) (memo s))
               | _ => bad "unpickling stack underflow"
               end
      | x87 => match stack s with
               | IVal c :: IVal b :: IVal a :: st =>
                   Next data (VM (IVal (VTuple [a; b; c]) :: st) (memo s))
               | _ => bad "unpickling stack underflow"
               end
      | x74 => match pop_mark (stack s) [] with
               | Some (xs, st) => Next data (VM (IVal (VTuple xs) :: st) (memo s))
               | None => bad "could not find MARK"
               end
      | x7d => push (VDict []) data s
      | x94 => match stack s with
               | IVal v :: _ => Next data (VM (stack s) (memo s ++ [v]))
               | _ => bad "unpickling stack underflow"
               end
      | x68 => with_fixed 1 data (λ i data,
                 match memo s !! Z.to_nat (le_value i) with
                 | Some v => push v data s
                 | None => bad "memo value not found"
                 end)
      | x6a => with_fixed 4 data (λ i data,
                 match memo s !! Z.to_nat (le_value i) with
                 | Some v => push v data s
                 | None => bad "memo value not found"
                 end)
      | x28 => Next data (VM (IMark :: stack s) (memo s))
      | x61 => match stack s with
               | IVal x :: IVal (VList items) :: st =>
                   Next data (VM (IVal (VList (items ++ [x])) :: st) (memo s))
               | _ => bad "unpickling stack underflow"
               end
      | x65 => match pop_mark (stack s) [] with
               | Some (xs, IVal (VList items) :: st) =>
                   Next data (VM (IVal (VList (items ++ xs)) :: st) (memo s))
               | _ => bad "could not find MARK"
               end
      | x73 => match stack s with
               | IVal x :: IVal k :: IVal (VDict items) :: st =>
                   if hashable k
                   then Next data (VM (IVal (VDict (dict_set items k x)) :: st) (memo s))
                   else Failed (Exn TypeError "unhashable type")
               | _ => bad "unpickling stack underflow"
               end
      | x75 => match pop_mark (stack s) [] with
               | Some (kvs, IVal (VDict items) :: st) =>
                   match dict_update items kvs with
                   | Some items' =>
                       Next data (VM (IVal (VDict items') :: st) (memo s))
                   | None => bad "odd number of items for SETITEMS"
                   end
               | _ => bad "could not find MARK"
               end
      | _ => bad "invalid load key"
      end
  end.

(** Every step consumes an opcode, so the length of the data is fuel
    enough. *)
Fixpoint run (fuel : nat) (data : list byte) (s : vm) : result pyval :=
  match fuel with
  | O => Raise (Exn UnpicklingError "Ran out of input")
  | S fuel' =>
      match step data s with
      | Next data' s' => run fuel' data' s'
      | Done v => Ok v
      | Failed e => Raise e
      end
  end.

Definition loads (data : list byte) : result pyval :=
  run (length data) data (VM [] []).

(** One move of the machine, as a relation on what is left to read and
    the machine state. *)
Definition step_rel (c c' : list byte * vm) : Prop :=
  step (fst c) (snd c) = Next (fst c') (snd c').

#[global] Instance pickle4 : Pickle := {|
  pickle_dumps := dumps;
  pickle_loads := loads
|}.

End Pickle4.

(** ** Further functions of the module and a caller *)

(** The handlers at the odd positions of a list. *)
Fixpoint odds {A} (l : list A) : list A :=
  match l with
  | _ :: y :: l' => y :: odds l'
  | _ => []
  end.

(** [os.path.basename]: what follows the last slash. *)
Fixpoint basename (p : string) : string :=
  match p with
  | EmptyString => EmptyString
  | String c p' =>
      if has_char "/"%char p' then basename p'
      else if decide (c = "/"%char) then p'
      else p
  end.

(** [os.path.join(a, b)] *)
Definition path_join (a b : string) : string :=
  match b with
  | String "/" _ => b
  | _ =>
      match String.rev a with
      | EmptyString | String "/" _ => a +:+ b
      | _ => a +:+ "/" +:+ b
      end
  end.

(** [Run.__repr__] *)
Definition Run__repr__ (self : Run) : string :=
  let cmd := String.concat " " (map basename (command self)) in
  let cmd := if truthy (input_file self)
             then cmd +:+ " < " +:+ default EmptyString (input_file self)
             else cmd in
  "Run(" +:+ String dquote (cmd +:+ String dquote ")").

Section Evaluator.
Context `{OS} `{Regex}.

(** [run.start()] on a specification the caller has just built. *)
Definition call_start (run : Run) : M (string * string * option Z) :=
  λ w, let '(r, _, w') := start run w in (r, w').

Definition reference_search : string := "astar(lmcut())".

Definition mip_search : string :=
  "astar(operatorcounting([delete_relaxation_constraints(use_time_vars=true, use_integer_vars=true)], use_integer_operator_counts=True), bound=0)".

Definition reference_command (PLANNER domain problem : string) : list string :=
  [PLANNER; domain; problem; "--search"; reference_search;
   "--translate-options"; "--relaxed"].

Definition mip_command (PLANNER domain problem : string) : list string :=
  [PLANNER; domain; problem; "--search"; mip_search].

(** [evaluate(domain, problem)] of
    [examples/use-cases/issue983_pddl_sas/pddl_evaluator.py]; [PLANNER] is
    the module's constant, built from the environment. *)
Definition evaluate (PLANNER domain problem : string) : M bool :=
  let reference_run :=
    Run__init__ (reference_command PLANNER domain problem)
      (Some (Some 20)) (Some (Some 3000)) None None in
  let* out1 := call_start reference_run in
  let stdout := fst (fst out1) in
  let* cost := parse stdout "Plan cost: (\d+)" None in
  let mip_run :=
    Run__init__ (mip_command PLANNER domain problem)
      (Some (Some 20)) (Some (Some 3000)) None None in
  let* out2 := call_start mip_run in
  let stdout := fst (fst out2) in
  let* initial_h := parse stdout "Initial heuristic value .* (\d+)" None in
  match cost, initial_h with
  | VNone, _ | _, VNone => ret false
  | _, _ => ret (negb (py_eq cost initial_h))
  end.

End Evaluator.

(** [PLANNER = os.path.join(PLANNER_REPO, "fast-downward.py")] *)
Definition PLANNER (PLANNER_REPO : string) : string :=
  path_join PLANNER_REPO "fast-downward.py".

(** A machine with one program, a planner that prints a plan cost for the
    reference search and an initial heuristic value for any other. *)
Module PlannerHost.

Record host := Host {
  launched : list (list string);
  waited : nat
}.

Definition exec (command : list string) (stdin_pipe : bool) (env : child_env)
    (h : host) : result nat * host :=
  match command with
  | path :: _ =>
      if bool_decide (basename path = "fast-downward.py")
      then (Ok (length (launched h)), Host (launched h ++ [command]) (waited h))
      else (Raise (Exn FileNotFoundError
              ("[Errno 2] No such file or directory: " +:+ repr_str path)), h)
  | [] => (Raise (Exn IndexError "list index out of range"), h)
  end.

Definition output (command : list string) : string :=
  if bool_decide (reference_search ∈ command)
  then "Solution found." +:+ Linux.newline +:+ "Plan cost: 7" +:+ Linux.newline
  else "Initial heuristic value for operatorcounting: 5" +:+ Linux.newline.

Definition wait (pid : nat) (input : option string) (h : host)
    : result (string * string * Z) * host :=
  match launched h !! pid with
  | Some command =>
      (Ok (output command, EmptyString, 0), Host (launched h) (S (waited h)))
  | None => (Raise (Exn ValueError "no such process"), h)
  end.

Definition planner_os : OS := {|
  os_state := host;
  os_setrlimit_check := Linux.setrlimit_check;
  os_execve := exec;
  os_communicate := wait;
  os_decode := λ bytes, Ok (string_of_list_byte bytes);
  os_open_write_check := Linux.open_write_check
|}.

Definition boot : @world planner_os :=
  @World planner_os Logging.initial Linux.unlimited ∅ (Host [] 0).

End PlannerHost.

(** ** Notions used in the statements *)

Section Notions.
Context `{OS}.

(** What [list] collects from a generator suspended in the loop. *)
Definition well_batched {A} (n : Z) (s : list A) (bs : list (list A)) : Prop :=
  concat bs = s ∧
  (∀ i b, bs !! i = Some b →
     (1 ≤ length b)%nat ∧ Z.of_nat (length b) ≤ n ∧
     ((S i < length bs)%nat → Z.of_nat (length b) = n)).

(** A method that never assigns to an attribute returns the object it was
    given. *)
Definition keeps_self {A} (m : Method A) : Prop :=
  ∀ self w, snd (fst (m self w)) = self.

(** The caller's world once [start] has logged the command. *)
Definition logged_command (self : Run) (w : world) : world :=
  snd (logging_debug ("Command:" +:+ String "010" (repr_list (command self))) w).

(** The environment of the child that [Popen] hands to the kernel. *)
Definition env_of (child : world) : child_env :=
  ChildEnv (w_rlimits child) (Logging.written (w_logging child)).

End Notions.

(** A world in which [configure_logging] has run. *)
Definition configured : world :=
  set_logging (Logging.configure_logging Logging.INFO Logging.initial) Linux.boot.

(** The outcome the claim on patterns without a group speaks of: the call
    ends the program, or a critical record has been written. *)
Definition fails_critical `{OS} (outcome : result pyval * world) : Prop :=
  (∃ msg, fst outcome = Raise (Exn SystemExit msg)) ∨
  (∃ stream msg, (stream, Logging.LogRecord Logging.CRITICAL msg)
                   ∈ Logging.written (w_logging (snd outcome))).

(** The entries that may follow [acc] in a dictionary: all keys are
    hashable, and no two of them are equal. *)
Definition fresh_keys (acc es : list (pyval * pyval)) : Prop :=
  Forall (λ kv, hashable (fst kv) = true) (acc ++ es) ∧
  distinct_keys (map fst (acc ++ es)).

(** A state as the minimizer keeps it, written to [state.pickle] and read
    back. *)
Definition sample_state : pyval :=
  VDict [(VStr "cwd", VStr "/tmp/run");
         (VStr "level", VInt 3);
         (VStr "costs", VList [VInt 42; VInt (-7); VInt 4294967296]);
         (VStr "span", VTuple [VInt 0; VStr "end"]);
         (VStr "seconds", VFloat 4609434218613702656);
         (VInt 7, VTuple [VNone; VBool true])].

(** The float [nan], as [float("nan")] makes it. *)
Definition nan : Z := 9221120237041090560.

(** * Properties *)

(** ** Batching *)

Section BatchedProperties.
Import Batched.
Context {A : Type}.
Implicit Types (s it : list A) (n : Z) (g : generator A).

Lemma list_of_unfold g :
  list_of g =
  match next g with
  | (Ok b, g') =>
      match list_of g' with Ok bs => Ok (b :: bs) | Raise e => Raise e end
  | (Raise e, _) =>
      if issubclass (exn_cls e) StopIteration then Ok [] else Raise e
  end.
Proof.
  rewrite list_of_equation_1.
  destruct (inspect (next g)) as [[[b|e] g'] Heq]; simpl; by rewrite Heq.
Qed.

Lemma islice_accepts n :
  1 ≤ n → n ≤ sys_maxsize → (n <? 0) || (sys_maxsize <? n) = false.
Proof. intros. apply orb_false_intro; lia. Qed.

Lemma islice_take_drop it n :
  0 ≤ n → islice it n = (take (Z.to_nat n) it, drop (Z.to_nat n) it).
Proof.
  revert n. induction it as [|x it IH]; intros n Hn; cbn [islice].
  - by rewrite take_nil, drop_nil.
  - destruct (n <=? 0) eqn:Hle.
    + by replace n with 0 by lia.
    + rewrite IH by lia. replace (Z.to_nat n) with (S (Z.to_nat (n - 1))) by lia.
      done.
Qed.

Lemma list_of_suspended n it :
  1 ≤ n → n ≤ sys_maxsize →
  ∃ bs, list_of (GenSuspended it n) = Ok bs ∧ well_batched n it bs.
Proof.
  intros Hn Hmax. remember (length it) as k eqn:Hk.
  revert it Hk. induction (lt_wf k) as [k _ IH]. intros it ->.
  rewrite list_of_unfold. simpl. unfold loop, tuple_islice.
  rewrite islice_accepts by done. rewrite islice_take_drop by lia.
  destruct (take (Z.to_nat n) it) as [|x xs] eqn:Ht.
  - simpl. exists []. split; [done|]. split.
    + destruct it; [done|]. destruct (Z.to_nat n) eqn:Hz; [lia|done].
    + intros i b. by rewrite lookup_nil.
  - pose proof (f_equal length Ht) as Hlen.
    rewrite length_take in Hlen. simpl in Hlen.
    destruct (IH (length (drop (Z.to_nat n) it))) with (it := drop (Z.to_nat n) it)
      as (bs & Hbs & Hcat & Hall); [rewrite length_drop; lia|done|].
    rewrite Hbs. exists ((x :: xs) :: bs). split; [done|]. split.
    + change (concat ((x :: xs) :: bs)) with ((x :: xs) ++ concat bs).
      rewrite Hcat, <- Ht. apply take_drop.
    + intros [|i] b; simpl.
      * intros [= <-]. simpl. split; [lia|]. split; [lia|].
        intros Hlast. destruct bs as [|b' bs']; [simpl in Hlast; lia|].
        (* a further batch exists, so this one was filled *)
        destruct (Hall 0%nat b' eq_refl) as (Hb' & _ & _).
        assert (length (concat (b' :: bs')) = length it - Z.to_nat n)%nat as Hrest
            by (rewrite Hcat; apply length_drop).
        simpl in Hrest. rewrite length_app in Hrest. lia.
      * intros Hi. destruct (Hall i b Hi) as (? & ? & Hfull).
        split; [done|]. split; [done|]. intros ?. apply Hfull. lia.
Qed.

(** C3, as stated, fails for a batch size above [sys.maxsize]: [islice]
    refuses it, so [list(batched([1, 2, 3], 2**63))] raises [ValueError]
    and no tuple is produced. *)
Lemma batched_beyond_maxsize_raises :
  1 ≤ 2 ^ 63 ∧
  list_batched [1; 2; 3] (2 ^ 63)
  = Raise (Exn ValueError
      "Stop argument for islice() must be None or an integer: 0 <= x <= sys.maxsize.").
Proof. split; [lia|reflexivity]. Qed.

(** C3, amended: for [1 <= n <= sys.maxsize] the generator is exhausted
    after finitely many steps; the tuples it produced concatenate to the
    input sequence, each holds between 1 and [n] elements, and each one
    but the last holds exactly [n]. *)
Theorem batched_partitions s n :
  1 ≤ n → n ≤ sys_maxsize →
  ∃ bs, list_batched s n = Ok bs ∧
        concat bs = s ∧
        (∀ i b, bs !! i = Some b →
           (1 ≤ length b)%nat ∧ Z.of_nat (length b) ≤ n ∧
           ((S i < length bs)%nat → Z.of_nat (length b) = n)).
Proof.
  intros Hn Hmax. destruct (list_of_suspended n s Hn Hmax) as (bs & Hbs & Hwb).
  exists bs. split; [|exact Hwb].
  unfold list_batched, batched.
  rewrite list_of_unfold. rewrite list_of_unfold in Hbs.
  simpl in *. destruct (n <? 1) eqn:H1; [lia|]. exact Hbs.
Qed.

(** C8, as stated, fails: the call [batched([1, 2, 3], 0)] raises nothing,
    it returns a generator object whose body has not started. *)
Lemma batched_call_returns_generator :
  0 < 1 ∧ batched [1; 2; 3] 0 = Ok (GenCreated [1; 2; 3] 0).
Proof. split; [lia|reflexivity]. Qed.

(** C8, amended: for [n < 1] the call returns a generator, whatever the
    sequence; the generator raises [ValueError] as soon as it is advanced
    and is closed by that, so it never produces a tuple. *)
Theorem batched_rejects_small_n s n :
  n < 1 →
  ∃ g, batched s n = Ok g ∧
       next g = (Raise (Exn ValueError "n must be at least one"), GenClosed) ∧
       list_of g = Raise (Exn ValueError "n must be at least one") ∧
       list_batched s n = Raise (Exn ValueError "n must be at least one").
Proof.
  intros Hn. eexists. split; [reflexivity|].
  unfold list_batched, batched. rewrite list_of_unfold. simpl.
  destruct (n <? 1) eqn:H1; [done|lia].
Qed.

End BatchedProperties.

(** The example of the docstring: [batched('ABCDEFG', 3)] gives
    [ABC DEF G]. *)
Example batched_docstring :
  Batched.list_batched (list_ascii_of_string "ABCDEFG") 3
  = Ok (map list_ascii_of_string ["ABC"; "DEF"; "G"]).
Proof. reflexivity. Qed.

Lemma batched_partitions_witness :
  ∃ bs, Batched.list_batched [1; 2; 3; 4; 5; 6; 7] 3 = Ok bs ∧
        concat bs = [1; 2; 3; 4; 5; 6; 7] ∧
        (∀ i b, bs !! i = Some b →
           (1 ≤ length b)%nat ∧ Z.of_nat (length b) ≤ 3 ∧
           ((S i < length bs)%nat → Z.of_nat (length b) = 3)).
Proof.
  apply (batched_partitions (A := Z) [1; 2; 3; 4; 5; 6; 7] 3);
    [lia|unfold Batched.sys_maxsize; lia].
Defined.

Lemma batched_rejects_small_n_witness :
  ∃ g, Batched.batched [1; 2; 3] 0 = Ok g ∧
       Batched.next g
       = (Raise (Exn ValueError "n must be at least one"), Batched.GenClosed) ∧
       Batched.list_of g = Raise (Exn ValueError "n must be at least one") ∧
       Batched.list_batched [1; 2; 3] 0
       = Raise (Exn ValueError "n must be at least one").
Proof. apply (batched_rejects_small_n (A := Z) [1; 2; 3] 0). lia. Defined.


(** ** Resource limits installed by [_prepare_call] *)

Section LimitProperties.
Context `{OS}.
Implicit Types (w : world) (kind : rkind).

Lemma rlimits_set_rlimits (t : rlimits) w : w_rlimits (set_rlimits t w) = t.
Proof. done. Qed.

Lemma logging_log_rlimits level msg w :
  w_rlimits (snd (logging_log level msg w)) = w_rlimits w.
Proof.
  unfold logging_log. by destruct (Logging.log level msg (w_logging w)).
Qed.

(** [_set_limit] installs the requested pair when the kernel accepts it
    and leaves the table alone when the kernel refuses. *)
Lemma set_limit_accepted kind soft hard w :
  os_setrlimit_check kind (soft, hard) (w_rlimits w) = None →
  _set_limit kind soft hard w
  = (Ok tt, set_rlimits (<[kind := (soft, hard)]> (w_rlimits w)) w).
Proof.
  intros Hacc. unfold _set_limit, try_except, setrlimit. by rewrite Hacc.
Qed.

Lemma set_limit_refused kind soft hard w e :
  os_setrlimit_check kind (soft, hard) (w_rlimits w) = Some e →
  w_rlimits (snd (_set_limit kind soft hard w)) = w_rlimits w.
Proof.
  intros Href. unfold _set_limit, try_except, setrlimit. rewrite Href.
  destruct (caught_by e _); [|done].
  unfold logging_critical. apply logging_log_rlimits.
Qed.

Lemma set_limit_other kind kind' soft hard w :
  kind ≠ kind' →
  w_rlimits (snd (_set_limit kind soft hard w)) kind' = w_rlimits w kind'.
Proof.
  intros Hne.
  destruct (os_setrlimit_check kind (soft, hard) (w_rlimits w)) as [e|] eqn:Hc.
  - by rewrite (set_limit_refused _ _ _ _ e).
  - rewrite set_limit_accepted by done. cbn [snd].
    by rewrite rlimits_set_rlimits, fn_lookup_insert_ne.
Qed.

Lemma limit_cpu_time_other time_limit kind w :
  kind ≠ RLIMIT_CPU →
  w_rlimits (snd (limit_cpu_time time_limit w)) kind = w_rlimits w kind.
Proof.
  intros Hne. destruct time_limit as [t|]; simpl; [|done].
  by apply set_limit_other.
Qed.

Lemma limit_memory_other memory_limit kind w :
  kind ≠ RLIMIT_AS →
  w_rlimits (snd (limit_memory memory_limit w)) kind = w_rlimits w kind.
Proof.
  intros Hne. destruct memory_limit as [m|]; simpl; [|done].
  unfold bind, getrlimit. by apply set_limit_other.
Qed.

(** The hard address-space limit survives the memory step in every case:
    the step asks for the hard limit it has just read. *)
Lemma limit_memory_hard memory_limit w :
  snd (w_rlimits (snd (limit_memory memory_limit w)) RLIMIT_AS)
  = snd (w_rlimits w RLIMIT_AS).
Proof.
  destruct memory_limit as [m|]; simpl; [|done].
  unfold bind, getrlimit.
  destruct (os_setrlimit_check RLIMIT_AS
              (m * 1024 * 1024, snd (w_rlimits w RLIMIT_AS)) (w_rlimits w))
    as [e|] eqn:Hc.
  - by rewrite (set_limit_refused _ _ _ _ e).
  - rewrite set_limit_accepted by done. cbn [snd].
    by rewrite rlimits_set_rlimits, fn_lookup_insert.
Qed.

(** The table after [_prepare_call], in terms of its three steps; a step
    that raises ends the call. *)
Lemma prepare_call_rlimits time_limit memory_limit w kind :
  let w1 := snd (limit_cpu_time time_limit w) in
  let w2 := snd (limit_memory memory_limit w1) in
  let w3 := snd (_set_limit RLIMIT_CORE 0 0 w2) in
  let w' := snd (_prepare_call time_limit memory_limit w) in
  w_rlimits w' kind = w_rlimits w1 kind ∨
  w_rlimits w' kind = w_rlimits w2 kind ∨
  w_rlimits w' kind = w_rlimits w3 kind.
Proof.
  simpl. unfold _prepare_call, bind.
  destruct (limit_cpu_time time_limit w) as [[[]|e1] w1]; simpl; [|by left].
  destruct (limit_memory memory_limit w1) as [[[]|e2] w2]; simpl; [|by right; left].
  by right; right.
Qed.

Lemma prepare_call_cpu time_limit memory_limit w :
  w_rlimits (snd (_prepare_call time_limit memory_limit w)) RLIMIT_CPU
  = w_rlimits (snd (limit_cpu_time time_limit w)) RLIMIT_CPU.
Proof.
  destruct (prepare_call_rlimits time_limit memory_limit w RLIMIT_CPU)
    as [->| [->| ->]]; [done| |].
  - by rewrite limit_memory_other.
  - by rewrite set_limit_other, limit_memory_other.
Qed.

Lemma prepare_call_cpu_request (T : Z) memory_limit w :
  let w' := snd (_prepare_call (Some T) memory_limit w) in
  match os_setrlimit_check RLIMIT_CPU (T, T + 5) (w_rlimits w) with
  | None => w_rlimits w' RLIMIT_CPU = (T, T + 5)
  | Some _ => w_rlimits w' RLIMIT_CPU = w_rlimits w RLIMIT_CPU
  end.
Proof.
  cbn zeta. rewrite prepare_call_cpu. cbn [limit_cpu_time].
  destruct (os_setrlimit_check _ _ _) as [e|] eqn:Hc.
  - by rewrite (set_limit_refused _ _ _ _ e).
  - rewrite set_limit_accepted by done. cbn [snd].
    by rewrite rlimits_set_rlimits, fn_lookup_insert.
Qed.

(** C1: with a time limit [T] the step asks the kernel for the CPU limit
    (soft [T], hard [T + 5]); when the kernel accepts the request, that
    pair is the CPU limit of the child after the step, and when the kernel
    refuses it the CPU limit is the one the child had, so no other value is
    ever installed. *)
Theorem prepare_call_cpu_limit (r : Run) (T : Z) w :
  time_limit r = Some T →
  let w' := snd (_prepare_call (time_limit r) (memory_limit r) w) in
  match os_setrlimit_check RLIMIT_CPU (T, T + 5) (w_rlimits w) with
  | None => w_rlimits w' RLIMIT_CPU = (T, T + 5)
  | Some _ => w_rlimits w' RLIMIT_CPU = w_rlimits w RLIMIT_CPU
  end.
Proof.
  intros ->. apply prepare_call_cpu_request.
Qed.

(** C7: with a memory limit of [M] MiB the hard address-space limit after
    the step is the hard limit the process had before it, in every case;
    and when the step is reached (the CPU step before it returned) and the
    kernel accepts the request, the soft limit is [M * 1024 * 1024]
    bytes. *)
Theorem prepare_call_memory_limit (r : Run) (M : Z) w :
  memory_limit r = Some M →
  let w' := snd (_prepare_call (time_limit r) (memory_limit r) w) in
  let hard := snd (w_rlimits w RLIMIT_AS) in
  snd (w_rlimits w' RLIMIT_AS) = hard ∧
  (∀ w1, limit_cpu_time (time_limit r) w = (Ok tt, w1) →
         os_setrlimit_check RLIMIT_AS (M * 1024 * 1024, hard) (w_rlimits w1) = None →
         w_rlimits w' RLIMIT_AS = (M * 1024 * 1024, hard)).
Proof.
  intros HM. simpl. split.
  - destruct (prepare_call_rlimits (time_limit r) (memory_limit r) w RLIMIT_AS)
      as [->| [->| ->]].
    + by rewrite limit_cpu_time_other.
    + by rewrite limit_memory_hard, limit_cpu_time_other.
    + by rewrite set_limit_other, limit_memory_hard, limit_cpu_time_other.
  - intros w1 Hcpu Hacc.
    assert (w_rlimits w1 RLIMIT_AS = w_rlimits w RLIMIT_AS) as Has.
    { replace w1 with (snd (limit_cpu_time (time_limit r) w)) by (by rewrite Hcpu).
      by apply limit_cpu_time_other. }
    unfold _prepare_call, bind. rewrite Hcpu, HM. simpl.
    unfold bind, getrlimit. rewrite Has.
    rewrite set_limit_accepted by done. cbn [snd fst].
    rewrite set_limit_other by done.
    by rewrite rlimits_set_rlimits, fn_lookup_insert.
Qed.

(** C10: a [Run] built without [time_limit] has the limit 1800, so the
    step asks for the CPU limit (1800, 1805) and installs it when the
    kernel accepts; the time limit is [None], and the CPU limit of the
    child untouched, exactly when [time_limit=None] is passed. *)
Theorem default_time_limit cmd ml lo inf w :
  let r := Run__init__ cmd None ml lo inf in
  time_limit r = Some 1800 ∧
  (os_setrlimit_check RLIMIT_CPU (1800, 1805) (w_rlimits w) = None →
   w_rlimits (snd (_prepare_call (time_limit r) (memory_limit r) w)) RLIMIT_CPU
   = (1800, 1805)) ∧
  (∀ tl, time_limit (Run__init__ cmd tl ml lo inf) = None ↔ tl = Some None) ∧
  (let r' := Run__init__ cmd (Some None) ml lo inf in
   w_rlimits (snd (_prepare_call (time_limit r') (memory_limit r') w)) RLIMIT_CPU
   = w_rlimits w RLIMIT_CPU).
Proof.
  simpl. split; [done|]. split; [|split].
  - intros Hacc.
    pose proof (prepare_call_cpu_request 1800 (kwarg_default None ml) w) as Hcpu.
    cbn zeta in Hcpu. change (1800 + 5) with 1805 in Hcpu. by rewrite Hacc in Hcpu.
  - intros [[t|]|]; simpl; split; intros; try done.
  - by rewrite prepare_call_cpu.
Qed.

End LimitProperties.

Lemma prepare_call_cpu_limit_witness :
  let r := Run__init__ ["/bin/echo"; "hi"] (Some (Some 10)) (Some (Some 3000)) None None in
  time_limit r = Some 10 ∧
  w_rlimits (snd (_prepare_call (time_limit r) (memory_limit r) Linux.boot)) RLIMIT_CPU
  = (10, 15).
Proof.
  split; [reflexivity|].
  exact (prepare_call_cpu_limit
           (Run__init__ ["/bin/echo"; "hi"] (Some (Some 10)) (Some (Some 3000)) None None)
           10 Linux.boot eq_refl).
Defined.

Lemma prepare_call_memory_limit_witness :
  let r := Run__init__ ["/bin/echo"; "hi"] (Some (Some 10)) (Some (Some 3000)) None None in
  memory_limit r = Some 3000 ∧
  w_rlimits (snd (_prepare_call (time_limit r) (memory_limit r) Linux.boot)) RLIMIT_AS
  = (3145728000, -1).
Proof.
  split; [reflexivity|].
  exact (proj2 (prepare_call_memory_limit
                  (Run__init__ ["/bin/echo"; "hi"] (Some (Some 10)) (Some (Some 3000)) None None)
                  3000 Linux.boot eq_refl)
               _ eq_refl eq_refl).
Defined.

Lemma default_time_limit_witness :
  let r := Run__init__ ["/bin/echo"; "hi"] None None None None in
  time_limit r = Some 1800 ∧
  w_rlimits (snd (_prepare_call (time_limit r) (memory_limit r) Linux.boot)) RLIMIT_CPU
  = (1800, 1805).
Proof.
  pose proof (default_time_limit ["/bin/echo"; "hi"] None None None Linux.boot)
    as (Hdef & Hcpu & _).
  split; [exact Hdef|]. apply Hcpu. reflexivity.
Defined.

(** A process whose hard CPU limit is 600 seconds cannot raise it to 1805:
    the request is refused, the limits stay, the refusal is logged as
    critical, and the remaining steps still run when no abort handler is
    installed. *)
Example prepare_call_refused :
  let w := set_rlimits (<[RLIMIT_CPU := (600, 600)]> Linux.unlimited) Linux.boot in
  let '(r, w') := _prepare_call (Some 1800) (Some 3000) w in
  r = Ok tt ∧
  w_rlimits w' RLIMIT_CPU = (600, 600) ∧
  w_rlimits w' RLIMIT_AS = (3145728000, -1) ∧
  w_rlimits w' RLIMIT_CORE = (0, 0) ∧
  Logging.written (w_logging w')
  = [(Logging.Stderr,
      Logging.LogRecord Logging.CRITICAL
        "Resource limit for 0 could not be set to [1800, 1805] (not allowed to raise maximum limit)")].
Proof. vm_compute. done. Qed.

(** ** [Run.start] and the specification it runs *)

Section RunnerProperties.
Context `{OS}.

Lemma keeps_self_getattr {A} (field : Run → A) : keeps_self (getattr field).
Proof. by intros self w. Qed.

Lemma keeps_self_lift {A} (c : M A) : keeps_self (lift c).
Proof. intros self w. unfold lift. by destruct (c w). Qed.

Lemma keeps_self_mbind {A B} (c : Method A) (k : A → Method B) :
  keeps_self c → (∀ a, keeps_self (k a)) → keeps_self (mbind c k).
Proof.
  intros Hc Hk self w. unfold mbind.
  specialize (Hc self w).
  destruct (c self w) as [[[a|e] self'] w']; simpl in *; subst; [|done].
  apply Hk.
Qed.

Lemma keeps_self_start : keeps_self start.
Proof.
  unfold start.
  repeat first
    [ apply keeps_self_getattr
    | apply keeps_self_lift
    | apply keeps_self_mbind; [|intros ?]
    | match goal with |- keeps_self (if ?b then _ else _) => destruct b end
    | match goal with |- keeps_self (let '(_, _) := ?p in _) => destruct p end ].
Qed.

(** A result of [start] is what the kernel reports for the process that
    this call launched with the command of the specification, after
    [_prepare_call] ran in the child. *)
Lemma start_result self w out err rc self' w' :
  start self w = (Ok (out, err, rc), self', w') →
  ∃ l child p o text code,
    _prepare_call (time_limit self) (memory_limit self) (set_logging l w)
      = (Ok tt, child) ∧
    os_exec (command self) (truthy (input_file self))
      (ChildEnv (w_rlimits child) (Logging.written (w_logging child))) (w_os w)
      = (Ok p, o) ∧
    os_communicate p text o = (Ok (out, err, code), w_os w') ∧
    rc = Some code ∧
    (truthy (input_file self) = false → text = None).
Proof.
  unfold start, mbind, getattr, lift, logging_debug, logging_log, Popen,
    os_exec, communicate, read_text, ret.
  repeat (case_match; simplify_eq/=; try done).
  all: intros; simplify_eq/=.
  all: repeat match goal with u : unit |- _ => destruct u end.
  all: eexists _, _, _, _, _, _.
  all: split; [eassumption|]; split; [eassumption|]; split; [eassumption|].
  all: split; [reflexivity|]; intros; congruence.
Qed.

(** The limits are set in the child only: the caller keeps its own. *)
Lemma start_keeps_rlimits self w :
  w_rlimits (snd (start self w)) = w_rlimits w.
Proof.
  unfold start, mbind, getattr, lift, logging_debug, logging_log, Popen,
    communicate, read_text, ret.
  repeat (case_match; simplify_eq/=; try done).
Qed.

(** C9: [start] returns the specification it was given, field by field,
    whatever the outcome of the call; a second call on the same
    specification therefore behaves as a first call on a newly built
    specification with the same fields would in the same world, and its
    result is the report on the process it launched itself. *)
Theorem start_leaves_specification (self : Run) w :
  let '(r1, self1, w1) := start self w in
  let '(r2, self2, w2) := start self1 w1 in
  (command self1 = command self ∧ time_limit self1 = time_limit self ∧
   memory_limit self1 = memory_limit self ∧ input_file self1 = input_file self) ∧
  self1 = self ∧ self2 = self ∧
  (r2, self2, w2)
  = start {| command := command self; time_limit := time_limit self;
             memory_limit := memory_limit self; log_on_fail := log_on_fail self;
             log_always := log_always self; input_file := input_file self |} w1 ∧
  (∀ out err rc, r2 = Ok (out, err, rc) →
     ∃ env p o text code,
       os_exec (command self) (truthy (input_file self)) env (w_os w1) = (Ok p, o) ∧
       os_communicate p text o = (Ok (out, err, code), w_os w2) ∧
       rc = Some code).
Proof.
  pose proof (keeps_self_start self w) as H1.
  destruct (start self w) as [[r1 self1] w1] eqn:E1. simpl in H1. subst self1.
  pose proof (keeps_self_start self w1) as H2.
  destruct (start self w1) as [[r2 self2] w2] eqn:E2. simpl in H2. subst self2.
  split; [done|]. split; [done|]. split; [done|]. split.
  - rewrite <- E2. by destruct self.
  - intros out err rc ->.
    destruct (start_result _ _ _ _ _ _ _ E2)
      as (l & child & p & o & text & code & _ & ? & ? & ? & _).
    by eexists _, p, o, text, code.
Qed.

End RunnerProperties.

Lemma start_leaves_specification_witness :
  let spec := Run__init__ ["/bin/cat"] None None None (Some (Some "in.txt")) in
  let w := set_fs {[ "in.txt" := list_byte_of_string "plan" ]} Linux.boot in
  let '(r1, self1, w1) := start spec w in
  let '(r2, self2, w2) := start self1 w1 in
  self1 = spec ∧ self2 = spec ∧
  ∀ out err rc, r2 = Ok (out, err, rc) →
    ∃ env p o text code,
      os_exec (command spec) (truthy (input_file spec)) env (w_os w1) = (Ok p, o) ∧
      os_communicate p text o = (Ok (out, err, code), w_os w2) ∧
      rc = Some code.
Proof.
  intros spec w.
  pose proof (start_leaves_specification spec w) as Hspec.
  destruct (start spec w) as [[r1 self1] w1].
  destruct (start self1 w1) as [[r2 self2] w2].
  destruct Hspec as (_ & H1 & H2 & _ & Hres). by repeat split.
Defined.

(** Two calls of [start] on one specification that pipes a file to
    [/bin/cat]: both return the file's text with exit code 0. *)
Example start_twice :
  let spec := Run__init__ ["/bin/cat"] None None None (Some (Some "in.txt")) in
  let w := set_fs {[ "in.txt" := list_byte_of_string "plan" ]} Linux.boot in
  let '(r1, self1, w1) := start spec w in
  let '(r2, self2, w2) := start self1 w1 in
  r1 = Ok ("plan", EmptyString, Some 0) ∧ r2 = r1 ∧ self2 = spec.
Proof. vm_compute. done. Qed.

(** ** Logging levels and the abort handler *)

Section LoggingProperties.
Import Logging.

Lemma call_handlers_below_critical hs r out :
  levelno r < CRITICAL → ∃ out', call_handlers hs r out = (Ok tt, out').
Proof.
  intros Hlvl. revert out. induction hs as [|h hs IH]; intros out; simpl.
  - by eexists.
  - destruct (handler_filter h r); [|apply IH].
    destruct h; try apply IH.
    destruct (CRITICAL <=? levelno r) eqn:Hc; [lia|apply IH].
Qed.

(** Only a critical record can end the program. *)
Lemma log_below_critical level msg st :
  level < CRITICAL → ∃ st', log level msg st = (Ok tt, st').
Proof.
  intros Hlvl. unfold log.
  destruct (root_level st <=? level); [|by eexists].
  match goal with
  | |- context [call_handlers ?hs ?r ?o] =>
      destruct (call_handlers_below_critical hs r o) as [out' ->]; [done|]
  end.
  by eexists.
Qed.

Lemma call_handlers_critical_aborts hs msg out :
  ErrorAbortHandler ∈ hs →
  ∃ out', call_handlers hs (LogRecord CRITICAL msg) out
          = (Raise (Exn SystemExit "aborting"), out') ∧
          (Stderr, LogRecord CRITICAL msg) ∈ out'.
Proof.
  revert out. induction hs as [|h hs IH]; intros out Hin.
  - by apply not_elem_of_nil in Hin.
  - destruct h; simpl.
    + apply IH. by apply elem_of_cons in Hin as [|].
    + apply IH. by apply elem_of_cons in Hin as [|].
    + eexists. split; [done|]. apply elem_of_app. right. by apply list_elem_of_singleton.
Qed.

(** With the handlers of [configure_logging] a critical message is
    written to stderr and the program exits. *)
Lemma log_critical_aborts msg st :
  ErrorAbortHandler ∈ handlers st → root_level st ≤ CRITICAL →
  ∃ st', log CRITICAL msg st = (Raise (Exn SystemExit "aborting"), st') ∧
         (Stderr, LogRecord CRITICAL msg) ∈ written st'.
Proof.
  intros Hin Hlvl. unfold log.
  destruct (root_level st <=? CRITICAL) eqn:Hle; [|lia].
  destruct (handlers st) as [|h hs] eqn:Hhs; [by apply not_elem_of_nil in Hin|].
  destruct (call_handlers_critical_aborts (h :: hs) msg (written st) Hin)
    as (out' & -> & Hout).
  by eexists.
Qed.

Lemma configure_logging_handlers level st :
  ErrorAbortHandler ∈ handlers (configure_logging level st) ∧
  root_level (configure_logging level st) = level.
Proof.
  split; [|done]. simpl. apply elem_of_app. right.
  apply elem_of_cons. right. by apply list_elem_of_singleton.
Qed.

(** Logging keeps the handlers once there are some, and the level. *)
Lemma log_keeps_set_up level msg st :
  ErrorAbortHandler ∈ handlers st →
  ErrorAbortHandler ∈ handlers (snd (log level msg st)) ∧
  root_level (snd (log level msg st)) = root_level st.
Proof.
  intros Hin. unfold log.
  destruct (handlers st) as [|h hs] eqn:Hhs; [by apply not_elem_of_nil in Hin|].
  destruct (root_level st <=? level); [|done].
  by destruct (call_handlers _ _ _).
Qed.

End LoggingProperties.

(** ** Text *)

Lemma append_cons c a b : String c a +:+ b = String c (a +:+ b).
Proof. reflexivity. Qed.

Lemma append_nil_l a : EmptyString +:+ a = a.
Proof. reflexivity. Qed.

Lemma append_assoc a b d : (a +:+ b) +:+ d = a +:+ (b +:+ d).
Proof. induction a as [|x a IH]; [done|]. by rewrite !append_cons, IH. Qed.

Lemma append_nil_r a : a +:+ EmptyString = a.
Proof. induction a as [|x a IH]; [done|]. by rewrite append_cons, IH. Qed.

Lemma length_append a b :
  String.length (a +:+ b) = (String.length a + String.length b)%nat.
Proof. induction a as [|x a IH]; [done|]. rewrite append_cons. simpl. by rewrite IH. Qed.

Lemma string_take_append a b : string_take (String.length a) (a +:+ b) = a.
Proof. induction a as [|x a IH]; [by destruct b|]. rewrite append_cons. simpl. by rewrite IH. Qed.

Lemma string_drop_append a b : string_drop (String.length a) (a +:+ b) = b.
Proof. induction a as [|x a IH]; [done|]. rewrite append_cons. simpl. by rewrite IH. Qed.

Lemma string_take_drop n s : string_take n s +:+ string_drop n s = s.
Proof.
  revert s. induction n as [|n IH]; intros [|x s]; try done.
  simpl. by rewrite append_cons, IH.
Qed.

Lemma length_string_take n s :
  String.length (string_take n s) = Nat.min n (String.length s).
Proof. revert s. induction n as [|n IH]; intros [|x s]; simpl; try done. by rewrite IH. Qed.

(** ** The backtracking matcher *)

Section BacktrackProperties.
Import Backtrack.
Implicit Types (r : regex) (s mid : string) (c : captures).

(** Every way of matching keeps one slot per group. *)
Lemma star_iter_captures_length step n s c :
  (∀ s c, Forall (λ sc, length (snd sc) = length c) (step s c)) →
  Forall (λ sc, length (snd sc) = length c) (star_iter step n s c).
Proof.
  intros Hstep. revert s c.
  induction n as [|n IHn]; intros s c; simpl; [by repeat constructor|].
  apply Forall_app. split; [|by repeat constructor].
  apply (proj2 (Forall_flat_map _ _ _)). eapply List.Forall_impl; [|apply Hstep].
  intros [s' c'] Hc'. simpl in *.
  destruct (String.length s' <? String.length s)%nat; [|by repeat constructor].
  rewrite <- Hc'. apply IHn.
Qed.

Lemma ms_captures_length r s c :
  Forall (λ sc, length (snd sc) = length c) (ms r s c).
Proof.
  revert s c. induction r as [|cs|r1 IH1 r2 IH2|r1 IH1 r2 IH2|r1 IH1|i r1 IH1];
    intros s c; cbn [ms].
  - by constructor.
  - destruct s as [|a s']; [constructor|].
    destruct (charset_mem cs a); by repeat constructor.
  - apply (proj2 (Forall_flat_map _ _ _)). eapply List.Forall_impl; [|apply IH1].
    intros [s' c'] Hc'. simpl in *. rewrite <- Hc'. apply IH2.
  - apply Forall_app. split; [apply IH1|apply IH2].
  - by apply star_iter_captures_length.
  - apply Forall_map. eapply List.Forall_impl; [|apply IH1].
    intros [s' c'] Hc'. cbn [snd] in *. by rewrite length_insert.
Qed.

Lemma search_from_groups r ngroups start s m :
  search_from r ngroups start s = Some m → length (m_groups m) = ngroups.
Proof.
  revert start. induction s as [|a s IH]; intros start; simpl.
  - pose proof (ms_captures_length r EmptyString (replicate ngroups None)) as Hall.
    destruct (ms r EmptyString (replicate ngroups None)) as [|[s' c'] l]; [done|].
    intros [= <-]. inversion Hall as [|? ? Hc' _]; subst. simpl in *.
    by rewrite Hc', length_replicate.
  - pose proof (ms_captures_length r (String a s) (replicate ngroups None)) as Hall.
    destruct (ms r (String a s) (replicate ngroups None)) as [|[s' c'] l]; [apply IH|].
    intros [= <-]. inversion Hall as [|? ? Hc' _]; subst. simpl in *.
    by rewrite Hc', length_replicate.
Qed.

(** *** The matcher finds only what the expression matches *)

Lemma star_iter_sound step n s c s' c' (P : string → Prop) :
  (∀ s c s' c', In (s', c') (step s c) → ∃ mid, s = mid +:+ s' ∧ P mid) →
  In (s', c') (star_iter step n s c) →
  ∃ mids, s = String.concat EmptyString mids +:+ s' ∧ Forall P mids.
Proof.
  intros Hstep. revert s c. induction n as [|n IH]; intros s c; cbn [star_iter].
  - intros [[= <- <-]|[]]. by exists [].
  - rewrite in_app_iff, in_flat_map. intros [([s1 c1] & H1 & Hin)|[[= <- <-]|[]]].
    + destruct (Hstep _ _ _ _ H1) as (mid & -> & Hmid).
      destruct (String.length s1 <? String.length (mid +:+ s1))%nat.
      * destruct (IH _ _ Hin) as (mids & -> & Hmids).
        exists (mid :: mids). split; [|by constructor].
        destruct mids as [|m mids]; cbn [String.concat].
        -- by rewrite append_nil_l.
        -- by rewrite append_nil_l, !append_assoc.
      * destruct Hin as [[= <- <-]|[]]. exists [mid]. split; [done|by repeat constructor].
    + by exists [].
Qed.

Lemma lang_star_concat r mids :
  Forall (lang r) mids → lang (Star r) (String.concat EmptyString mids).
Proof.
  induction 1 as [|mid mids Hmid _ IH]; [constructor|].
  cbn [String.concat]. destruct mids as [|m mids].
  - rewrite <- (append_nil_r mid). apply lang_star_cons; [done|constructor].
  - rewrite append_nil_l. by apply lang_star_cons.
Qed.

Lemma ms_sound r s c s' c' :
  In (s', c') (ms r s c) → ∃ mid, s = mid +:+ s' ∧ lang r mid.
Proof.
  revert s c s' c'.
  induction r as [|cs|r1 IH1 r2 IH2|r1 IH1 r2 IH2|r1 IH1|i r1 IH1];
    intros s c s' c'; cbn [ms].
  - intros [[= <- <-]|[]]. exists EmptyString. split; [done|constructor].
  - destruct s as [|a s]; [done|]. destruct (charset_mem cs a) eqn:Hcs; [|done].
    intros [[= <- <-]|[]]. exists (String a EmptyString). split; [done|by constructor].
  - rewrite in_flat_map. intros ([s1 c1] & H1 & H2).
    destruct (IH1 _ _ _ _ H1) as (mid1 & -> & Hm1).
    destruct (IH2 _ _ _ _ H2) as (mid2 & -> & Hm2).
    exists (mid1 +:+ mid2). split; [by rewrite append_assoc|by constructor].
  - rewrite in_app_iff. intros [H1|H2].
    + destruct (IH1 _ _ _ _ H1) as (mid & -> & Hm). exists mid. split; [done|by apply lang_alt_l].
    + destruct (IH2 _ _ _ _ H2) as (mid & -> & Hm). exists mid. split; [done|by apply lang_alt_r].
  - intros Hin.
    destruct (star_iter_sound (ms r1) _ _ _ _ _ (lang r1) IH1 Hin) as (mids & -> & Hmids).
    eexists. split; [done|]. by apply lang_star_concat.
  - rewrite in_map_iff. intros ([s1 c1] & [= <- <-] & H1).
    destruct (IH1 _ _ _ _ H1) as (mid & -> & Hm). exists mid. split; [done|by constructor].
Qed.

(** *** The matcher finds whatever the expression matches *)

Lemma star_iter_exit step n s c : In (s, c) (star_iter step n s c).
Proof. destruct n; cbn [star_iter]; [by left|]. apply in_app_iff. right. by left. Qed.

Lemma star_iter_more step n s c s' c' :
  In (s', c') (star_iter step n s c) → In (s', c') (star_iter step (S n) s c).
Proof.
  revert s c. induction n as [|n IH]; intros s c.
  - intros [[= <- <-]|[]]. apply star_iter_exit.
  - cbn [star_iter]. rewrite !in_app_iff, !in_flat_map.
    intros [([s1 c1] & H1 & Hin)|Hlast]; [|by right].
    left. exists (s1, c1). split; [done|].
    destruct (String.length s1 <? String.length s)%nat; [|done].
    apply IH in Hin. exact Hin.
Qed.

Lemma star_iter_fuel step n m s c s' c' :
  (n ≤ m)%nat →
  In (s', c') (star_iter step n s c) → In (s', c') (star_iter step m s c).
Proof. induction 1 as [|m _ IH]; [done|]. intros Hin. by apply star_iter_more, IH. Qed.

Lemma ms_complete r mid :
  lang r mid → ∀ s' c, ∃ c', In (s', c') (ms r (mid +:+ s') c).
Proof.
  induction 1 as [|cs a Hcs|r1 r2 s1 s2 _ IH1 _ IH2|r1 r2 s _ IH|r1 r2 s _ IH
                  |r|r s1 s2 _ IH1 _ IH2|i r s _ IH]; intros s' c.
  - exists c. by left.
  - exists c. rewrite append_cons, append_nil_l. cbn [ms]. rewrite Hcs. by left.
  - destruct (IH1 (s2 +:+ s') c) as [c1 H1]. destruct (IH2 s' c1) as [c2 H2].
    exists c2. cbn [ms]. rewrite append_assoc. apply in_flat_map. by exists (s2 +:+ s', c1).
  - destruct (IH s' c) as [c' Hc']. exists c'. cbn [ms]. apply in_app_iff. by left.
  - destruct (IH s' c) as [c' Hc']. exists c'. cbn [ms]. apply in_app_iff. by right.
  - exists c. rewrite append_nil_l. cbn [ms]. apply star_iter_exit.
  - destruct s1 as [|a s1].
    { rewrite append_nil_l. apply IH2. }
    destruct (IH1 (s2 +:+ s') c) as [c1 H1]. destruct (IH2 s' c1) as [c2 H2].
    exists c2. cbn [ms] in *. rewrite append_assoc. cbn [star_iter].
    apply in_app_iff. left. apply in_flat_map. exists (s2 +:+ s', c1). split; [done|].
    assert (String.length (s2 +:+ s') < String.length (String a s1 +:+ s2 +:+ s'))%nat
      as Hlt by (rewrite append_cons; cbn [String.length]; rewrite !length_append; lia).
    rewrite (proj2 (Nat.ltb_lt _ _) Hlt).
    eapply star_iter_fuel; [|exact H2]. lia.
  - destruct (IH s' c) as [c' Hc']. eexists. cbn [ms]. apply in_map_iff.
    by exists (s', c').
Qed.

(** The matcher fails on a text exactly when no prefix of the text is
    matched by the expression. *)
Lemma ms_nil r s c :
  ms r s c = [] ↔ ∀ mid s', s = mid +:+ s' → ¬ lang r mid.
Proof.
  split.
  - intros Hnil mid s' -> Hlang. destruct (ms_complete r mid Hlang s' c) as [c' Hin].
    by rewrite Hnil in Hin.
  - intros Hnone. destruct (ms r s c) as [|[s' c'] l] eqn:Hms; [done|].
    destruct (ms_sound r s c s' c') as (mid & -> & Hlang); [rewrite Hms; by left|].
    by destruct (Hnone mid s').
Qed.

(** *** Captures *)

Lemma star_iter_caps r0 step n s c s' c' :
  (∀ s c s' c', caps_sound r0 c → In (s', c') (step s c) → caps_sound r0 c') →
  caps_sound r0 c → In (s', c') (star_iter step n s c) → caps_sound r0 c'.
Proof.
  intros Hstep. revert s c. induction n as [|n IH]; intros s c Hc; cbn [star_iter].
  - by intros [[= <- <-]|[]].
  - rewrite in_app_iff, in_flat_map. intros [([s1 c1] & H1 & Hin)|[[= <- <-]|[]]]; [|done].
    pose proof (Hstep _ _ _ _ Hc H1) as Hc1.
    destruct (_ <? _)%nat; [by eapply IH|].
    by destruct Hin as [[= <- <-]|[]].
Qed.

Lemma ms_caps r0 r s c s' c' :
  (∀ i body, In body (group_bodies i r) → In body (group_bodies i r0)) →
  caps_sound r0 c → In (s', c') (ms r s c) → caps_sound r0 c'.
Proof.
  revert s c s' c'.
  induction r as [|cs|r1 IH1 r2 IH2|r1 IH1 r2 IH2|r1 IH1|j r1 IH1];
    intros s c s' c' Hsub Hc; cbn [ms].
  - by intros [[= <- <-]|[]].
  - destruct s as [|a s]; [done|]. destruct (charset_mem cs a); [|done].
    by intros [[= <- <-]|[]].
  - rewrite in_flat_map. intros ([s1 c1] & H1 & H2).
    eapply IH2; [..|exact H2].
    + intros i body Hin. apply Hsub. cbn [group_bodies]. apply in_app_iff. by right.
    + eapply IH1; [..|exact H1]; [|done].
      intros i body Hin. apply Hsub. cbn [group_bodies]. apply in_app_iff. by left.
  - rewrite in_app_iff. intros [H1|H2].
    + eapply IH1; [..|exact H1]; [|done].
      intros i body Hin. apply Hsub. cbn [group_bodies]. apply in_app_iff. by left.
    + eapply IH2; [..|exact H2]; [|done].
      intros i body Hin. apply Hsub. cbn [group_bodies]. apply in_app_iff. by right.
  - apply star_iter_caps; [|done]. intros s0 c0 s1 c1 Hc0. by apply IH1.
  - rewrite in_map_iff. intros ([s1 c1] & [= <- <-] & H1).
    assert (caps_sound r0 c1) as Hc1.
    { eapply IH1; [..|exact H1]; [|done].
      intros i body Hin. apply Hsub. cbn [group_bodies]. apply in_app_iff. by right. }
    destruct (ms_sound _ _ _ _ _ H1) as (mid & -> & Hmid).
    rewrite length_append, Nat.add_sub, string_take_append.
    intros i t Hi. destruct (decide (i = j)) as [->|Hne].
    + destruct (decide (j < length c1)%nat) as [Hlt|Hge].
      * rewrite list_lookup_insert_eq in Hi by done. injection Hi as <-.
        exists r1. split; [|done]. apply Hsub. cbn [group_bodies].
        apply in_app_iff. left. destruct (decide (j = j)); [by left|done].
      * rewrite list_insert_ge in Hi by lia. by apply Hc1.
    + rewrite list_lookup_insert_ne in Hi by done. by apply Hc1.
Qed.

(** *** The search *)

Lemma caps_sound_initial r0 n : caps_sound r0 (replicate n None).
Proof. intros i t Hi. apply lookup_replicate in Hi as [? _]. discriminate. Qed.

Lemma search_from_some r ngroups start s m :
  search_from r ngroups start s = Some m →
  ∃ pre mid post,
    s = pre +:+ mid +:+ post ∧ lang r mid ∧
    m_start m = (start + String.length pre)%nat ∧
    m_end m = (m_start m + String.length mid)%nat ∧
    (∀ pre2 mid2 post2, s = pre2 +:+ mid2 +:+ post2 → lang r mid2 →
       (String.length pre ≤ String.length pre2)%nat) ∧
    caps_sound r (m_groups m).
Proof.
  revert start. induction s as [|a s IH]; intros start; cbn [search_from].
  - destruct (ms r EmptyString (replicate ngroups None)) as [|[s' caps] l] eqn:Hms; [done|].
    intros [= <-].
    destruct (ms_sound r EmptyString (replicate ngroups None) s' caps)
      as (mid & Hs & Hmid); [rewrite Hms; by left|].
    pose proof (f_equal String.length Hs) as Hlen. rewrite length_append in Hlen.
    exists EmptyString, mid, s'. cbn [m_start m_end m_groups String.length] in *.
    split; [by rewrite append_nil_l|]. split; [done|]. split; [lia|].
    split; [lia|].
    split; [intros; lia|].
    eapply (ms_caps r r); [done|apply caps_sound_initial|]. rewrite Hms. by left.
  - destruct (ms r (String a s) (replicate ngroups None)) as [|[s' caps] l] eqn:Hms.
    + intros Hm. destruct (IH _ Hm) as (pre & mid & post & -> & Hmid & Hst & Hen & Hleft & Hcaps).
      exists (String a pre), mid, post. split; [by rewrite append_cons|].
      split; [done|]. split; [cbn [String.length]; lia|]. split; [done|]. split; [|done].
      intros [|a2 pre2] mid2 post2 Heq Hmid2.
      * rewrite append_nil_l in Heq. by destruct (proj1 (ms_nil _ _ _) Hms mid2 post2).
      * rewrite append_cons in Heq. injection Heq as _ Heq.
        cbn [String.length]. specialize (Hleft pre2 mid2 post2 Heq Hmid2). lia.
    + intros [= <-].
      destruct (ms_sound r (String a s) (replicate ngroups None) s' caps)
        as (mid & Hs & Hmid); [rewrite Hms; by left|].
      pose proof (f_equal String.length Hs) as Hlen. rewrite length_append in Hlen.
      exists EmptyString, mid, s'. cbn [m_start m_end m_groups String.length] in *.
      split; [by rewrite append_nil_l|]. split; [done|]. split; [lia|].
      split; [lia|].
      split; [intros; lia|].
      eapply (ms_caps r r); [done|apply caps_sound_initial|]. rewrite Hms. by left.
Qed.

Lemma search_from_none r ngroups start s :
  search_from r ngroups start s = None → ¬ occurs r s.
Proof.
  revert start. induction s as [|a s IH]; intros start; cbn [search_from].
  - destruct (ms r EmptyString (replicate ngroups None)) as [|[s' caps] l] eqn:Hms; [|done].
    intros _ (pre & mid & post & Heq & Hmid).
    destruct pre; [|done]. rewrite append_nil_l in Heq.
    by destruct (proj1 (ms_nil _ _ _) Hms mid post).
  - destruct (ms r (String a s) (replicate ngroups None)) as [|[s' caps] l] eqn:Hms; [|done].
    intros Hnone (pre & mid & post & Heq & Hmid). destruct pre as [|a2 pre].
    + rewrite append_nil_l in Heq. by destruct (proj1 (ms_nil _ _ _) Hms mid post).
    + rewrite append_cons in Heq. injection Heq as _ Heq.
      apply (IH _ Hnone). by exists pre, mid, post.
Qed.

#[global] Instance backtrack_laws : RegexLaws := {|
  re_search_groups p content m :=
    search_from_groups (c_regex p) (c_groups p) 0 content m
|}.

End BacktrackProperties.

(** ** The output parser *)

Section ParserProperties.
Context `{OS} `{Regex} `{!RegexLaws}.
Implicit Types (content pattern : string) (type : option pytype) (w : world).

(** The first statement of [parse] never raises. *)
Lemma bool_warning_step type w :
  ∃ w1, (if is_bool (default py_int type) then logging_warning bool_warning else ret tt) w
        = (Ok tt, w1) ∧
        (Logging.ErrorAbortHandler ∈ Logging.handlers (w_logging w) →
         Logging.ErrorAbortHandler ∈ Logging.handlers (w_logging w1) ∧
         Logging.root_level (w_logging w1) = Logging.root_level (w_logging w)).
Proof.
  destruct (is_bool _); [|by eexists].
  unfold logging_warning, logging_log.
  destruct (log_below_critical Logging.WARNING bool_warning (w_logging w))
    as [st' Hst']; [done|].
  pose proof (log_keeps_set_up Logging.WARNING bool_warning (w_logging w)) as Hk.
  rewrite Hst' in *. eexists. split; [done|]. simpl. done.
Qed.

Lemma parse_no_match content pattern type w p :
  re_compile pattern = Ok p → re_search p content = None →
  ∃ w', parse content pattern type w = (Ok VNone, w').
Proof.
  intros Hp Hs. unfold parse, bind, lift_result.
  destruct (bool_warning_step type w) as (w1 & -> & _).
  rewrite Hp, Hs. unfold logging_debug, logging_log.
  destruct (log_below_critical Logging.DEBUG (not_found_message pattern)
              (w_logging w1)) as [st' ->]; [done|].
  by eexists.
Qed.

Lemma parse_match_group content pattern type w p m v :
  re_compile pattern = Ok p → re_search p content = Some m → group m 1 = Ok v →
  ∃ w', parse content pattern type w = (call_type (default py_int type) v, w').
Proof.
  intros Hp Hs Hg. unfold parse, bind, lift_result.
  destruct (bool_warning_step type w) as (w1 & -> & _).
  rewrite Hp, Hs, Hg. by eexists.
Qed.

(** A pattern without a capture group has no group 1. *)
Lemma group_1_no_groups p content m :
  re_groups p = 0%nat → re_search p content = Some m →
  group m 1 = Raise (Exn IndexError "no such group").
Proof.
  intros Hg Hs. apply re_search_groups in Hs. rewrite Hg in Hs.
  unfold group. destruct (m_groups m); [done|discriminate].
Qed.

Lemma parse_match_no_group content pattern type w p m :
  re_compile pattern = Ok p → re_groups p = 0%nat → re_search p content = Some m →
  Logging.ErrorAbortHandler ∈ Logging.handlers (w_logging w) →
  Logging.root_level (w_logging w) ≤ Logging.CRITICAL →
  ∃ w', parse content pattern type w = (Raise (Exn SystemExit "aborting"), w') ∧
        (Logging.Stderr, Logging.LogRecord Logging.CRITICAL (no_groups_message pattern))
          ∈ Logging.written (w_logging w').
Proof.
  intros Hp Hg Hs Hin Hlvl. unfold parse, bind, lift_result.
  destruct (bool_warning_step type w) as (w1 & -> & Hk).
  destruct (Hk Hin) as [Hin1 Hlvl1].
  rewrite Hp, Hs, (group_1_no_groups p content m Hg Hs). simpl.
  unfold logging_critical, logging_log.
  destruct (log_critical_aborts (no_groups_message pattern) (w_logging w1))
    as (st' & -> & Hst'); [done|lia|].
  by eexists.
Qed.

End ParserProperties.

(** C4, as stated, fails: the pattern [Plan cost] has no capture group and
    does not occur in the text; [parse] returns [None] and writes
    nothing. *)
Lemma parse_no_group_no_match_returns_none :
  (∃ p, re_compile "Plan cost" = Ok p ∧ re_groups p = 0%nat) ∧
  fst (parse "no match here" "Plan cost" (Some py_int) configured) = Ok VNone ∧
  Logging.written
    (w_logging (snd (parse "no match here" "Plan cost" (Some py_int) configured))) = [] ∧
  ¬ fails_critical (parse "no match here" "Plan cost" (Some py_int) configured).
Proof.
  assert (fst (parse "no match here" "Plan cost" (Some py_int) configured) = Ok VNone)
    as Hres by (vm_compute; reflexivity).
  assert (Logging.written
            (w_logging (snd (parse "no match here" "Plan cost" (Some py_int) configured)))
          = []) as Hlog by (vm_compute; reflexivity).
  split; [eexists; split; vm_compute; reflexivity|].
  split; [done|]. split; [done|].
  intros [[msg Hmsg]|(stream & msg & Hin)].
  - rewrite Hres in Hmsg. discriminate.
  - rewrite Hlog in Hin. by apply not_elem_of_nil in Hin.
Qed.

(** C4, amended: a pattern without a capture group that matches the text
    makes [parse] report a critical error, which under [configure_logging]
    with a root level that lets critical records pass is written to stderr
    and ends the program; when the pattern does not match, [parse] returns
    [None] without any error. *)
Theorem parse_no_group_critical_on_match `{OS} `{Regex} `{!RegexLaws}
    (content pattern : string) (type : option pytype) (w : world) p :
  re_compile pattern = Ok p → re_groups p = 0%nat →
  Logging.ErrorAbortHandler ∈ Logging.handlers (w_logging w) →
  Logging.root_level (w_logging w) ≤ Logging.CRITICAL →
  match re_search p content with
  | Some _ =>
      ∃ w', parse content pattern type w = (Raise (Exn SystemExit "aborting"), w') ∧
            (Logging.Stderr,
             Logging.LogRecord Logging.CRITICAL (no_groups_message pattern))
              ∈ Logging.written (w_logging w')
  | None => ∃ w', parse content pattern type w = (Ok VNone, w')
  end.
Proof.
  intros Hp Hg Hin Hlvl. destruct (re_search p content) as [m|] eqn:Hs.
  - by eapply parse_match_no_group.
  - by eapply parse_no_match.
Qed.

Lemma parse_no_group_critical_on_match_witness :
  ∃ w', parse "the Plan cost is high" "Plan cost" (Some py_int) configured
        = (Raise (Exn SystemExit "aborting"), w') ∧
        (Logging.Stderr,
         Logging.LogRecord Logging.CRITICAL (no_groups_message "Plan cost"))
          ∈ Logging.written (w_logging w').
Proof.
  destruct (re_compile "Plan cost") as [p|e] eqn:Hp; [|by vm_compute in Hp].
  assert (re_groups p = 0%nat) as Hg
      by (vm_compute in Hp; injection Hp as <-; reflexivity).
  pose proof (parse_no_group_critical_on_match
                "the Plan cost is high" "Plan cost" (Some py_int) configured p Hp Hg
                (proj1 (configure_logging_handlers Logging.INFO Logging.initial))
                ltac:(vm_compute; intros ?; discriminate)) as Hm.
  destruct (re_search p "the Plan cost is high") eqn:Hs; [exact Hm|].
  vm_compute in Hp. injection Hp as <-. by vm_compute in Hs.
Defined.

Section ParseSearch.
Context `{OS}.
Import Backtrack.

Lemma parse_search content pattern type w p :
  Backtrack.compile pattern = Ok p →
  (¬ occurs (c_regex p) content →
     ∃ w', parse content pattern type w = (Ok VNone, w')) ∧
  (occurs (c_regex p) content →
     ∃ m pre mid post,
       @re_search backtrack_regex p content = Some m ∧
       content = pre +:+ mid +:+ post ∧ lang (c_regex p) mid ∧
       m_start m = String.length pre ∧
       m_end m = (String.length pre + String.length mid)%nat ∧
       (∀ pre2 mid2 post2,
          content = pre2 +:+ mid2 +:+ post2 → lang (c_regex p) mid2 →
          (String.length pre ≤ String.length pre2)%nat) ∧
       (∀ t, group m 1 = Ok (Some t) →
             ∃ body, In body (group_bodies 0 (c_regex p)) ∧ lang body t) ∧
       (∀ v, group m 1 = Ok v →
             ∃ w', parse content pattern type w
                   = (call_type (default py_int type) v, w'))).
Proof.
  intros Hp. destruct (@re_search backtrack_regex p content) as [m|] eqn:Hs.
  - split.
    + intros Hno. exfalso. apply Hno.
      destruct (search_from_some _ _ _ _ _ Hs) as (pre & mid & post & ? & ? & _).
      by exists pre, mid, post.
    + intros _.
      destruct (search_from_some _ _ _ _ _ Hs)
        as (pre & mid & post & Heq & Hmid & Hst & Hen & Hleft & Hcaps).
      exists m, pre, mid, post. split; [done|]. split; [done|]. split; [done|].
      split; [done|]. split; [lia|]. split; [done|]. split.
      * intros t Ht. apply (Hcaps 0%nat t). unfold group in Ht. cbn [pred] in Ht.
        destruct (m_groups m !! 0%nat) as [[?|]|]; congruence.
      * intros v Hv. by eapply parse_match_group.
  - split.
    + intros _. by eapply parse_no_match.
    + intros Hocc. by destruct (search_from_none _ _ _ _ Hs).
Qed.

End ParseSearch.

Lemma lang_seq_chr cs a r s :
  Backtrack.charset_mem cs a = true → Backtrack.lang r s →
  Backtrack.lang (Backtrack.Seq (Backtrack.Chr cs) r) (String a s).
Proof.
  intros Hcs Hr. change (String a s) with (String a EmptyString +:+ s).
  by repeat constructor.
Qed.



Lemma int_of_str_error s e : int_of_str s = Raise e → exn_cls e = ValueError.
Proof. unfold int_of_str. repeat case_match; by intros [= <-]. Qed.

(** C6: when the pattern matches and [type] raises on the text of the
    first group, [parse] raises that very exception; for the built-in
    [int] it is a [ValueError] (a [TypeError] for a group that took no
    part in the match).  Without a match the same call returns [None]
    instead. *)
Theorem parse_conversion_error `{OS} `{Regex}
    (content pattern : string) (type : option pytype) (w : world) p m v e :
  re_compile pattern = Ok p → re_search p content = Some m →
  group m 1 = Ok v → call_type (default py_int type) v = Raise e →
  (∃ w', parse content pattern type w = (Raise e, w')) ∧
  (default py_int type = py_int →
   exn_cls e = ValueError ∨ (v = None ∧ exn_cls e = TypeError)) ∧
  (∀ content', re_search p content' = None →
     ∃ w', parse content' pattern type w = (Ok VNone, w')).
Proof.
  intros Hp Hs Hg Hc. split; [|split].
  - destruct (parse_match_group content pattern type w p m v Hp Hs Hg) as [w' Hw'].
    exists w'. by rewrite Hw', Hc.
  - intros Hint. rewrite Hint in Hc. destruct v as [s|]; cbn [call_type] in Hc.
    + left. destruct (int_of_str s) as [z|e'] eqn:Hi; [discriminate|].
      injection Hc as <-. by eapply int_of_str_error.
    + right. by injection Hc as <-.
  - intros content' Hs'. by eapply parse_no_match.
Qed.

Lemma parse_conversion_error_witness :
  ∃ w', parse "Plan cost: n/a" "Plan cost: (.+)" (Some py_int) configured
        = (Raise (Exn ValueError "invalid literal for int() with base 10: 'n/a'"), w').
Proof.
  destruct (re_compile "Plan cost: (.+)") as [p|e0] eqn:Hp; [|by vm_compute in Hp].
  destruct (re_search p "Plan cost: n/a") as [m|] eqn:Hs;
    [|vm_compute in Hp; injection Hp as <-; by vm_compute in Hs].
  assert (group m 1 = Ok (Some "n/a")) as Hg.
  { vm_compute in Hp. injection Hp as <-.
    vm_compute in Hs. injection Hs as <-. reflexivity. }
  exact (proj1 (parse_conversion_error
                  "Plan cost: n/a" "Plan cost: (.+)" (Some py_int) configured
                  p m (Some "n/a") _ Hp Hs Hg eq_refl)).
Defined.

(** ** The pickle model loads what it dumps *)

Section PickleBytes.
Import Pickle4.

Lemma Z_of_byte_of_Z z : Z_of_byte (byte_of_Z z) = z mod 256.
Proof.
  unfold Z_of_byte, byte_of_Z.
  pose proof (Z.mod_pos_bound z 256 ltac:(lia)) as Hb.
  destruct (Byte.of_N (Z.to_N (z mod 256))) as [b|] eqn:Hof; simpl.
  - apply Byte.to_of_N in Hof. lia.
  - apply Byte.of_N_None_iff in Hof. lia.
Qed.

Lemma Z_of_byte_range b : 0 ≤ Z_of_byte b < 256.
Proof. unfold Z_of_byte. pose proof (Byte.to_N_bounded b). lia. Qed.

Lemma length_le_bytes k n : length (le_bytes k n) = k.
Proof. revert n. induction k as [|k IH]; intros n; simpl; [done|]. by rewrite IH. Qed.

Lemma le_value_le_bytes k n : le_value (le_bytes k n) = n mod 256 ^ Z.of_nat k.
Proof.
  revert n. induction k as [|k IH]; intros n.
  - simpl. by rewrite Z.mod_1_r.
  - cbn [le_bytes le_value]. rewrite Z_of_byte_of_Z, IH.
    rewrite Nat2Z.inj_succ, Z.pow_succ_r by lia.
    rewrite Z.rem_mul_r by lia. done.
Qed.

Lemma le_value_range bs : 0 ≤ le_value bs < 256 ^ Z.of_nat (length bs).
Proof.
  induction bs as [|b bs IH]; [simpl; lia|].
  cbn [le_value length]. rewrite Nat2Z.inj_succ, Z.pow_succ_r by lia.
  pose proof (Z_of_byte_range b). lia.
Qed.

Lemma le_value_app a b :
  le_value (a ++ b) = le_value a + 256 ^ Z.of_nat (length a) * le_value b.
Proof.
  induction a as [|x a IH]; [simpl; lia|].
  cbn [app le_value length]. rewrite IH, Nat2Z.inj_succ, Z.pow_succ_r by lia. lia.
Qed.

(** A length field of [k] bytes holds every number below [256 ^ k]. *)
Lemma le_value_le_bytes_small k n :
  0 ≤ n < 256 ^ Z.of_nat k → le_value (le_bytes k n) = n.
Proof. intros Hn. rewrite le_value_le_bytes. by apply Z.mod_small. Qed.

Lemma signed_value_le_bytes k z :
  - 256 ^ Z.of_nat k ≤ 2 * z < 256 ^ Z.of_nat k →
  signed_value (le_bytes k z) = z.
Proof.
  intros Hz. unfold signed_value.
  rewrite le_value_le_bytes, length_le_bytes.
  assert (0 < 256 ^ Z.of_nat k) as Hpos by (apply Z.pow_pos_nonneg; lia).
  destruct (decide (0 ≤ z)) as [Hnn|Hneg].
  - rewrite Z.mod_small by lia.
    destruct (2 * z <? 256 ^ Z.of_nat k) eqn:Hlt; lia.
  - assert (z mod 256 ^ Z.of_nat k = z + 256 ^ Z.of_nat k) as ->.
    { symmetry. apply Z.mod_unique_pos with (q := -1); lia. }
    destruct (2 * (z + 256 ^ Z.of_nat k) <? 256 ^ Z.of_nat k) eqn:Hlt; lia.
Qed.

(** Dropping a final [0xff] after a byte with the top bit set keeps the
    signed value. *)
Lemma signed_value_trim init before last :
  Z_of_byte last = 255 → 128 ≤ Z_of_byte before →
  signed_value (init ++ [before]) = signed_value (init ++ [before; last]).
Proof.
  intros Hlast Hbefore. unfold signed_value.
  rewrite !le_value_app, !length_app. cbn [le_value length].
  rewrite Hlast.
  replace (Z.of_nat (length init + 1)) with (Z.succ (Z.of_nat (length init))) by lia.
  replace (Z.of_nat (length init + 2)) with (Z.succ (Z.succ (Z.of_nat (length init)))) by lia.
  rewrite !Z.pow_succ_r by lia.
  pose proof (le_value_range init) as Hinit.
  pose proof (Z_of_byte_range before) as Hb.
  set (m := 256 ^ Z.of_nat (length init)) in *.
  destruct (2 * (le_value init + m * (Z_of_byte before + 256 * 0)) <? 256 * m) eqn:H1;
    destruct (2 * (le_value init + m * (Z_of_byte before + 256 * (255 + 256 * 0)))
              <? 256 * (256 * m)) eqn:H2; nia.
Qed.

Lemma bit_length_bound z :
  z ≠ 0 →
  - 256 ^ Z.of_nat (Z.to_nat (bit_length z / 8 + 1)) ≤ 2 * z
    < 256 ^ Z.of_nat (Z.to_nat (bit_length z / 8 + 1)).
Proof.
  intros Hz. unfold bit_length. destruct (z =? 0) eqn:H0; [lia|].
  pose proof (Z.log2_nonneg (Z.abs z)) as Hlog.
  pose proof (Z.log2_spec (Z.abs z) ltac:(lia)) as [_ Hup].
  set (l := Z.log2 (Z.abs z)) in *.
  rewrite Z2Nat.id by (pose proof (Z.div_pos (l + 1) 8); lia).
  change 256 with (2 ^ 8). rewrite <- Z.pow_mul_r by (pose proof (Z.div_pos (l + 1) 8); lia).
  assert (Z.succ l + 1 ≤ 8 * ((l + 1) / 8 + 1)) as Hle.
  { pose proof (Z.mod_pos_bound (l + 1) 8 ltac:(lia)).
    pose proof (Z.div_mod (l + 1) 8 ltac:(lia)). lia. }
  assert (2 ^ (Z.succ l + 1) ≤ 2 ^ (8 * ((l + 1) / 8 + 1))) as Hpow
      by (apply Z.pow_le_mono_r; lia).
  rewrite Z.pow_add_r in Hpow by lia. lia.
Qed.

Lemma signed_value_encode_long z : signed_value (encode_long z) = z.
Proof.
  unfold encode_long. destruct (z =? 0) eqn:H0; [by apply Z.eqb_eq in H0 as ->|].
  apply Z.eqb_neq in H0.
  pose proof (signed_value_le_bytes _ z (bit_length_bound z H0)) as Hfull.
  set (result := le_bytes _ z) in *.
  destruct ((z <? 0) && (1 <? _)%nat); [|done].
  destruct (rev result) as [|last [|before l0]] eqn:Hrev; [done..|].
  destruct ((Z_of_byte last =? 255) && (128 <=? Z_of_byte before)) eqn:Htrim; [|done].
  apply andb_prop in Htrim as [Hlast Hbefore].
  assert (result = rev l0 ++ [before; last]) as Hres.
  { rewrite <- (rev_involutive result), Hrev. simpl. by rewrite <- !app_assoc. }
  rewrite Hres in *.
  replace (rev l0 ++ [before; last]) with ((rev l0 ++ [before]) ++ [last])
    by (by rewrite <- app_assoc).
  rewrite removelast_last.
  rewrite (signed_value_trim _ _ last); [done|lia|lia].
Qed.

End PickleBytes.

Section PickleMachine.
Import Pickle4.
Implicit Types (rest data : list byte) (st : list item) (m : list pyval) (s : vm).

Lemma read_app a rest : read (length a) (a ++ rest) = Some (a, rest).
Proof.
  unfold read. rewrite length_app.
  destruct (length a + length rest <? length a)%nat eqn:Hlt;
    [apply Nat.ltb_lt in Hlt; lia|].
  by rewrite take_app_length, drop_app_length.
Qed.

Lemma with_fixed_app k n rest f :
  with_fixed k (le_bytes k n ++ rest) f = f (le_bytes k n) rest.
Proof.
  unfold with_fixed.
  rewrite <- (length_le_bytes k n) at 1. by rewrite read_app.
Qed.

Lemma with_counted_app k body rest f :
  Z.of_nat (length body) < 256 ^ Z.of_nat k →
  with_counted k (le_bytes k (Z.of_nat (length body)) ++ body ++ rest) f = f body rest.
Proof.
  intros Hlen. unfold with_counted.
  rewrite <- (length_le_bytes k (Z.of_nat (length body))) at 1.
  rewrite read_app, le_value_le_bytes_small by lia.
  by rewrite Nat2Z.id, read_app.
Qed.

Lemma bsteps_step n data s data' s' c :
  step data s = Next data' s' →
  bsteps step_rel n (data', s') c → bsteps step_rel (S n) (data, s) c.
Proof. intros Hstep Hrest. apply (bsteps_l _ _ _ (data', s')); [exact Hstep|exact Hrest]. Qed.

(** An integer is pushed by the one opcode [save_long] writes. *)
Lemma save_long_step z rest s :
  Z.of_nat (length (encode_long z)) ≤ 2147483647 →
  step (save_long z ++ rest) s = Next rest (VM (IVal (VInt z) :: stack s) (memo s)).
Proof.
  intros Hfit. unfold save_long.
  destruct ((0 <=? z) && (z <=? 255)) eqn:H1.
  { cbn [app step BININT1]. rewrite with_fixed_app. unfold push.
    rewrite le_value_le_bytes_small; [done|]. simpl. lia. }
  destruct ((0 <=? z) && (z <=? 65535)) eqn:H2.
  { cbn [app step BININT2]. rewrite with_fixed_app. unfold push.
    rewrite le_value_le_bytes_small; [done|]. simpl. lia. }
  destruct ((-2147483648 <=? z) && (z <=? 2147483647)) eqn:H3.
  { cbn [app step BININT]. rewrite with_fixed_app. unfold push.
    rewrite signed_value_le_bytes; [done|]. simpl. lia. }
  destruct (Z.of_nat (length (encode_long z)) <? 256) eqn:H4.
  - rewrite <- !app_comm_cons, <- app_assoc. cbn [step LONG1].
    rewrite with_counted_app by (simpl; lia).
    unfold push. by rewrite signed_value_encode_long.
  - rewrite <- !app_comm_cons, <- app_assoc. cbn [step LONG4].
    rewrite with_counted_app by (simpl; lia).
    unfold push. by rewrite signed_value_encode_long.
Qed.

Lemma utf8_decode_char c rest :
  utf8_decode (utf8_char c ++ rest) = option_map (String c) (utf8_decode rest).
Proof. destruct c as [[] [] [] [] [] [] [] []]; reflexivity. Qed.

Lemma utf8_decode_encode str : utf8_decode (utf8_encode str) = Some str.
Proof.
  induction str as [|c str IH]; [done|].
  cbn [utf8_encode]. by rewrite utf8_decode_char, IH.
Qed.

(** A float is pushed as it is. *)
Lemma save_float_step bits rest s :
  0 ≤ bits < 2 ^ 64 →
  step (save_float bits ++ rest) s = push (VFloat bits) rest s.
Proof.
  intros Hbits. unfold save_float. rewrite <- app_comm_cons. cbn [step BINFLOAT].
  unfold with_fixed.
  replace 8%nat with (length (rev (le_bytes 8 bits)))
    by (by rewrite length_rev, length_le_bytes).
  rewrite read_app, rev_involutive.
  by rewrite le_value_le_bytes_small.
Qed.

(** Text is pushed and then entered in the memo. *)
Lemma save_str_steps str rest st m :
  Z.of_nat (length (utf8_encode str)) < 2 ^ 64 →
  bsteps step_rel (length (save_str str)) (save_str str ++ rest, VM st m)
    (rest, VM (IVal (VStr str) :: st) (m ++ [VStr str])).
Proof.
  intros Hfit.
  assert (∀ op k,
    Z.of_nat (length (utf8_encode str)) < 256 ^ Z.of_nat k →
    step (op :: le_bytes k (Z.of_nat (length (utf8_encode str)))
             ++ utf8_encode str ++ MEMOIZE :: rest) (VM st m)
    = with_counted k (le_bytes k (Z.of_nat (length (utf8_encode str)))
             ++ utf8_encode str ++ MEMOIZE :: rest)
        (λ b data, push_text b data (VM st m)) →
    bsteps step_rel
      (length ((op :: le_bytes k (Z.of_nat (length (utf8_encode str)))
                  ++ utf8_encode str) ++ [MEMOIZE]))
      (((op :: le_bytes k (Z.of_nat (length (utf8_encode str)))
            ++ utf8_encode str) ++ [MEMOIZE]) ++ rest, VM st m)
      (rest, VM (IVal (VStr str) :: st) (m ++ [VStr str]))) as Hop.
  { intros op k Hk Hstep.
    rewrite length_app. cbn [length]. rewrite Nat.add_1_r.
    rewrite <- !app_assoc, <- !app_comm_cons, <- !app_assoc.
    eapply bsteps_step; [|eapply bsteps_step; [|apply bsteps_refl]].
    - cbn [app]. rewrite Hstep.
      rewrite with_counted_app by done.
      unfold push_text, push. cbn [stack memo]. by rewrite utf8_decode_encode.
    - done. }
  unfold save_str.
  destruct (Z.of_nat (length (utf8_encode str)) <=? 255) eqn:H1.
  { apply Hop; [simpl; lia|done]. }
  destruct (4294967295 <? Z.of_nat (length (utf8_encode str))) eqn:H2.
  { apply Hop; [simpl; lia|done]. }
  apply Hop; [simpl; lia|done].
Qed.

Lemma pop_mark_pushed xs acc st :
  pop_mark (rev (map IVal xs) ++ IMark :: st) acc = Some (xs ++ acc, st).
Proof.
  revert acc. induction xs as [|x xs IH] using rev_ind; intros acc; [done|].
  rewrite map_app, rev_app_distr. simpl. rewrite IH. by rewrite <- app_assoc.
Qed.

End PickleMachine.

Section Chunks.
Import Pickle4.
Context {A : Type}.
Implicit Types (l : list A) (n : nat).

Lemma chunks_fuel_enough n l fuel1 fuel2 :
  (0 < n)%nat → (length l ≤ fuel1)%nat → (length l ≤ fuel2)%nat →
  chunks_fuel fuel1 n l = chunks_fuel fuel2 n l.
Proof.
  intros Hn. revert l fuel2.
  induction fuel1 as [|fuel1 IH]; intros l fuel2 H1 H2.
  - destruct l; [|simpl in H1; lia]. by destruct fuel2.
  - destruct l as [|x l]; [by destruct fuel2|].
    destruct fuel2 as [|fuel2]; [simpl in H2; lia|].
    cbn [chunks_fuel]. f_equal.
    apply IH; rewrite length_drop; simpl in *; lia.
Qed.

Lemma chunks_cons n x l :
  (0 < n)%nat →
  chunks n (x :: l) = take n (x :: l) :: chunks n (drop n (x :: l)).
Proof.
  intros Hn. unfold chunks. cbn [length chunks_fuel]. f_equal.
  apply chunks_fuel_enough; [done|rewrite length_drop; simpl; lia|done].
Qed.

End Chunks.

(** The batches written for a container, for any kind of entry: [enc]
    saves an entry, [vals] are the values this pushes, [C] builds the
    container and [ok acc es] says that the entries [es] may follow the
    entries [acc] already in it. *)
Section Batches.
Import Pickle4.
Context {E : Type}.
Variables (enc : E → list byte) (vals : E → list pyval) (C : list E → pyval).
Variables (one many : byte) (ok : list E → list E → Prop) (good : E → Prop).

Hypothesis ok_app : ∀ acc es1 es2,
  ok acc (es1 ++ es2) → ok acc es1 ∧ ok (acc ++ es1) es2.
Hypothesis one_step : ∀ acc e rest st m,
  ok acc [e] →
  step (one :: rest) (VM (rev (map IVal (vals e)) ++ IVal (C acc) :: st) m)
  = Next rest (VM (IVal (C (acc ++ [e])) :: st) m).
Hypothesis many_step : ∀ acc es rest st m,
  ok acc es →
  step (many :: rest)
       (VM (rev (map IVal (concat (map vals es))) ++ IMark :: IVal (C acc) :: st) m)
  = Next rest (VM (IVal (C (acc ++ es)) :: st) m).
Hypothesis enc_steps : ∀ e, good e → ∀ rest st m,
  ∃ m', bsteps step_rel (length (enc e)) (enc e ++ rest, VM st m)
          (rest, VM (rev (map IVal (vals e)) ++ st) m').

Lemma enc_all_steps es :
  Forall good es → ∀ rest st m,
  ∃ m', bsteps step_rel (length (concat (map enc es)))
          (concat (map enc es) ++ rest, VM st m)
          (rest, VM (rev (map IVal (concat (map vals es))) ++ st) m').
Proof.
  induction 1 as [|e es He Hes IH]; intros rest st m.
  - exists m. apply bsteps_refl.
  - cbn [map concat]. rewrite length_app, <- app_assoc.
    destruct (enc_steps e He (concat (map enc es) ++ rest) st m) as [m1 H1].
    destruct (IH rest (rev (map IVal (vals e)) ++ st) m1) as [m2 H2].
    exists m2. rewrite map_app, rev_app_distr, <- app_assoc.
    by eapply bsteps_trans.
Qed.

Lemma write_batch_steps b acc :
  Forall good b → ok acc b → ∀ rest st m,
  ∃ m', bsteps step_rel (length (write_batch one many (map enc b)))
          (write_batch one many (map enc b) ++ rest, VM (IVal (C acc) :: st) m)
          (rest, VM (IVal (C (acc ++ b)) :: st) m').
Proof.
  intros Hgood Hok rest st m.
  destruct b as [|e1 [|e2 b]].
  - exists m. rewrite app_nil_r. apply bsteps_refl.
  - cbn [map write_batch]. rewrite length_app, <- app_assoc.
    apply Forall_cons in Hgood as [He1 _].
    destruct (enc_steps e1 He1 ([one] ++ rest) (IVal (C acc) :: st) m) as [m1 H1].
    exists m1. eapply bsteps_trans; [exact H1|].
    eapply bsteps_step; [by apply one_step|apply bsteps_refl].
  - set (es := e1 :: e2 :: b) in *.
    change (write_batch one many (map enc es))
      with (MARK :: concat (map enc es) ++ [many]).
    cbn [length app]. rewrite length_app, <- app_assoc.
    destruct (enc_all_steps es Hgood ([many] ++ rest) (IMark :: IVal (C acc) :: st) m)
      as [m1 H1].
    exists m1. eapply bsteps_step; [done|].
    eapply bsteps_trans; [exact H1|].
    eapply bsteps_step; [by apply many_step|apply bsteps_refl].
Qed.

Lemma write_batches_steps es acc :
  Forall good es → ok acc es → ∀ rest st m,
  ∃ m', bsteps step_rel (length (write_batches one many (map enc es)))
          (write_batches one many (map enc es) ++ rest, VM (IVal (C acc) :: st) m)
          (rest, VM (IVal (C (acc ++ es)) :: st) m').
Proof.
  remember (length es) as k eqn:Hk. revert es acc Hk.
  induction (lt_wf k) as [k _ IH]. intros es acc -> Hgood Hok rest st m.
  destruct es as [|e es].
  - exists m. rewrite app_nil_r. apply bsteps_refl.
  - unfold write_batches. cbn [map].
    rewrite chunks_cons by (unfold BATCHSIZE; lia).
    rewrite <- map_cons, firstn_map, skipn_map.
    cbn [map concat]. fold (write_batches one many (map enc (drop BATCHSIZE (e :: es)))).
    rewrite length_app, <- app_assoc.
    pose proof (take_drop BATCHSIZE (e :: es)) as Hsplit.
    rewrite <- Hsplit in Hok, Hgood. apply ok_app in Hok as [Hok1 Hok2].
    apply Forall_app in Hgood as [Hgood1 Hgood2].
    destruct (write_batch_steps _ acc Hgood1 Hok1
                (write_batches one many (map enc (drop BATCHSIZE (e :: es))) ++ rest)
                st m) as [m1 H1].
    destruct (IH (length (drop BATCHSIZE (e :: es)))) with
      (es := drop BATCHSIZE (e :: es)) (acc := acc ++ take BATCHSIZE (e :: es))
      (rest := rest) (st := st) (m := m1) as [m2 H2];
      [rewrite length_drop; unfold BATCHSIZE; simpl; lia|done..|].
    exists m2. rewrite <- app_assoc, Hsplit in H2.
    by eapply bsteps_trans.
Qed.

End Batches.

Section PickleRoundTrip.
Import Pickle4.

Lemma pyval_nested_ind (P : pyval → Prop) :
  P VNone → (∀ b, P (VBool b)) → (∀ z, P (VInt z)) → (∀ bits, P (VFloat bits)) →
  (∀ s, P (VStr s)) →
  (∀ items, Forall P items → P (VList items)) →
  (∀ items, Forall P items → P (VTuple items)) →
  (∀ items, Forall (λ kv, P (fst kv) ∧ P (snd kv)) items → P (VDict items)) →
  ∀ v, P v.
Proof.
  intros HN HB HI HF HS HL HT HD.
  refine (fix IH v :=
    match v with
    | VNone => HN
    | VBool b => HB b
    | VInt z => HI z
    | VFloat bits => HF bits
    | VStr s => HS s
    | VList items =>
        HL items ((fix go l : Forall P l :=
                     match l return Forall P l with
                     | [] => @List.Forall_nil _ P
                     | x :: l' => @List.Forall_cons _ P x l' (IH x) (go l')
                     end) items)
    | VTuple items =>
        HT items ((fix go l : Forall P l :=
                     match l return Forall P l with
                     | [] => @List.Forall_nil _ P
                     | x :: l' => @List.Forall_cons _ P x l' (IH x) (go l')
                     end) items)
    | VDict items =>
        HD items ((fix go l : Forall (λ kv, P (fst kv) ∧ P (snd kv)) l :=
                     match l return Forall (λ kv, P (fst kv) ∧ P (snd kv)) l with
                     | [] => @List.Forall_nil _ _
                     | kv :: l' =>
                         @List.Forall_cons _ (λ kv, P (fst kv) ∧ P (snd kv)) kv l'
                           (conj (IH (fst kv)) (IH (snd kv))) (go l')
                     end) items)
    end).
Qed.

Lemma value_graph_list items :
  value_graph (VList items) ↔ Forall value_graph items.
Proof.
  cbn [value_graph]. induction items as [|x items IH]; simpl.
  - split; [constructor|done].
  - rewrite IH. split; [intros []; by constructor|by inversion 1].
Qed.

Lemma value_graph_tuple items :
  value_graph (VTuple items) ↔ Forall value_graph items.
Proof. apply value_graph_list. Qed.

Lemma value_graph_dict items :
  value_graph (VDict items) ↔
  Forall (λ kv, hashable (fst kv) = true ∧ value_graph (fst kv)
                ∧ value_graph (snd kv)) items ∧
  distinct_keys (map fst items).
Proof.
  cbn [value_graph]. apply and_iff_compat_r.
  induction items as [|x items IH]; simpl.
  - split; [constructor|done].
  - rewrite IH. split; [intros []; by constructor|by inversion 1].
Qed.

Lemma distinct_keys_app ks1 ks2 :
  distinct_keys (ks1 ++ ks2) →
  distinct_keys ks1 ∧ distinct_keys ks2 ∧
  Forall (λ k, Forall (λ k', py_eq k k' = false) ks2) ks1.
Proof.
  induction ks1 as [|k ks1 IH]; cbn [app distinct_keys].
  - intros Hd. by repeat split.
  - intros [Hk Hd]. apply Forall_app in Hk as [Hk1 Hk2].
    destruct (IH Hd) as (H1 & H2 & H12). repeat split; try done. by constructor.
Qed.

Lemma fresh_keys_app acc es1 es2 :
  fresh_keys acc (es1 ++ es2) → fresh_keys acc es1 ∧ fresh_keys (acc ++ es1) es2.
Proof.
  intros [Hkeys Hd]. rewrite app_assoc in Hkeys, Hd. split; [|done].
  split.
  - by apply Forall_app in Hkeys as [? _].
  - rewrite map_app in Hd. by apply distinct_keys_app in Hd as (? & _ & _).
Qed.

Lemma dict_set_fresh acc k x :
  fresh_keys acc [(k, x)] → dict_set acc k x = acc ++ [(k, x)].
Proof.
  intros [_ Hd]. induction acc as [|[k' x'] acc IH]; [done|].
  cbn [dict_set]. cbn [app map fst distinct_keys] in Hd. destruct Hd as [Hk' Hd].
  rewrite map_app in Hk'. apply Forall_app in Hk' as [_ Hk'].
  cbn [map fst] in Hk'. apply Forall_cons in Hk' as [Hk' _]. rewrite Hk'.
  cbn [app]. f_equal. by apply IH.
Qed.

Lemma fresh_keys_hashable acc k x : fresh_keys acc [(k, x)] → hashable k = true.
Proof.
  intros [Hkeys _]. apply Forall_app in Hkeys as [_ Hk].
  by apply Forall_cons in Hk as [? _].
Qed.

Lemma dict_update_fresh es acc :
  fresh_keys acc es →
  dict_update acc (concat (map (λ kv, [fst kv; snd kv]) es)) = Some (acc ++ es).
Proof.
  revert acc. induction es as [|[k x] es IH]; intros acc Hfresh.
  - by rewrite app_nil_r.
  - cbn [map concat app dict_update fst snd].
    change ((k, x) :: es) with ([(k, x)] ++ es) in Hfresh.
    apply fresh_keys_app in Hfresh as [Hone Hrest].
    rewrite (fresh_keys_hashable _ _ _ Hone).
    rewrite dict_set_fresh by done. rewrite IH by done. by rewrite <- app_assoc.
Qed.

Lemma save_long_length z : (1 ≤ length (save_long z))%nat.
Proof. unfold save_long. repeat case_match; simpl; lia. Qed.

(** The machine, run on what [save] wrote for a value graph, pushes that
    value and is left with the bytes that follow. *)
Lemma save_steps v :
  value_graph v → fits v = true → ∀ rest st m,
  ∃ m', bsteps step_rel (length (save v)) (save v ++ rest, VM st m)
          (rest, VM (IVal v :: st) m').
Proof.
  induction v as [|b|z|bits|str|items IH|items IH|items IH] using pyval_nested_ind;
    intros Hvg Hfits rest st m.
  - exists m. by apply bsteps_once.
  - exists m. destruct b; by apply bsteps_once.
  - exists m. eapply bsteps_weaken; [apply save_long_length|].
    eapply bsteps_step; [|apply (bsteps_refl _ 0)].
    apply (save_long_step z rest (VM st m)). cbn [fits] in Hfits. lia.
  - exists m. eapply (bsteps_weaken 1); [simpl; lia|].
    apply bsteps_once. unfold step_rel. cbn [fst snd save].
    by rewrite save_float_step.
  - eexists. apply save_str_steps. cbn [fits] in Hfits. lia.
  - apply value_graph_list in Hvg. cbn [fits] in Hfits.
    rewrite forallb_forall in Hfits.
    assert (Forall (λ x, value_graph x ∧ fits x = true ∧
              ∀ rest st m, ∃ m', bsteps step_rel (length (save x)) (save x ++ rest, VM st m)
                                   (rest, VM (IVal x :: st) m')) items) as Hgood.
    { apply Forall_forall. intros x Hx.
      rewrite Forall_forall in IH, Hvg.
      split; [by apply Hvg|]. split; [apply Hfits; by apply list_elem_of_In|].
      apply IH; [done|by apply Hvg|apply Hfits; by apply list_elem_of_In]. }
    assert (∀ acc e rest st m, True →
              step (APPEND :: rest) (VM (rev (map IVal [e]) ++ IVal (VList acc) :: st) m)
              = Next rest (VM (IVal (VList (acc ++ [e])) :: st) m)) as Hone by done.
    assert (∀ acc es rest st m, True →
              step (APPENDS :: rest)
                (VM (rev (map IVal (concat (map (λ x, [x]) es)))
                       ++ IMark :: IVal (VList acc) :: st) m)
              = Next rest (VM (IVal (VList (acc ++ es)) :: st) m)) as Hmany.
    { intros acc es rest' st' m' _. cbn [step APPENDS stack memo].
      rewrite pop_mark_pushed, app_nil_r.
      by replace (concat (map (λ x, [x]) es)) with es
        by (induction es; simpl; congruence). }
    destruct (write_batches_steps save (λ x, [x]) VList APPEND APPENDS (λ _ _, True) _
                (λ _ _ _ _, conj I I) Hone Hmany
                (λ e He, proj2 (proj2 He))
                items [] Hgood I rest st (m ++ [VList []])) as [m' Hm'].
    exists m'. cbn [save length app].
    eapply bsteps_step; [done|]. eapply bsteps_step; [done|]. exact Hm'.
  - apply value_graph_tuple in Hvg. cbn [fits] in Hfits.
    rewrite forallb_forall in Hfits.
    assert (Forall (λ x, ∀ rest st m,
              ∃ m', bsteps step_rel (length (save x)) (save x ++ rest, VM st m)
                      (rest, VM (rev (map IVal [x]) ++ st) m')) items) as Hgood.
    { apply Forall_forall. intros x Hx. rewrite Forall_forall in IH, Hvg.
      apply IH; [done|by apply Hvg|apply Hfits; by apply list_elem_of_In]. }
    assert (concat (map (λ x : pyval, [x]) items) = items) as Hflat
        by (clear; induction items; simpl; congruence).
    destruct items as [|x0 items0]; [exists m; by apply bsteps_once|].
    set (items := x0 :: items0) in *.
    assert (save (VTuple items)
            = (if (length items <=? 3)%nat
               then concat (map save items) ++ [tuple_code (length items)]
               else MARK :: concat (map save items) ++ [TUPLE]) ++ [MEMOIZE])
      as -> by reflexivity.
    destruct (length items <=? 3)%nat eqn:Hshort.
    + destruct (enc_all_steps save (λ x, [x]) _ (λ x Hx, Hx) items Hgood
                  ([tuple_code (length items)] ++ [MEMOIZE] ++ rest) st m) as [m1 H1].
      rewrite Hflat in H1.
      rewrite !length_app, <- !app_assoc, <- Nat.add_assoc. cbn [length].
      subst items. destruct items0 as [|x1 [|x2 [|x3 items0]]];
        [..|simpl in Hshort; discriminate];
        (eexists; eapply bsteps_trans; [exact H1|];
         eapply bsteps_step; [done|]; eapply bsteps_step; [done|]; apply bsteps_refl).
    + destruct (enc_all_steps save (λ x, [x]) _ (λ x Hx, Hx) items Hgood
                  ([TUPLE] ++ [MEMOIZE] ++ rest) (IMark :: st) m) as [m1 H1].
      rewrite Hflat in H1. eexists.
      cbn [length app]. rewrite !length_app, <- !app_assoc. cbn [length app].
      eapply bsteps_step; [done|].
      rewrite <- Nat.add_assoc. eapply bsteps_trans; [exact H1|].
      eapply bsteps_step;
        [cbn [app step TUPLE stack memo]; by rewrite pop_mark_pushed, app_nil_r|].
      eapply bsteps_step; [done|]. apply bsteps_refl.
  - apply value_graph_dict in Hvg as [Hvg Hnodup]. cbn [fits] in Hfits.
    rewrite forallb_forall in Hfits.
    set (enc := λ kv : pyval * pyval, match kv with (k, x) => save k ++ save x end).
    assert (Forall (λ kv, ∀ rest st m,
              ∃ m', bsteps step_rel (length (enc kv)) (enc kv ++ rest, VM st m)
                      (rest, VM (rev (map IVal [fst kv; snd kv]) ++ st) m')) items)
      as Hgood.
    { apply Forall_forall. intros [k x] Hkx.
      rewrite Forall_forall in IH, Hvg.
      destruct (IH _ Hkx) as [IHk IHx]. destruct (Hvg _ Hkx) as (_ & Hk & Hx).
      specialize (Hfits (k, x) ltac:(by apply list_elem_of_In)).
      apply andb_prop in Hfits as [Hfk Hfx]. cbn [fst snd] in *.
      intros rest' st' m0. unfold enc. rewrite length_app, <- app_assoc.
      destruct (IHk Hk Hfk (save x ++ rest') st' m0) as [m1 H1].
      destruct (IHx Hx Hfx rest' (IVal k :: st') m1) as [m2 H2].
      exists m2. by eapply bsteps_trans. }
    assert (fresh_keys [] items) as Hfresh.
    { split; [|done]. eapply Forall_impl; [exact Hvg|]. by intros kv [? _]. }
    assert (∀ acc e rest st m, fresh_keys acc [e] →
              step (SETITEM :: rest)
                (VM (rev (map IVal [fst e; snd e]) ++ IVal (VDict acc) :: st) m)
              = Next rest (VM (IVal (VDict (acc ++ [e])) :: st) m)) as Hone.
    { intros acc [k x] rest' st' m' Hok. cbn [step SETITEM stack memo].
      cbn [map rev app fst snd].
      rewrite (fresh_keys_hashable _ _ _ Hok).
      by rewrite dict_set_fresh. }
    assert (∀ acc es rest st m, fresh_keys acc es →
              step (SETITEMS :: rest)
                (VM (rev (map IVal (concat (map (λ kv, [fst kv; snd kv]) es)))
                       ++ IMark :: IVal (VDict acc) :: st) m)
              = Next rest (VM (IVal (VDict (acc ++ es)) :: st) m)) as Hmany.
    { intros acc es rest' st' m' Hok. cbn [step SETITEMS stack memo].
      rewrite pop_mark_pushed, app_nil_r. by rewrite dict_update_fresh. }
    destruct (write_batches_steps enc (λ kv, [fst kv; snd kv]) VDict SETITEM SETITEMS
                fresh_keys _ fresh_keys_app Hone Hmany (λ e He, He)
                items [] Hgood Hfresh rest st (m ++ [VDict []])) as [m' Hm'].
    exists m'. cbn [save length app]. fold enc.
    eapply bsteps_step; [done|]. eapply bsteps_step; [done|]. exact Hm'.
Qed.

End PickleRoundTrip.

Section PickleLoads.
Import Pickle4.

Lemma run_bsteps n c c' :
  bsteps step_rel n c c' →
  ∀ k, ∃ j, run (n + k) (fst c) (snd c) = run (j + k) (fst c') (snd c').
Proof.
  induction 1 as [n c|n c1 c2 c3 Hstep _ IH]; intros k.
  - by exists n.
  - destruct (IH k) as [j Hj]. exists j.
    cbn [Nat.add run]. unfold step_rel in Hstep. by rewrite Hstep.
Qed.

Lemma framed_steps payload s :
  Z.of_nat (length payload) < 2 ^ 64 →
  bsteps step_rel (length (framed payload) - length payload)
    (framed payload, s) (payload, s).
Proof.
  intros Hlen. unfold framed.
  change [PROTO; x04] with (PROTO :: le_bytes 1 4).
  destruct (4 <=? length payload)%nat.
  - eapply (bsteps_weaken 2);
      [rewrite !length_app; cbn [length]; rewrite length_le_bytes; lia|].
    rewrite <- !app_comm_cons.
    eapply bsteps_step; [|eapply bsteps_step; [|apply bsteps_refl]].
    + cbn [step PROTO]. by rewrite with_fixed_app.
    + cbn [step FRAME]. rewrite with_fixed_app.
      rewrite le_value_le_bytes_small by (change (256 ^ Z.of_nat 8) with (2 ^ 64); lia).
      rewrite Nat2Z.id. by rewrite Nat.ltb_irrefl.
  - eapply (bsteps_weaken 1);
      [rewrite !length_app; cbn [length]; rewrite length_le_bytes; lia|].
    rewrite <- !app_comm_cons, app_nil_l.
    eapply bsteps_step; [|apply bsteps_refl].
    cbn [step PROTO]. by rewrite with_fixed_app.
Qed.

(** The unpickler gives back every value graph the pickler has written. *)
Lemma loads_dumps v data :
  value_graph v → dumps v = Ok data → loads data = Ok v.
Proof.
  intros Hvg. unfold dumps.
  destruct (fits v && (Z.of_nat (length (save v ++ [STOP])) <? 2 ^ 64)) eqn:Hfit;
    [|discriminate].
  intros [= <-]. apply andb_prop in Hfit as [Hfits Hlen].
  destruct (save_steps v Hvg Hfits [STOP] [] []) as [m' Hsave].
  pose proof (framed_steps (save v ++ [STOP]) (VM [] []) ltac:(lia)) as Hframe.
  pose proof (bsteps_trans _ _ _ _ _ Hframe Hsave) as Hall.
  destruct (run_bsteps _ _ _ Hall 1%nat) as [j Hj]. cbn [fst snd] in Hj.
  unfold loads.
  replace (length (framed (save v ++ [STOP])))
    with (length (framed (save v ++ [STOP])) - length (save v ++ [STOP])
          + length (save v) + 1)%nat.
  - rewrite Hj. by rewrite Nat.add_1_r.
  - unfold framed. rewrite !length_app. cbn [length]. lia.
Qed.

#[global] Instance pickle4_laws : PickleLaws := {|
  pickle_loads_dumps := loads_dumps
|}.

End PickleLoads.

(** ** The state codec *)

Section PyEq.

Lemma float_eqb_refl bits : is_nan bits = false → float_eqb bits bits = true.
Proof. intros Hnan. unfold float_eqb. by rewrite Hnan, Z.eqb_refl. Qed.

(** A value without a NaN is equal to itself. *)
Lemma py_eq_refl v : has_nan v = false → py_eq v v = true.
Proof.
  induction v as [|b|z|bits|str|items IH|items IH|items IH] using pyval_nested_ind;
    cbn [has_nan py_eq]; intros Hnan.
  - done.
  - by apply bool_decide_eq_true.
  - apply Z.eqb_refl.
  - by apply float_eqb_refl.
  - by apply bool_decide_eq_true.
  - induction IH as [|x items Hx _ IHitems]; [done|].
    cbn [existsb] in Hnan. apply orb_false_elim in Hnan as [Hx' Hitems].
    by rewrite Hx, IHitems.
  - induction IH as [|x items Hx _ IHitems]; [done|].
    cbn [existsb] in Hnan. apply orb_false_elim in Hnan as [Hx' Hitems].
    by rewrite Hx, IHitems.
  - rewrite Nat.eqb_refl. cbn [andb].
    assert (∀ d2, (∀ kv, In kv items → In kv d2) →
              (fix all_in (d : list (pyval * pyval)) : bool :=
                 match d with
                 | [] => true
                 | (k, x) :: d' =>
                     existsb (λ ky, py_eq k (fst ky) && py_eq x (snd ky)) d2
                     && all_in d'
                 end) items = true) as Hall; [|by apply Hall].
    induction IH as [|[k x] items [Hk Hx] _ IHitems]; intros d2 Hsub; [done|].
    cbn [existsb] in Hnan. apply orb_false_elim in Hnan as [Hkx Hitems].
    apply orb_false_elim in Hkx as [Hk' Hx']. cbn [fst snd] in *.
    apply andb_true_intro. split.
    + apply existsb_exists. exists (k, x). split; [apply Hsub; by left|].
      cbn [fst snd]. by rewrite Hk, Hx.
    + apply IHitems; [done|]. intros kv Hkv. apply Hsub. by right.
Qed.

End PyEq.

Section StateCodecProperties.
Context `{OS} `{Pickle} `{!PickleLaws}.

(** What [write_state] has written, [read_state] reads back as the same
    tree of values. *)
Lemma read_state_after_write (V : pyval) (path : string) (w w' : world) :
  value_graph V →
  write_state V path w = (Ok tt, w') →
  read_state path w' = (Ok V, w').
Proof.
  intros Hvg. unfold write_state, open_wb, pickle_dump, file_write, bind, lift_result.
  destruct (os_open_write_check path (w_fs w)) as [e|]; [discriminate|].
  destruct (pickle_dumps V) as [data|e] eqn:Hdumps; [|discriminate].
  intros [= <-].
  unfold read_state, read_bytes, bind, lift_result. cbn [w_fs set_fs].
  rewrite !lookup_insert_eq. unfold default, id. cbn [from_option app].
  by rewrite (pickle_loads_dumps V data Hvg Hdumps).
Qed.

(** C2, amended: when [write_state] has written a value graph [V] that
    holds no NaN to a path, [read_state] on that path returns a value
    that is equal to [V], and leaves the files as they are. *)
Theorem read_state_write_state (V : pyval) (path : string) (w w' : world) :
  value_graph V → has_nan V = false →
  write_state V path w = (Ok tt, w') →
  ∃ V', read_state path w' = (Ok V', w') ∧ py_eq V' V = true.
Proof.
  intros Hvg Hnan Hwrite. exists V.
  split; [exact (read_state_after_write V path w w' Hvg Hwrite)|by apply py_eq_refl].
Qed.

End StateCodecProperties.

Lemma value_graph_sample_state : value_graph sample_state.
Proof.
  cbn. repeat split; try done; try lia.
  all: repeat constructor.
Qed.

(** C2, as stated, fails for a float that is no number: [nan], written
    and read back, is not equal to the [nan] that was written. *)
Lemma read_state_write_state_nan :
  value_graph (VFloat nan) ∧
  fst (write_state (VFloat nan) "state.pickle" Linux.boot) = Ok tt ∧
  ∃ V', fst (read_state "state.pickle"
               (snd (write_state (VFloat nan) "state.pickle" Linux.boot)))
        = Ok V' ∧ py_eq V' (VFloat nan) = false.
Proof.
  split; [unfold nan; cbn; lia|]. split; [vm_compute; reflexivity|].
  exists (VFloat nan). split; vm_compute; reflexivity.
Qed.

Lemma read_state_write_state_witness :
  value_graph sample_state ∧ has_nan sample_state = false ∧
  fst (write_state sample_state "state.pickle" Linux.boot) = Ok tt ∧
  ∃ V', fst (read_state "state.pickle"
               (snd (write_state sample_state "state.pickle" Linux.boot)))
        = Ok V' ∧ py_eq V' sample_state = true.
Proof.
  assert (fst (write_state sample_state "state.pickle" Linux.boot) = Ok tt) as Hw
      by (vm_compute; reflexivity).
  split; [exact value_graph_sample_state|]. split; [reflexivity|]. split; [exact Hw|].
  destruct (write_state sample_state "state.pickle" Linux.boot) as [r w'] eqn:Hws.
  simpl in Hw. subst r. cbn [snd].
  destruct (read_state_write_state sample_state "state.pickle" Linux.boot w'
              value_graph_sample_state eq_refl Hws) as (V' & Hread & Heq).
  exists V'. by rewrite Hread.
Defined.

(** * Further properties *)

(** ** The batches of [batched], one by one *)

Section BatchedBatches.
Context {A : Type}.
Implicit Types (s it : list A) (n : Z).

Lemma list_of_suspended_batches n it :
  1 ≤ n → n ≤ Batched.sys_maxsize →
  ∃ bs, Batched.list_of (Batched.GenSuspended it n) = Ok bs ∧
        (∀ i, bs !! i =
              if (i * Z.to_nat n <? length it)%nat
              then Some (take (Z.to_nat n) (drop (i * Z.to_nat n) it))
              else None) ∧
        Z.of_nat (length bs) = (Z.of_nat (length it) + n - 1) / n.
Proof.
  intros Hn Hmax. remember (length it) as len eqn:Hlen.
  revert it Hlen. induction (lt_wf len) as [len _ IH]. intros it ->.
  rewrite list_of_unfold. simpl. unfold Batched.loop, Batched.tuple_islice.
  rewrite islice_accepts by done. rewrite islice_take_drop by lia.
  set (k := Z.to_nat n). assert (1 ≤ k)%nat as Hk by lia.
  destruct (take k it) as [|x xs] eqn:Ht.
  - assert (it = []) as -> by (destruct it; [done|]; destruct k; [lia|done]).
    simpl. exists []. split; [done|]. split.
    + intros i. rewrite lookup_nil. by destruct (i * k <? 0)%nat eqn:E; [apply Nat.ltb_lt in E; lia|].
    + simpl. symmetry. apply Z.div_small. lia.
  - pose proof (f_equal length Ht) as Hlt. rewrite length_take in Hlt. simpl in Hlt.
    destruct (IH (length (drop k it))) with (it := drop k it)
      as (bs & Hbs & Hnth & Hcount); [rewrite length_drop; lia|done|].
    rewrite Hbs. exists ((x :: xs) :: bs). split; [done|]. split.
    + intros [|i].
      * simpl. destruct (0 <? length it)%nat eqn:E; [|apply Nat.ltb_ge in E; lia].
        by rewrite drop_0, Ht.
      * cbn [lookup list_lookup]. change (((x :: xs) :: bs) !! S i) with (bs !! i).
        rewrite Hnth, length_drop, drop_drop. fold k.
        replace (S i * k)%nat with (k + i * k)%nat by lia.
        destruct (i * k <? length it - k)%nat eqn:E1;
          destruct (k + i * k <? length it)%nat eqn:E2; try done;
          apply Nat.ltb_lt in E1 || apply Nat.ltb_ge in E1;
          apply Nat.ltb_lt in E2 || apply Nat.ltb_ge in E2; lia.
    + cbn [length]. rewrite Nat2Z.inj_succ, Hcount, length_drop.
      destruct (decide (k ≤ length it)%nat) as [Hge|Hlt'].
      * replace (Z.of_nat (length it - k)) with (Z.of_nat (length it) - n) by lia.
        replace (Z.of_nat (length it) + n - 1) with (Z.of_nat (length it) - n + n - 1 + 1 * n)
          by lia.
        rewrite Z.div_add by lia. lia.
      * replace (Z.of_nat (length it - k)) with 0 by lia.
        rewrite (Z.div_small (0 + n - 1) n) by lia.
        apply Z.div_unique with (r := Z.of_nat (length it) - 1); lia.
Qed.

Lemma list_batched_suspended s n :
  1 ≤ n → Batched.list_batched s n = Batched.list_of (Batched.GenSuspended s n).
Proof.
  intros Hn. unfold Batched.list_batched, Batched.batched.
  rewrite (list_of_unfold (Batched.GenCreated s n)),
    (list_of_unfold (Batched.GenSuspended s n)).
  simpl. by destruct (n <? 1) eqn:E; [lia|].
Qed.

(** X1: for [1 <= n <= sys.maxsize] the batch number [i] of
    [batched(s, n)] is the slice [s[i*n : i*n + n]], and there is such a
    batch exactly when [i*n] is below the length of [s]. *)
Theorem batched_slices s n :
  1 ≤ n → n ≤ Batched.sys_maxsize →
  ∃ bs, Batched.list_batched s n = Ok bs ∧
        ∀ i, bs !! i =
             if (i * Z.to_nat n <? length s)%nat
             then Some (take (Z.to_nat n) (drop (i * Z.to_nat n) s))
             else None.
Proof.
  intros Hn Hmax. rewrite list_batched_suspended by done.
  destruct (list_of_suspended_batches n s Hn Hmax) as (bs & Hbs & Hnth & _).
  by exists bs.
Qed.

(** X2: for [1 <= n <= sys.maxsize], [batched(s, n)] produces
    [ceil(len(s) / n)] batches; none for the empty sequence. *)
Theorem batched_count s n :
  1 ≤ n → n ≤ Batched.sys_maxsize →
  ∃ bs, Batched.list_batched s n = Ok bs ∧
        Z.of_nat (length bs) = (Z.of_nat (length s) + n - 1) / n ∧
        (s = [] → bs = []).
Proof.
  intros Hn Hmax. rewrite list_batched_suspended by done.
  destruct (list_of_suspended_batches n s Hn Hmax) as (bs & Hbs & _ & Hcount).
  exists bs. split; [done|]. split; [done|].
  intros ->. simpl in Hcount. rewrite Z.div_small in Hcount by lia.
  by destruct bs.
Qed.

End BatchedBatches.

Lemma batched_slices_witness :
  ∃ bs, Batched.list_batched [10; 20; 30; 40; 50] 2 = Ok bs ∧
        bs !! 2%nat = Some [50] ∧ bs !! 3%nat = None.
Proof.
  destruct (batched_slices (A := Z) [10; 20; 30; 40; 50] 2 ltac:(lia)
              ltac:(unfold Batched.sys_maxsize; lia)) as (bs & Hbs & Hnth).
  exists bs. split; [exact Hbs|]. split; [exact (Hnth 2%nat)|exact (Hnth 3%nat)].
Defined.

Lemma batched_count_witness :
  ∃ bs, Batched.list_batched [10; 20; 30; 40; 50] 2 = Ok bs ∧
        Z.of_nat (length bs) = 3.
Proof.
  destruct (batched_count (A := Z) [10; 20; 30; 40; 50] 2 ltac:(lia)
              ltac:(unfold Batched.sys_maxsize; lia)) as (bs & Hbs & Hc & _).
  exists bs. split; [exact Hbs|exact Hc].
Defined.

(** ** The loggers after [configure_logging] *)

Section LoggingRouting.
Import Logging.

Lemma call_handlers_exits hs r out :
  CRITICAL ≤ levelno r → ErrorAbortHandler ∈ hs →
  fst (call_handlers hs r out) = Raise (Exn SystemExit "aborting").
Proof.
  intros Hcrit. revert out. induction hs as [|h hs IH]; intros out Hin.
  - by apply not_elem_of_nil in Hin.
  - cbn [call_handlers]. destruct h.
    + cbn [handler_filter]. apply IH. by apply elem_of_cons in Hin as [|].
    + destruct (handler_filter StdoutHandler r); apply IH;
        by apply elem_of_cons in Hin as [|].
    + unfold handler_filter, WARNING, CRITICAL in *.
      destruct (30 <? levelno r) eqn:Hw; [|lia].
      by destruct (50 <=? levelno r) eqn:Hc; [|lia].
Qed.

Lemma call_handlers_returns hs r out :
  levelno r < CRITICAL ∨ ErrorAbortHandler ∉ hs →
  fst (call_handlers hs r out) = Ok tt.
Proof.
  revert out. induction hs as [|h hs IH]; intros out Hor; [done|].
  assert (levelno r < CRITICAL ∨ ErrorAbortHandler ∉ hs) as Hor'.
  { destruct Hor as [|Hnin]; [by left|]. right. intros Hin. apply Hnin.
    apply elem_of_cons. by right. }
  cbn [call_handlers]. destruct h.
  - cbn [handler_filter]. by apply IH.
  - destruct (handler_filter StdoutHandler r); by apply IH.
  - destruct Hor as [Hlow|Hnin]; [|exfalso; apply Hnin; apply elem_of_cons; by left].
    destruct (handler_filter ErrorAbortHandler r); [|by apply IH].
    unfold CRITICAL in *. destruct (50 <=? levelno r) eqn:Hc; [lia|by apply IH].
Qed.

Lemma log_handlers_abort st :
  ErrorAbortHandler ∈ match handlers st with [] => [DefaultHandler] | hs => hs end
  ↔ ErrorAbortHandler ∈ handlers st.
Proof.
  destruct (handlers st); [|done]. split; intros Hin.
  - apply list_elem_of_singleton in Hin. discriminate.
  - by apply not_elem_of_nil in Hin.
Qed.

Lemma log_returns_without_abort level msg st :
  ErrorAbortHandler ∉ handlers st → fst (log level msg st) = Ok tt.
Proof.
  intros Hnin. unfold log. destruct (root_level st <=? level); [|done].
  match goal with
  | |- context [call_handlers ?hs ?r ?out] =>
      pose proof (call_handlers_returns hs r out) as Hout;
      destruct (call_handlers hs r out) as [res out']
  end.
  apply Hout. right. intros Hin. by apply Hnin, log_handlers_abort.
Qed.

(** X3: a message ends the program exactly when it is critical, the root
    level admits it and an [ErrorAbortHandler] is installed; in every
    other case logging returns normally. *)
Theorem log_exits_only_on_critical level msg st :
  fst (log level msg st)
  = if decide (CRITICAL ≤ level ∧ root_level st ≤ level ∧
               ErrorAbortHandler ∈ handlers st)
    then Raise (Exn SystemExit "aborting") else Ok tt.
Proof.
  destruct (decide _) as [(Hcrit & Hroot & Habort)|Hnot].
  - unfold log. destruct (root_level st <=? level) eqn:Hlvl; [|lia].
    match goal with
    | |- context [call_handlers ?hs ?r ?out] =>
        pose proof (call_handlers_exits hs r out Hcrit
                      (proj2 (log_handlers_abort st) Habort)) as Hout;
        by destruct (call_handlers hs r out)
    end.
  - destruct (decide (ErrorAbortHandler ∈ handlers st)) as [Habort|Hnone];
      [|by apply log_returns_without_abort].
    unfold log. destruct (root_level st <=? level) eqn:Hlvl; [|done].
    match goal with
    | |- context [call_handlers ?hs ?r ?out] =>
        pose proof (call_handlers_returns hs r out) as Hout;
        destruct (call_handlers hs r out) as [res out']
    end.
    apply Hout. left. cbn [levelno].
    destruct (decide (level < CRITICAL)) as [|Hge]; [done|].
    exfalso. apply Hnot. split; [lia|]. split; [lia|done].
Qed.

Lemma remove_while_iterating_odds (fuel : nat) (pre rest : list handler) :
  (length rest ≤ 2 * fuel)%nat →
  remove_while_iterating fuel (length pre) (pre ++ rest) = pre ++ odds rest.
Proof.
  revert pre rest. induction fuel as [|fuel IH]; intros pre rest Hlen.
  - destruct rest; [done|simpl in Hlen; lia].
  - cbn [remove_while_iterating]. destruct rest as [|x rest].
    + cbn [odds]. rewrite !app_nil_r. by rewrite lookup_ge_None_2 by lia.
    + rewrite list_lookup_middle by done. rewrite delete_middle.
      destruct rest as [|y rest].
      * rewrite app_nil_r. cbn [odds]. rewrite app_nil_r.
        destruct fuel; [done|]. cbn [remove_while_iterating].
        by rewrite lookup_ge_None_2 by lia.
      * replace (pre ++ y :: rest) with ((pre ++ [y]) ++ rest) by (by rewrite <- app_assoc).
        replace (S (length pre)) with (length (pre ++ [y]))
          by (rewrite length_app; simpl; lia).
        rewrite IH by (simpl in Hlen; lia). cbn [odds]. by rewrite <- app_assoc.
Qed.

(** X4: the loop of [configure_logging] that removes the old handlers
    skips every second one: the handlers at the odd positions stay, in
    front of the two new handlers, so all old handlers are gone exactly
    when there was at most one. *)
Theorem configure_logging_keeps_odd_handlers level st :
  handlers (configure_logging level st)
  = odds (handlers st) ++ [StdoutHandler; ErrorAbortHandler] ∧
  (odds (handlers st) = [] ↔ (length (handlers st) ≤ 1)%nat).
Proof.
  split.
  - cbn [configure_logging handlers].
    by rewrite (remove_while_iterating_odds _ [] (handlers st)) by lia.
  - destruct (handlers st) as [|h1 [|h2 hs]]; simpl; split; intros; try done; lia.
Qed.

(** X5: after [configure_logging(level)] on a logger with at most one
    handler, a message below [level] is dropped, and any other message is
    written exactly once: to stdout up to [WARNING], to stderr above. *)
Theorem configure_logging_routes level lvl msg st0 :
  (length (handlers st0) ≤ 1)%nat →
  written (snd (log lvl msg (configure_logging level st0)))
  = written st0 ++
    (if level <=? lvl
     then [(if lvl <=? WARNING then Stdout else Stderr, LogRecord lvl msg)]
     else []).
Proof.
  intros Hlen.
  assert (handlers (configure_logging level st0) = [StdoutHandler; ErrorAbortHandler])
    as Hhs.
  { cbn [configure_logging handlers].
    rewrite (remove_while_iterating_odds _ [] (handlers st0)) by lia.
    by destruct (handlers st0) as [|h1 [|h2 hs]]; [..|simpl in Hlen; lia]. }
  unfold log. rewrite Hhs. cbn [root_level configure_logging written].
  destruct (level <=? lvl); [|by rewrite app_nil_r].
  cbn [call_handlers handler_filter levelno handler_stream].
  unfold WARNING, CRITICAL.
  destruct (lvl <=? 30) eqn:H1, (30 <? lvl) eqn:H2; try lia; [done|].
  by destruct (50 <=? lvl).
Qed.

End LoggingRouting.

Lemma configure_logging_routes_witness :
  Logging.written
    (snd (Logging.log Logging.ERROR "no plan"
            (Logging.configure_logging Logging.INFO Logging.initial)))
  = [(Logging.Stderr, Logging.LogRecord Logging.ERROR "no plan")].
Proof.
  exact (configure_logging_routes Logging.INFO Logging.ERROR "no plan" Logging.initial
           ltac:(simpl; lia)).
Defined.

(** ** What [_prepare_call] does when a limit cannot be set *)

Section LimitFailures.
Context `{OS}.
Implicit Types (w : world) (kind : rkind).

(** X6: an exception of [setrlimit] that is neither an [OSError] nor a
    [ValueError] is not handled by [_set_limit]: it ends [_prepare_call] at
    once, nothing is logged and no limit is set. *)
Theorem prepare_call_unhandled_exception (T : Z) memory_limit w e :
  os_setrlimit_check RLIMIT_CPU (T, T + 5) (w_rlimits w) = Some e →
  caught_by e [OSError; ValueError] = false →
  _prepare_call (Some T) memory_limit w = (Raise e, w).
Proof.
  intros Hcheck Hcaught.
  unfold _prepare_call, bind, limit_cpu_time, _set_limit, try_except, setrlimit.
  by rewrite Hcheck, Hcaught.
Qed.

(** X7: with the abort handler of [configure_logging] and a root level
    that lets critical records pass, a CPU limit that the kernel refuses
    ends [_prepare_call] with [SystemExit] after the critical message is
    written; the memory and core limits are never reached and every limit
    is as before. *)
Theorem prepare_call_refusal_aborts (T : Z) memory_limit w e :
  os_setrlimit_check RLIMIT_CPU (T, T + 5) (w_rlimits w) = Some e →
  caught_by e [OSError; ValueError] = true →
  Logging.ErrorAbortHandler ∈ Logging.handlers (w_logging w) →
  Logging.root_level (w_logging w) ≤ Logging.CRITICAL →
  ∃ w', _prepare_call (Some T) memory_limit w
        = (Raise (Exn SystemExit "aborting"), w') ∧
        w_rlimits w' = w_rlimits w ∧
        (Logging.Stderr,
         Logging.LogRecord Logging.CRITICAL (set_limit_message RLIMIT_CPU T (T + 5) e))
          ∈ Logging.written (w_logging w').
Proof.
  intros Hcheck Hcaught Hin Hlvl.
  unfold _prepare_call, bind, limit_cpu_time, _set_limit, try_except, setrlimit.
  rewrite Hcheck, Hcaught. unfold logging_critical, logging_log.
  destruct (log_critical_aborts (set_limit_message RLIMIT_CPU T (T + 5) e)
              (w_logging w) Hin Hlvl) as (st' & -> & Hst').
  by eexists.
Qed.

Lemma logging_log_no_abort level msg w :
  Logging.ErrorAbortHandler ∉ Logging.handlers (w_logging w) →
  ∃ w', logging_log level msg w = (Ok tt, w') ∧
        (Logging.ErrorAbortHandler ∉ Logging.handlers (w_logging w')) ∧
        w_rlimits w' = w_rlimits w.
Proof.
  intros Hnin. unfold logging_log.
  pose proof (log_returns_without_abort level msg (w_logging w) Hnin) as Hr.
  assert (Logging.ErrorAbortHandler
            ∉ Logging.handlers (snd (Logging.log level msg (w_logging w)))) as Hkeep.
  { unfold Logging.log.
    destruct (Logging.handlers (w_logging w)) as [|h hs] eqn:Hhs.
    - destruct (_ <=? _); [destruct (Logging.call_handlers _ _ _)|]; simpl;
        intros Hin%list_elem_of_singleton; discriminate.
    - by destruct (_ <=? _); [destruct (Logging.call_handlers _ _ _)|]. }
  destruct (Logging.log level msg (w_logging w)) as [r st']. simpl in *. subst r.
  by eexists.
Qed.

Lemma set_limit_no_abort kind soft hard w :
  Logging.ErrorAbortHandler ∉ Logging.handlers (w_logging w) →
  (Logging.ErrorAbortHandler
     ∉ Logging.handlers (w_logging (snd (_set_limit kind soft hard w)))) ∧
  ∀ e, fst (_set_limit kind soft hard w) = Raise e →
       caught_by e [OSError; ValueError] = false.
Proof.
  intros Hnin. unfold _set_limit, try_except, setrlimit.
  destruct (os_setrlimit_check kind (soft, hard) (w_rlimits w)) as [e|]; [|done].
  destruct (caught_by e [OSError; ValueError]) eqn:Hc.
  - unfold logging_critical.
    destruct (logging_log_no_abort Logging.CRITICAL
                (set_limit_message kind soft hard e) w Hnin) as (w' & -> & Hkeep & _).
    done.
  - split; [done|]. simpl. by intros e' [= <-].
Qed.

(** X8: without the abort handler, a refusal of the kernel never ends
    [_prepare_call]: the only exceptions that leave it are those that
    [_set_limit] does not handle. *)
Theorem prepare_call_best_effort time_limit memory_limit w :
  Logging.ErrorAbortHandler ∉ Logging.handlers (w_logging w) →
  ∀ e, fst (_prepare_call time_limit memory_limit w) = Raise e →
       caught_by e [OSError; ValueError] = false.
Proof.
  intros Hnin e. unfold _prepare_call, bind.
  assert ((Logging.ErrorAbortHandler
             ∉ Logging.handlers (w_logging (snd (limit_cpu_time time_limit w)))) ∧
          ∀ e, fst (limit_cpu_time time_limit w) = Raise e →
               caught_by e [OSError; ValueError] = false) as [Hn1 He1].
  { destruct time_limit; [by apply set_limit_no_abort|done]. }
  destruct (limit_cpu_time time_limit w) as [[[]|e1] w1]; simpl in *;
    [|intros [= <-]; by apply He1].
  assert ((Logging.ErrorAbortHandler
             ∉ Logging.handlers (w_logging (snd (limit_memory memory_limit w1)))) ∧
          ∀ e, fst (limit_memory memory_limit w1) = Raise e →
               caught_by e [OSError; ValueError] = false) as [Hn2 He2].
  { destruct memory_limit; [|done]. simpl. unfold bind, getrlimit.
    by apply set_limit_no_abort. }
  destruct (limit_memory memory_limit w1) as [[[]|e2] w2]; simpl in *;
    [|intros [= <-]; by apply He2].
  apply (set_limit_no_abort RLIMIT_CORE 0 0 w2 Hn2).
Qed.

(** X9: when [_prepare_call] returns, on a kernel that accepts a core
    limit of zero, core files are disabled, whatever the time and memory
    limits of the specification. *)
Theorem prepare_call_disables_core time_limit memory_limit w w' :
  (∀ table, os_setrlimit_check RLIMIT_CORE (0, 0) table = None) →
  _prepare_call time_limit memory_limit w = (Ok tt, w') →
  w_rlimits w' RLIMIT_CORE = (0, 0).
Proof.
  intros Hzero. unfold _prepare_call, bind.
  destruct (limit_cpu_time time_limit w) as [[[]|e1] w1]; [|discriminate].
  destruct (limit_memory memory_limit w1) as [[[]|e2] w2]; [|discriminate].
  rewrite set_limit_accepted by apply Hzero. intros [= <-].
  by rewrite rlimits_set_rlimits, fn_lookup_insert.
Qed.

End LimitFailures.

(** Witnesses on the unprivileged Linux process. *)

Lemma prepare_call_unhandled_exception_witness :
  _prepare_call (Some (2 ^ 63)) (Some 3000) Linux.boot
  = (Raise (Exn OverflowError "Python int too large to convert to C long"),
     Linux.boot).
Proof.
  exact (prepare_call_unhandled_exception (2 ^ 63) (Some 3000) Linux.boot
           (Exn OverflowError "Python int too large to convert to C long")
           eq_refl eq_refl).
Defined.

Lemma prepare_call_refusal_aborts_witness :
  let w := set_rlimits (<[RLIMIT_CPU := (600, 600)]> Linux.unlimited) configured in
  ∃ w', _prepare_call (Some 1800) (Some 3000) w
        = (Raise (Exn SystemExit "aborting"), w') ∧
        w_rlimits w' = w_rlimits w ∧
        (Logging.Stderr,
         Logging.LogRecord Logging.CRITICAL
           (set_limit_message RLIMIT_CPU 1800 (1800 + 5)
              (Exn ValueError "not allowed to raise maximum limit")))
          ∈ Logging.written (w_logging w').
Proof.
  intros w.
  apply (prepare_call_refusal_aborts 1800 (Some 3000) w
           (Exn ValueError "not allowed to raise maximum limit")).
  - reflexivity.
  - reflexivity.
  - apply list_elem_of_In. simpl. tauto.
  - simpl. unfold Logging.INFO, Logging.CRITICAL. lia.
Defined.

Lemma prepare_call_best_effort_witness :
  let e := Exn OverflowError "Python int too large to convert to C long" in
  (Logging.ErrorAbortHandler ∉ Logging.handlers (w_logging Linux.boot)) ∧
  fst (_prepare_call (Some (2 ^ 63)) (Some 3000) Linux.boot) = Raise e ∧
  caught_by e [OSError; ValueError] = false.
Proof.
  intros e.
  assert (Logging.ErrorAbortHandler ∉ Logging.handlers (w_logging Linux.boot))
    as Hnone.
  { simpl. intros Hin%list_elem_of_In. simpl in Hin. intuition discriminate. }
  split; [exact Hnone|]. split; [reflexivity|].
  exact (prepare_call_best_effort (Some (2 ^ 63)) (Some 3000) Linux.boot Hnone e
           eq_refl).
Defined.

Lemma linux_accepts_no_core table :
  Linux.setrlimit_check RLIMIT_CORE (0, 0) table = None.
Proof.
  unfold Linux.setrlimit_check, Linux.fits_long_long, Linux.to_rlim.
  change (0 mod 2 ^ 64) with 0.
  pose proof (Z.mod_pos_bound (snd (table RLIMIT_CORE)) (2 ^ 64) eq_refl).
  destruct (_ mod _ <? 0) eqn:Hlt; [lia|done].
Qed.

Lemma prepare_call_disables_core_witness :
  w_rlimits (snd (_prepare_call (Some 1800) (Some 3000) Linux.boot)) RLIMIT_CORE
  = (0, 0).
Proof.
  destruct (_prepare_call (Some 1800) (Some 3000) Linux.boot) as [r w'] eqn:Hrun.
  assert (r = Ok tt) as ->.
  { change r with (fst (r, w')). rewrite <- Hrun. reflexivity. }
  exact (prepare_call_disables_core (Some 1800) (Some 3000) Linux.boot w'
           linux_accepts_no_core Hrun).
Defined.

(** ** The ways in which [start] ends *)

Section StartOutcomes.
Context `{OS}.
Implicit Types (self : Run) (w : world).

Lemma logging_debug_returns msg w :
  logging_debug msg w = (Ok tt, snd (logging_debug msg w)).
Proof.
  unfold logging_debug, logging_log.
  destruct (log_below_critical Logging.DEBUG msg (w_logging w)) as [st' ->];
    [unfold Logging.DEBUG, Logging.CRITICAL; lia|done].
Qed.

Lemma logged_command_frame self w :
  w_rlimits (logged_command self w) = w_rlimits w ∧
  w_fs (logged_command self w) = w_fs w ∧
  w_os (logged_command self w) = w_os w.
Proof.
  unfold logged_command, logging_debug, logging_log.
  by destruct (Logging.log _ _ _).
Qed.

(** [start], one step at a time. *)
Lemma start_unfold self w :
  start self w =
  let w0 := logged_command self w in
  match popen_check (command self) with
  | Some e => (Raise e, self, w0)
  | None =>
      match _prepare_call (time_limit self) (memory_limit self) w0 with
      | (Raise _, _) =>
          (Raise (Exn SubprocessError "Exception occurred in preexec_fn."), self, w0)
      | (Ok _, child) =>
          match os_exec (command self) (truthy (input_file self)) (env_of child)
                  (w_os w0) with
          | (Raise e, o) => (Raise e, self, set_os o w0)
          | (Ok p, o) =>
              let w1 := set_os o w0 in
              let input_text :=
                if truthy (input_file self)
                then match read_text (default EmptyString (input_file self)) w1 with
                     | (Ok text, _) => Ok (Some text)
                     | (Raise e, _) => Raise e
                     end
                else Ok None in
              match input_text with
              | Raise e => (Raise e, self, w1)
              | Ok text =>
                  match os_communicate p text o with
                  | (Ok (out, err, rc), o') =>
                      (Ok (out, err, Some rc), self, set_os o' w1)
                  | (Raise e, o') => (Raise e, self, set_os o' w1)
                  end
              end
          end
      end
  end.
Proof.
  cbn zeta. remember (logged_command self w) as w0 eqn:Hw0.
  unfold logged_command in Hw0.
  unfold start, mbind, getattr, lift at 1.
  rewrite logging_debug_returns, <- Hw0. clear Hw0.
  unfold lift at 1. unfold Popen, os_exec, env_of.
  destruct (popen_check (command self)) as [e|]; [done|].
  destruct (_prepare_call _ _ w0) as [[[]|e] child]; [|done].
  destruct (os_execve _ _ _ _) as [[p|e] o]; [|done].
  destruct (truthy (input_file self)) eqn:Htruthy.
  - unfold lift at 1. unfold read_text.
    destruct (w_fs (set_os o w0) !! _) as [content|]; [|done].
    destruct (os_decode content) as [text|e]; [|done].
    unfold lift, ret, communicate. simpl.
    by destruct (os_communicate p (Some text) o) as [[[[out err] rc]|e] o'].
  - unfold lift, ret, communicate. simpl.
    by destruct (os_communicate p None o) as [[[[out err] rc]|e] o'].
Qed.

(** X10: the limits are set in the child only.  In the caller, [start]
    leaves the resource limits and the files as they were, and the log
    holds what it held after the debug record of the command: whatever
    [_prepare_call] logs goes to the child's streams. *)
Theorem start_frame self w :
  w_rlimits (snd (start self w)) = w_rlimits w ∧
  w_fs (snd (start self w)) = w_fs w ∧
  w_logging (snd (start self w)) = w_logging (logged_command self w).
Proof.
  rewrite start_unfold. cbn zeta.
  destruct (logged_command_frame self w) as (Hr & Hf & _).
  rewrite <- Hr, <- Hf.
  repeat (case_match; simplify_eq/=; try done).
Qed.

Lemma os_exec_ok command stdin_pipe env o p o' :
  os_exec command stdin_pipe env o = (Ok p, o') → popen_check command = None.
Proof. unfold os_exec. by destruct (popen_check command). Qed.

Lemma os_exec_refused command stdin_pipe env o e :
  popen_check command = Some e → os_exec command stdin_pipe env o = (Raise e, o).
Proof. unfold os_exec. by intros ->. Qed.

(** X11: when [_prepare_call] raises in the child, for instance because a
    critical message ended it, no command is executed and the kernel's
    state is as before the call: [start] raises [SubprocessError] for a
    command that [Popen] takes, and for an empty command or an argument
    with a NUL byte the error that [Popen] raises before it forks. *)
Theorem start_preexec_failure self w e child :
  _prepare_call (time_limit self) (memory_limit self) (logged_command self w)
    = (Raise e, child) →
  fst (fst (start self w))
    = match popen_check (command self) with
      | Some refused => Raise refused
      | None => Raise (Exn SubprocessError "Exception occurred in preexec_fn.")
      end ∧
  w_os (snd (start self w)) = w_os w.
Proof.
  intros Hpre. rewrite start_unfold. cbn zeta. rewrite Hpre.
  destruct (popen_check (command self)); simpl;
    (split; [done|]); apply logged_command_frame.
Qed.

(** X12: the input file is opened after the command has been launched: if
    it does not exist, [start] raises [FileNotFoundError], the process is
    left running and is never waited for. *)
Theorem start_missing_input_file self w path child p o :
  input_file self = Some path → path ≠ EmptyString →
  w_fs w !! path = None →
  _prepare_call (time_limit self) (memory_limit self) (logged_command self w)
    = (Ok tt, child) →
  os_exec (command self) true (env_of child) (w_os w) = (Ok p, o) →
  fst (fst (start self w))
    = Raise (Exn FileNotFoundError
               ("[Errno 2] No such file or directory: " +:+ repr_str path)) ∧
  w_os (snd (start self w)) = o.
Proof.
  intros Hin Hne Hfs Hpre Hexec. rewrite start_unfold. cbn zeta.
  destruct (logged_command_frame self w) as (_ & Hf & Ho).
  rewrite (os_exec_ok _ _ _ _ _ _ Hexec), Hpre, Ho, Hin.
  assert (truthy (Some path) = true) as -> by by destruct path.
  rewrite Hexec. unfold read_text. simpl. by rewrite Hf, Hfs.
Qed.

(** X13: a command that cannot be executed makes [start] raise the
    exception of [Popen]; nothing is read and nothing is waited for. *)
Theorem start_launch_failure self w child e o :
  _prepare_call (time_limit self) (memory_limit self) (logged_command self w)
    = (Ok tt, child) →
  os_exec (command self) (truthy (input_file self)) (env_of child) (w_os w)
    = (Raise e, o) →
  fst (fst (start self w)) = Raise e ∧ w_os (snd (start self w)) = o.
Proof.
  intros Hpre Hexec. rewrite start_unfold. cbn zeta.
  destruct (logged_command_frame self w) as (_ & _ & Ho).
  destruct (popen_check (command self)) as [refused|] eqn:Hcheck.
  - rewrite (os_exec_refused _ _ _ _ _ Hcheck) in Hexec.
    injection Hexec as <- <-. cbn [fst snd]. by rewrite Ho.
  - by rewrite Hpre, Ho, Hexec.
Qed.

(** [start] reads four fields of the specification. *)
Lemma start_reads_fields self self' w :
  command self = command self' →
  time_limit self = time_limit self' →
  memory_limit self = memory_limit self' →
  truthy (input_file self) = truthy (input_file self') →
  (truthy (input_file self) = true → input_file self = input_file self') →
  fst (fst (start self w)) = fst (fst (start self' w)) ∧
  snd (start self w) = snd (start self' w).
Proof.
  intros Hc Ht Hm Hi Hi'. rewrite !start_unfold. cbn zeta.
  unfold logged_command. rewrite <- Hc, <- Ht, <- Hm, <- Hi.
  destruct (truthy (input_file self)); [rewrite <- Hi' by done|];
    repeat (case_match; simplify_eq/=; try done).
Qed.

(** X14: an empty string as input file is no input file: the outcome of
    [start] is the one for [input_file = None]. *)
Theorem start_empty_input_file command time_limit memory_limit log_output w :
  let self := Run__init__ command time_limit memory_limit log_output
                (Some (Some EmptyString)) in
  let self' := Run__init__ command time_limit memory_limit log_output None in
  fst (fst (start self w)) = fst (fst (start self' w)) ∧
  snd (start self w) = snd (start self' w).
Proof. intros self self'. by apply start_reads_fields. Qed.

(** X15: [log_output] has no effect on [start]: whatever is passed, the
    result and the world after the call are the same, and no file is
    written. *)
Theorem start_ignores_log_output command time_limit memory_limit input_file
    log_output log_output' w :
  let self := Run__init__ command time_limit memory_limit log_output input_file in
  let self' := Run__init__ command time_limit memory_limit log_output' input_file in
  fst (fst (start self w)) = fst (fst (start self' w)) ∧
  snd (start self w) = snd (start self' w) ∧
  w_fs (snd (start self w)) = w_fs w.
Proof.
  intros self self'.
  destruct (start_reads_fields self self' w) as [Hr Hw]; try done.
  repeat split; [done..|].
  rewrite start_unfold. cbn zeta.
  destruct (logged_command_frame self w) as (_ & Hf & _).
  rewrite <- Hf.
  repeat (case_match; simplify_eq/=; try done).
Qed.

End StartOutcomes.

Lemma start_preexec_failure_witness :
  let w := set_rlimits (<[RLIMIT_CPU := (600, 600)]> Linux.unlimited) configured in
  let self := Run__init__ ["/bin/echo"; "hi"] None None None None in
  fst (fst (start self w))
    = Raise (Exn SubprocessError "Exception occurred in preexec_fn.") ∧
  w_os (snd (start self w)) = w_os w.
Proof.
  intros w self.
  destruct (_prepare_call (time_limit self) (memory_limit self)
              (logged_command self w)) as [r child] eqn:Hpre.
  assert (r = Raise (Exn SystemExit "aborting")) as ->.
  { change r with (fst (r, child)). rewrite <- Hpre. reflexivity. }
  exact (start_preexec_failure self w _ child Hpre).
Defined.

Lemma start_missing_input_file_witness :
  let self := Run__init__ ["/bin/cat"] None None None (Some (Some "missing.txt")) in
  fst (fst (start self Linux.boot))
    = Raise (Exn FileNotFoundError
               ("[Errno 2] No such file or directory: " +:+ repr_str "missing.txt")) ∧
  Linux.procs (w_os (snd (start self Linux.boot)))
    = {[ 100%nat := Linux.Running Linux.Cat [] true ]}.
Proof.
  intros self.
  destruct (_prepare_call (time_limit self) (memory_limit self)
              (logged_command self Linux.boot)) as [r child] eqn:Hpre.
  assert (r = Ok tt) as ->.
  { change r with (fst (r, child)). rewrite <- Hpre. reflexivity. }
  destruct (start_missing_input_file self Linux.boot "missing.txt" child 100%nat
              (Linux.Machine 101 {[ 100%nat := Linux.Running Linux.Cat [] true ]}))
    as [Hr Ho]; [reflexivity|discriminate|reflexivity|exact Hpre|reflexivity|].
  split; [exact Hr|]. by rewrite Ho.
Defined.

Lemma start_launch_failure_witness :
  let self := Run__init__ ["/bin/nope"] None None None None in
  fst (fst (start self Linux.boot))
    = Raise (Exn FileNotFoundError
               "[Errno 2] No such file or directory: '/bin/nope'") ∧
  w_os (snd (start self Linux.boot)) = w_os Linux.boot.
Proof.
  intros self.
  destruct (_prepare_call (time_limit self) (memory_limit self)
              (logged_command self Linux.boot)) as [r child] eqn:Hpre.
  assert (r = Ok tt) as ->.
  { change r with (fst (r, child)). rewrite <- Hpre. reflexivity. }
  apply (start_launch_failure self Linux.boot child); [exact Hpre|reflexivity].
Defined.

(** ** More on [parse] *)

Section ParserEdges.
Context `{OS} `{Regex}.
Implicit Types (content pattern : string) (type : option pytype) (w : world).

Lemma logging_log_frame level msg w :
  w_rlimits (snd (logging_log level msg w)) = w_rlimits w ∧
  w_fs (snd (logging_log level msg w)) = w_fs w ∧
  w_os (snd (logging_log level msg w)) = w_os w.
Proof. unfold logging_log. by destruct (Logging.log _ _ _). Qed.

(** X16: with [type=bool] every non-empty text of the group gives [True],
    also the text of a false value; the only thing logged is the warning
    about this conversion. *)
Theorem parse_bool_always_true content pattern w p m s :
  re_compile pattern = Ok p → re_search p content = Some m →
  group m 1 = Ok (Some s) → s ≠ EmptyString →
  fst (parse content pattern (Some py_bool) w) = Ok (VBool true) ∧
  w_logging (snd (parse content pattern (Some py_bool) w))
  = snd (Logging.log Logging.WARNING bool_warning (w_logging w)).
Proof.
  intros Hp Hs Hg Hne. unfold parse, bind, lift_result. simpl.
  unfold logging_warning, logging_log.
  destruct (log_below_critical Logging.WARNING bool_warning (w_logging w))
    as [st' ->]; [done|].
  rewrite Hp, Hs, Hg. simpl. by rewrite bool_decide_false.
Qed.

(** X17: when the pattern matches but its first group took no part in the
    match, [match.group(1)] is [None]: the default conversion to [int]
    raises [TypeError], and [type=str] returns the text [None]. *)
Theorem parse_group_not_in_match content pattern w p m :
  re_compile pattern = Ok p → re_search p content = Some m →
  group m 1 = Ok None →
  (∃ msg, fst (parse content pattern None w) = Raise (Exn TypeError msg)) ∧
  fst (parse content pattern (Some py_str) w) = Ok (VStr "None").
Proof.
  intros Hp Hs Hg. unfold parse, bind, lift_result. simpl.
  rewrite Hp, Hs, Hg. simpl. split; [by eexists|done].
Qed.

(** X18: [parse] touches nothing but the log: resource limits, files and
    processes are as before, whatever the arguments and the outcome. *)
Theorem parse_frame content pattern type w :
  w_rlimits (snd (parse content pattern type w)) = w_rlimits w ∧
  w_fs (snd (parse content pattern type w)) = w_fs w ∧
  w_os (snd (parse content pattern type w)) = w_os w.
Proof.
  unfold parse, bind, lift_result, raise, ret, logging_warning, logging_debug,
    logging_critical.
  assert (∀ level msg, logging_log level msg w
                       = (fst (logging_log level msg w), snd (logging_log level msg w)))
    as Hsplit by (intros; apply surjective_pairing).
  pose proof (λ level msg w, logging_log_frame level msg w) as Hframe.
  assert (∀ (c : M unit) w1,
            w_rlimits w1 = w_rlimits w ∧ w_fs w1 = w_fs w ∧ w_os w1 = w_os w →
            ∀ level msg,
              let w2 := snd (match logging_log level msg w1 with
                             | (Ok _, w') => (Ok VNone, w')
                             | (Raise e, w') => (Raise e, w')
                             end) in
              w_rlimits w2 = w_rlimits w ∧ w_fs w2 = w_fs w ∧ w_os w2 = w_os w)
    as Hlog.
  { intros _ w1 (Hr & Hf & Ho) level msg.
    destruct (Hframe level msg w1) as (Hr' & Hf' & Ho').
    destruct (logging_log level msg w1) as [[[]|e] w2]; simpl in *;
      by rewrite Hr', Hf', Ho'. }
  assert (∃ w1, (if is_bool (default py_int type)
                 then logging_log Logging.WARNING bool_warning else λ w, (Ok tt, w)) w
                = (Ok tt, w1) ∧
                w_rlimits w1 = w_rlimits w ∧ w_fs w1 = w_fs w ∧ w_os w1 = w_os w)
    as (w1 & -> & Hw1).
  { destruct (is_bool _); [|by eexists].
    destruct (Hframe Logging.WARNING bool_warning w) as (Hr' & Hf' & Ho').
    unfold logging_log in *.
    destruct (log_below_critical Logging.WARNING bool_warning (w_logging w))
      as [st' Hst']; [done|].
    rewrite Hst' in *. by eexists. }
  destruct (re_compile pattern) as [p|e]; [|done].
  destruct (re_search p content) as [m|].
  - destruct (group m 1) as [v|e].
    + by destruct (call_type _ v).
    + destruct (caught_by e [IndexError]); [|done].
      by apply (Hlog (ret tt)).
  - by apply (Hlog (ret tt)).
Qed.

End ParserEdges.

Lemma parse_bool_always_true_witness :
  fst (parse "flag: False" "flag: (\w+)" (Some py_bool) configured) = Ok (VBool true) ∧
  w_logging (snd (parse "flag: False" "flag: (\w+)" (Some py_bool) configured))
  = snd (Logging.log Logging.WARNING bool_warning (w_logging configured)).
Proof.
  destruct (re_compile "flag: (\w+)") as [p|] eqn:Hp; [|discriminate Hp].
  destruct (re_search p "flag: False") as [m|] eqn:Hs.
  - apply (parse_bool_always_true "flag: False" "flag: (\w+)" configured p m "False");
      [exact Hp|exact Hs| |discriminate].
    injection Hp as <-. injection Hs as <-. reflexivity.
  - injection Hp as <-. discriminate Hs.
Defined.

Lemma parse_group_not_in_match_witness :
  (∃ msg, fst (parse "xxb" "(a)|b" None configured) = Raise (Exn TypeError msg)) ∧
  fst (parse "xxb" "(a)|b" (Some py_str) configured) = Ok (VStr "None").
Proof.
  destruct (re_compile "(a)|b") as [p|] eqn:Hp; [|discriminate Hp].
  destruct (re_search p "xxb") as [m|] eqn:Hs.
  - apply (parse_group_not_in_match "xxb" "(a)|b" configured p m);
      [exact Hp|exact Hs|].
    injection Hp as <-. injection Hs as <-. reflexivity.
  - injection Hp as <-. discriminate Hs.
Defined.

(** ** More on the state codec *)

Section StateFiles.
Context `{OS} `{Pickle}.
Implicit Types (V : pyval) (path : string) (w : world).

Lemma write_state_ok V path w w' :
  write_state V path w = (Ok tt, w') →
  ∃ data, pickle_dumps V = Ok data ∧ w' = set_fs (<[path := data]> (w_fs w)) w.
Proof.
  unfold write_state, open_wb, pickle_dump, file_write, bind, lift_result.
  destruct (os_open_write_check path (w_fs w)) as [e|]; [discriminate|].
  destruct (pickle_dumps V) as [data|e]; [|discriminate].
  intros [= <-]. exists data. split; [done|].
  unfold set_fs. cbn [w_fs w_logging w_rlimits w_os].
  rewrite lookup_insert_eq. cbn [default from_option id app].
  by rewrite insert_insert_eq.
Qed.

(** X19: a successful [write_state] replaces the content of the file by
    the pickle of the state: what the file held before is gone, nothing is
    appended, and no other file, limit, log or process is touched. *)
Theorem write_state_replaces_file V path w w' :
  write_state V path w = (Ok tt, w') →
  ∃ data, pickle_dumps V = Ok data ∧
          w_fs w' = <[path := data]> (w_fs w) ∧
          w_logging w' = w_logging w ∧ w_rlimits w' = w_rlimits w ∧
          w_os w' = w_os w.
Proof.
  intros (data & Hdata & ->)%write_state_ok. by exists data.
Qed.

(** X21: [write_state] on a path that cannot be opened for writing raises
    the error of [open] before anything is pickled or written: every file
    is as before, also one that an earlier call has written. *)
Theorem write_state_open_refused V path w e :
  os_open_write_check path (w_fs w) = Some e →
  write_state V path w = (Raise e, w).
Proof.
  intros Hopen. unfold write_state, open_wb, bind. by rewrite Hopen.
Qed.

(** X22: [read_state] on a path without a file raises [FileNotFoundError]
    and creates nothing. *)
Theorem read_state_missing_file path w :
  w_fs w !! path = None →
  read_state path w
  = (Raise (Exn FileNotFoundError
              ("[Errno 2] No such file or directory: " +:+ repr_str path)), w).
Proof.
  intros Hfs. unfold read_state, read_bytes, bind. by rewrite Hfs.
Qed.

End StateFiles.

Lemma write_state_replaces_file_witness :
  let w := set_fs {[ "state.pickle" := list_byte_of_string "old content" ]}
             Linux.boot in
  fst (write_state sample_state "state.pickle" w) = Ok tt ∧
  ∃ data, pickle_dumps sample_state = Ok data ∧
          w_fs (snd (write_state sample_state "state.pickle" w))
          = <[ "state.pickle" := data ]> (w_fs w).
Proof.
  intros w.
  assert (fst (write_state sample_state "state.pickle" w) = Ok tt) as Hw
      by (vm_compute; reflexivity).
  split; [exact Hw|].
  destruct (write_state sample_state "state.pickle" w) as [r w'] eqn:Hws.
  simpl in Hw. subst r.
  destruct (write_state_replaces_file sample_state "state.pickle" w w' Hws)
    as (data & Hdata & Hfs & _).
  by exists data.
Defined.

Lemma write_state_open_refused_witness :
  write_state sample_state "missing/state.pickle" Linux.boot
  = (Raise (Exn FileNotFoundError
              ("[Errno 2] No such file or directory: "
               +:+ repr_str "missing/state.pickle")), Linux.boot).
Proof.
  exact (write_state_open_refused sample_state "missing/state.pickle" Linux.boot
           _ eq_refl).
Defined.

Lemma read_state_missing_file_witness :
  read_state "state.pickle" Linux.boot
  = (Raise (Exn FileNotFoundError
              ("[Errno 2] No such file or directory: " +:+ repr_str "state.pickle")),
     Linux.boot).
Proof.
  exact (read_state_missing_file "state.pickle" Linux.boot eq_refl).
Defined.

(** ** What [Run.__repr__] shows *)

Lemma basename_no_slash p :
  has_char "/"%char p = false → basename p = p.
Proof.
  destruct p as [|c p']; [done|]. cbn [has_char basename].
  intros [Hc Hp]%orb_false_elim. rewrite Hp.
  apply bool_decide_eq_false in Hc. destruct (decide (c = "/"%char)); [|done].
  by subst.
Qed.

Lemma has_char_app c a b :
  has_char c (a +:+ b) = has_char c a || has_char c b.
Proof.
  induction a as [|c' a IH]; [done|]. rewrite append_cons. cbn [has_char].
  by rewrite IH, orb_assoc.
Qed.

Lemma basename_dir_name dir name :
  has_char "/"%char name = false → basename (dir +:+ "/" +:+ name) = name.
Proof.
  intros Hname. induction dir as [|c dir IH].
  - rewrite append_nil_l, append_cons, append_nil_l. cbn [basename].
    rewrite Hname. by destruct (decide _).
  - rewrite append_cons. cbn [basename].
    rewrite has_char_app, append_cons. cbn [has_char].
    rewrite bool_decide_true by done. by rewrite orb_true_r.
Qed.

(** X23: the text of a specification is [Run("...")] around the file
    names of the command parts, separated by blanks, followed by [ < ] and
    the input file when there is one: the directories of the parts, the
    limits and [log_output] are not in it. *)
Theorem repr_shows_file_names (parts : list (option string * string))
    time_limit memory_limit log_output input :
  Forall (λ part, has_char "/"%char (snd part) = false) parts →
  Run__repr__
    (Run__init__
       (map (λ part, match fst part with
                     | Some dir => dir +:+ "/" +:+ snd part
                     | None => snd part
                     end) parts)
       time_limit memory_limit log_output input)
  = "Run(" +:+ String dquote
      ((String.concat " " (map snd parts)
        +:+ match kwarg_default None input with
            | Some (String c file) => " < " +:+ String c file
            | _ => EmptyString
            end) +:+ String dquote ")").
Proof.
  intros Hparts. unfold Run__repr__, Run__init__. cbn [command input_file].
  assert (map basename
            (map (λ part, match fst part with
                          | Some dir => dir +:+ "/" +:+ snd part
                          | None => snd part
                          end) parts)
          = map snd parts) as ->.
  { induction Hparts as [|[[dir|] name] parts Hname _ IH]; [done|..];
      cbn [map fst snd] in *; rewrite IH.
    - by rewrite basename_dir_name.
    - by rewrite basename_no_slash. }
  destruct (kwarg_default None input) as [[|c file]|]; cbn [truthy default from_option];
    [|done|]; by rewrite append_nil_r.
Qed.

Lemma repr_shows_file_names_witness :
  Run__repr__ (Run__init__ ["/usr/bin/python3"; "a b/c.py"; "x"] None (Some (Some 3000))
                 (Some (Some "always")) (Some (Some "in/put.txt")))
  = "Run(" +:+ String dquote ("python3 c.py x < in/put.txt" +:+ String dquote ")").
Proof.
  apply (repr_shows_file_names
           [(Some "/usr/bin", "python3"); (Some "a b", "c.py"); (None, "x")]).
  repeat constructor.
Defined.

(** ** The evaluator of the planner example *)

Section EvaluatorProperties.
Context `{OS} `{Regex}.

(** With the default type, [parse] returns [None] or an integer. *)
Lemma parse_default_result content pattern w v w' :
  parse content pattern None w = (Ok v, w') →
  v = VNone ∨ ∃ z, v = VInt z.
Proof.
  unfold parse, bind, lift_result, raise, ret, logging_critical, logging_debug.
  cbn [default from_option is_bool id].
  destruct (re_compile pattern) as [p|e]; [|discriminate].
  destruct (re_search p content) as [m|].
  - destruct (group m 1) as [[s|]|e]; cbn [call_type].
    + destruct (int_of_str s) as [z|e]; [|discriminate].
      intros [= <- _]. right. by eexists.
    + discriminate.
    + destruct (caught_by e [IndexError]); [|discriminate].
      destruct (logging_log _ _ _) as [[[]|e'] w1]; [|discriminate].
      intros [= <- _]. by left.
  - destruct (logging_log _ _ _) as [[[]|e'] w1]; [|discriminate].
    intros [= <- _]. by left.
Qed.

(** X24: [evaluate] returns a verdict only after both planner runs and
    both searches of their output have ended without an exception; the
    verdict is [True] exactly when a plan cost and an initial heuristic
    value were found and the two numbers differ. *)
Theorem evaluate_verdict PLANNER domain problem w b w' :
  evaluate PLANNER domain problem w = (Ok b, w') →
  ∃ out1 out2 cost initial_h w1 w2 w3,
    call_start (Run__init__ (reference_command PLANNER domain problem)
                  (Some (Some 20)) (Some (Some 3000)) None None) w
      = (Ok out1, w1) ∧
    parse (fst (fst out1)) "Plan cost: (\d+)" None w1 = (Ok cost, w2) ∧
    call_start (Run__init__ (mip_command PLANNER domain problem)
                  (Some (Some 20)) (Some (Some 3000)) None None) w2
      = (Ok out2, w3) ∧
    parse (fst (fst out2)) "Initial heuristic value .* (\d+)" None w3
      = (Ok initial_h, w') ∧
    (b = true ↔ ∃ c h, cost = VInt c ∧ initial_h = VInt h ∧ c ≠ h).
Proof.
  unfold evaluate, bind.
  destruct (call_start _ w) as [[out1|e] w1] eqn:Hrun1; [|discriminate].
  destruct (parse _ _ None w1) as [[cost|e] w2] eqn:Hcost; [|discriminate].
  destruct (call_start _ w2) as [[out2|e] w3] eqn:Hrun2; [|discriminate].
  destruct (parse _ _ None w3) as [[initial_h|e] w4] eqn:Hh; [|discriminate].
  intros Hret. exists out1, out2, cost, initial_h, w1, w2, w3.
  destruct (parse_default_result _ _ _ _ _ Hcost) as [->|[c ->]];
    destruct (parse_default_result _ _ _ _ _ Hh) as [->|[h ->]];
    unfold ret in Hret; cbn [py_eq] in Hret; injection Hret as <- <-;
    (split; [done|]); (split; [done|]); (split; [done|]); (split; [done|]).
  - split; [discriminate|]. intros (c' & h' & ? & _). discriminate.
  - split; [discriminate|]. intros (c' & h' & ? & _). discriminate.
  - split; [discriminate|]. intros (c' & h' & _ & ? & _). discriminate.
  - split.
    + intros Hne%negb_true_iff%Z.eqb_neq. by exists c, h.
    + intros (c' & h' & [= <-] & [= <-] & Hne). by apply negb_true_iff, Z.eqb_neq.
Qed.

(** X25: when the limits cannot be set for the reference run, [evaluate]
    gives no verdict and no planner is started: it raises
    [SubprocessError], or [ValueError] before anything is forked when the
    planner path or a file name holds a NUL byte. *)
Theorem evaluate_limits_refused PLANNER domain problem w e child :
  _prepare_call (Some 20) (Some 3000)
    (logged_command (Run__init__ (reference_command PLANNER domain problem)
                       (Some (Some 20)) (Some (Some 3000)) None None) w)
    = (Raise e, child) →
  fst (evaluate PLANNER domain problem w)
    = (if existsb (has_char "000"%char) [PLANNER; domain; problem]
       then Raise (Exn ValueError "embedded null byte")
       else Raise (Exn SubprocessError "Exception occurred in preexec_fn.")) ∧
  w_os (snd (evaluate PLANNER domain problem w)) = w_os w.
Proof.
  intros Hpre. unfold evaluate, bind, call_start.
  rewrite start_unfold. cbn zeta.
  cbn [Run__init__ time_limit memory_limit command kwarg_default] in *.
  rewrite Hpre.
  assert (popen_check (reference_command PLANNER domain problem)
          = if existsb (has_char "000"%char) [PLANNER; domain; problem]
            then Some (Exn ValueError "embedded null byte") else None) as ->.
  { unfold popen_check, reference_command. cbn [existsb].
    change (has_char "000" "--search") with false.
    change (has_char "000" reference_search) with false.
    change (has_char "000" "--translate-options") with false.
    change (has_char "000" "--relaxed") with false.
    by rewrite !orb_false_r. }
  destruct (existsb _ _); cbn [fst snd]; (split; [done|]);
    apply (logged_command_frame
             (Run__init__ (reference_command PLANNER domain problem)
                (Some (Some 20)) (Some (Some 3000)) None None) w).
Qed.

End EvaluatorProperties.

(** Witnesses on the machine with the planner. *)

Lemma evaluate_verdict_witness :
  let outcome :=
    @evaluate PlannerHost.planner_os Backtrack.backtrack_regex
      (PLANNER "/opt/downward") "domain.pddl" "problem.pddl" PlannerHost.boot in
  fst outcome = Ok true ∧
  PlannerHost.waited (@w_os PlannerHost.planner_os (snd outcome)) = 2%nat ∧
  ∃ (out1 out2 : string * string * option Z) w1 w3 c h,
    fst (@parse PlannerHost.planner_os Backtrack.backtrack_regex
           (fst (fst out1)) "Plan cost: (\d+)" None w1) = Ok (VInt c) ∧
    fst (@parse PlannerHost.planner_os Backtrack.backtrack_regex
           (fst (fst out2)) "Initial heuristic value .* (\d+)" None w3) = Ok (VInt h) ∧
    c ≠ h.
Proof.
  intros outcome. subst outcome.
  destruct (@evaluate PlannerHost.planner_os Backtrack.backtrack_regex
              (PLANNER "/opt/downward") "domain.pddl" "problem.pddl" PlannerHost.boot)
    as [r w'] eqn:Hrun.
  assert (r = Ok true) as ->.
  { change r with (fst (r, w')). rewrite <- Hrun. vm_compute. reflexivity. }
  assert (PlannerHost.waited (@w_os PlannerHost.planner_os w') = 2%nat) as Hwaited.
  { change w' with (snd (Ok true, w')). rewrite <- Hrun. vm_compute. reflexivity. }
  destruct (@evaluate_verdict PlannerHost.planner_os Backtrack.backtrack_regex
              (PLANNER "/opt/downward") "domain.pddl" "problem.pddl"
              PlannerHost.boot true w' Hrun)
    as (out1 & out2 & cost & initial_h & w1 & w2 & w3 & _ & Hcost & _ & Hh & Hiff).
  destruct Hiff as [Hdiffer _].
  destruct (Hdiffer eq_refl) as (c & h & -> & -> & Hne).
  split; [reflexivity|]. split; [exact Hwaited|].
  exists out1, out2, w1, w3, c, h. rewrite Hcost, Hh. by repeat split.
Defined.

Lemma evaluate_limits_refused_witness :
  let w : @world PlannerHost.planner_os :=
    @set_rlimits PlannerHost.planner_os (<[RLIMIT_CPU := (10, 10)]> Linux.unlimited)
      (@set_logging PlannerHost.planner_os
         (Logging.configure_logging Logging.INFO Logging.initial) PlannerHost.boot) in
  let outcome :=
    @evaluate PlannerHost.planner_os Backtrack.backtrack_regex
      (PLANNER "/opt/downward") "domain.pddl" "problem.pddl" w in
  fst outcome = Raise (Exn SubprocessError "Exception occurred in preexec_fn.") ∧
  @w_os PlannerHost.planner_os (snd outcome) = @w_os PlannerHost.planner_os w.
Proof.
  intros w outcome. subst outcome.
  destruct (@_prepare_call PlannerHost.planner_os (Some 20) (Some 3000)
              (@logged_command PlannerHost.planner_os
                 (Run__init__ (reference_command (PLANNER "/opt/downward")
                                 "domain.pddl" "problem.pddl")
                    (Some (Some 20)) (Some (Some 3000)) None None) w))
    as [r child] eqn:Hpre.
  assert (r = Raise (Exn SystemExit "aborting")) as ->.
  { change r with (fst (r, child)). rewrite <- Hpre. vm_compute. reflexivity. }
  exact (@evaluate_limits_refused PlannerHost.planner_os Backtrack.backtrack_regex
           (PLANNER "/opt/downward") "domain.pddl" "problem.pddl" w _ child Hpre).
Defined.

(** ** A run that reads its input from a file *)

Section StartInput.
Context `{OS}.

(** X26: with an input file, the command is launched with a pipe on
    stdin, the text of the file is what the process is given there, and
    [start] returns the output, the error output and the return code that
    the process ends with. *)
Theorem start_pipes_input_file self w path content text child p o out err rc o' :
  input_file self = Some path → path ≠ EmptyString →
  w_fs w !! path = Some content → os_decode content = Ok text →
  _prepare_call (time_limit self) (memory_limit self) (logged_command self w)
    = (Ok tt, child) →
  os_exec (command self) true (env_of child) (w_os w) = (Ok p, o) →
  os_communicate p (Some text) o = (Ok (out, err, rc), o') →
  fst (fst (start self w)) = Ok (out, err, Some rc) ∧
  w_os (snd (start self w)) = o'.
Proof.
  intros Hin Hne Hfs Hdec Hpre Hexec Hcomm. rewrite start_unfold. cbn zeta.
  destruct (logged_command_frame self w) as (_ & Hf & Ho).
  rewrite (os_exec_ok _ _ _ _ _ _ Hexec), Hpre, Ho, Hin.
  assert (truthy (Some path) = true) as -> by by destruct path.
  rewrite Hexec. unfold read_text. cbn [default from_option id w_fs set_os].
  by rewrite Hf, Hfs, Hdec, Hcomm.
Qed.

End StartInput.

Lemma start_pipes_input_file_witness :
  let self := Run__init__ ["/bin/cat"] None None None (Some (Some "in.txt")) in
  let w := set_fs {[ "in.txt" := list_byte_of_string "plan" ]} Linux.boot in
  fst (fst (start self w)) = Ok ("plan", EmptyString, Some 0) ∧
  Linux.procs (w_os (snd (start self w))) = ∅.
Proof.
  intros self w.
  destruct (_prepare_call (time_limit self) (memory_limit self)
              (logged_command self w)) as [r child] eqn:Hpre.
  assert (r = Ok tt) as ->.
  { change r with (fst (r, child)). rewrite <- Hpre. reflexivity. }
  destruct (start_pipes_input_file self w "in.txt" (list_byte_of_string "plan")
              "plan" child 100%nat
              (Linux.Machine 101 {[ 100%nat := Linux.Running Linux.Cat [] true ]})
              "plan" EmptyString 0
              (Linux.Machine 101 (delete 100%nat
                 {[ 100%nat := Linux.Running Linux.Cat [] true ]})))
    as [Hr Ho];
    [reflexivity|discriminate|reflexivity|reflexivity|exact Hpre
    |reflexivity|reflexivity|].
  split; [exact Hr|]. rewrite Ho. cbn [Linux.procs]. apply delete_singleton_eq.
Defined.
